(** * The chained hash map of util/base/include/hash_map.h and the atom
      registry of util/base/source/atom_registry.cpp

    The C++ objects are embedded with an explicit free store: an [Item] lives
    at an address, a [boost::shared_ptr<Item>] or an [Item*] is an optional
    address (null is [None]), and the bucket vector is a list of such
    pointers.  Every member function is a function from the state of the
    table to a [result], which is either the value returned together with
    the new state or the [fault] at which the C++ program leaves defined
    behaviour. *)

From stdpp Require Import gmap strings list fin_maps sorting.
From Stdlib Require Import QArith.QArith_base Floats.SpecFloat.
Close Scope Q_scope.

(** ** Machine integers

    The out-of-class definitions of the constructor and of [resize] take a
    [const unsigned int] where the class declares a [const size_t]; the
    header is only accepted where the two are one type, so [size_t] is the
    32-bit unsigned integer and its arithmetic wraps modulo [2^32]. *)

Definition SIZE_T_MODULUS : N := 2 ^ 32.

Definition wrap (n : N) : N := n mod SIZE_T_MODULUS.

(** ** Doubles

    A [double] is an IEEE 754 binary64 number: 53 bits of precision and
    the exponent of the infinities at 1024.  The conversion of an integer,
    the division and the comparison are those of the executable
    specification of the standard library, which round to nearest, ties
    to even. *)

Definition double : Type := spec_float.

(** [static_cast<double>( n )], and the conversion of a [size_t] operand
    of an arithmetic operator whose other operand is a [double]. *)
Definition double_of_size_t (n : N) : double :=
  binary_normalize 53 1024 (Z.of_N n) 0 false.

(** [x / y] and [x > y] on doubles. *)
Definition double_div (x y : double) : double := SFdiv 53 1024 x y.

Definition double_gt (x y : double) : bool := SFltb y x.

(** ** Outcomes *)

Inductive fault : Type :=
  | ModuloByZero
  | NullDereference
  | InvalidPointer
  | OutOfRange
  | AssertionFailure
  | NonTermination.

Inductive result (A : Type) : Type :=
  | Ok (a : A)
  | Fault (f : fault).

Arguments Ok {A} a.
Arguments Fault {A} f.

#[global] Instance result_ret : MRet result := @Ok.

#[global] Instance result_bind : MBind result := fun A B k r =>
  match r with
  | Ok a => k a
  | Fault f => Fault f
  end.

(** [a % b] on [size_t]. *)
Definition modulo (a b : N) : result N :=
  if (b =? 0)%N then Fault ModuloByZero else Ok (a mod b)%N.

(** [v[ i ]] read and [v[ i ] = x] on a [std::vector]. *)
Definition vector_at {A : Type} (v : list A) (i : N) : result A :=
  match v !! N.to_nat i with
  | Some x => Ok x
  | None => Fault OutOfRange
  end.

Definition vector_set {A : Type} (v : list A) (i : N) (x : A) : result (list A) :=
  if decide (N.to_nat i < length v) then Ok (<[N.to_nat i := x]> v)
  else Fault OutOfRange.

(** [assert( e )]. *)
Definition assert (e : bool) : result unit :=
  if e then Ok tt else Fault AssertionFailure.

(** ** Pointers and cursors *)

(** Addresses of [Item]s and of [HashMap] objects. *)
Abbreviation Item_ptr := N (only parsing).
Abbreviation HashMap_ptr := N (only parsing).

(** [std::pair<Item*, size_t>]: the item and its position in the bucket
    vector. *)
Definition ItemPair : Type := option Item_ptr * N.

Record iterator : Type := mk_iterator {
  mCurrentItem : ItemPair;
  mParent : option HashMap_ptr
}.

Record const_iterator : Type := mk_const_iterator {
  const_mCurrentItem : ItemPair;
  const_mParent : option HashMap_ptr
}.

Definition ItemPair_eq (p q : ItemPair) : bool :=
  bool_decide (p.1 = q.1) && bool_decide (p.2 = q.2).

(** [iterator::operator==] and [const_iterator::operator==]. *)
Definition iterator_eq (a b : iterator) : bool :=
  ItemPair_eq (mCurrentItem a) (mCurrentItem b).

Definition const_iterator_eq (a b : const_iterator) : bool :=
  ItemPair_eq (const_mCurrentItem a) (const_mCurrentItem b).

Definition iterator_neq (a b : iterator) : bool := negb (iterator_eq a b).

Definition const_iterator_neq (a b : const_iterator) : bool :=
  negb (const_iterator_eq a b).

(** [const_iterator::const_iterator( iterator& )].  The [const] overloads
    of [find] and [begin] call [const_iterator] with one and with two
    arguments, which no constructor takes, so a read-only cursor is made
    from a mutable one by this constructor, as [AtomRegistry::findAtom]
    does. *)
Definition const_iterator_of (a : iterator) : const_iterator :=
  mk_const_iterator (mCurrentItem a) (mParent a).

(** [HashMap::end]: [iterator( 0, 0, 0 )]. *)
Definition HashMap_end : iterator := mk_iterator (None, 0%N) None.

Definition HashMap_end_const : const_iterator := mk_const_iterator (None, 0%N) None.

(** ** The hash map *)

Section HashMap.

Context {Key Value : Type} `{EqDecision Key}.

(** [boost::hash<Key> mHashFunction]. *)
Variable mHashFunction : Key -> N.

Record Item : Type := mk_Item {
  mKeyValuePair : Key * Value;
  mNext : option Item_ptr
}.

(** The members of the class, and [store]: the [Item]s the table has
    allocated, by address. *)
Record HashMap : Type := mk_HashMap {
  mBuckets : list (option Item_ptr);
  mSize : N;
  mNumEntries : N;
  store : gmap N Item
}.

(** [p->] on an [Item*]. *)
Definition deref (h : gmap N Item) (p : Item_ptr) : result Item :=
  match h !! p with
  | Some it => Ok it
  | None => Fault InvalidPointer
  end.

(** [HashMap::HashMap( aSize )]. *)
Definition HashMap_new (aSize : N) : HashMap :=
  {| mBuckets := replicate (N.to_nat aSize) None;
     mSize := aSize;
     mNumEntries := 0%N;
     store := ∅ |}.

(** [HashMap::empty] and [HashMap::size]. *)
Definition HashMap_empty (m : HashMap) : bool := (mNumEntries m =? 0)%N.

Definition HashMap_size (m : HashMap) : N := mNumEntries m.

(** *** find *)

(** The [while( curr )] loop of [find]; the fuel counts the items the loop
    may still visit. *)
Fixpoint find_loop (fuel : nat) (h : gmap N Item) (curr : option Item_ptr)
    (aKey : Key) (bucketSpot : N) (this : HashMap_ptr) : result iterator :=
  match curr with
  | None => Ok HashMap_end
  | Some c =>
    match fuel with
    | O => Fault NonTermination
    | S fuel' =>
      it ← deref h c;
      if decide ((mKeyValuePair it).1 = aKey)
      then Ok (mk_iterator (curr, bucketSpot) (Some this))
      else find_loop fuel' h (mNext it) aKey bucketSpot this
    end
  end.

Definition HashMap_find (this : HashMap_ptr) (m : HashMap) (aKey : Key)
    : result iterator :=
  bucketSpot ← modulo (mHashFunction aKey) (mSize m);
  curr ← vector_at (mBuckets m) bucketSpot;
  find_loop (size (store m)) (store m) curr aKey bucketSpot this.

(** *** resize *)

(** The inner [while( curr.get() )] loop that pushes a chain on the
    temporary list. *)
Fixpoint collect_chain (fuel : nat) (h : gmap N Item) (curr : option Item_ptr)
    (temporaryList : list Item_ptr) : result (list Item_ptr) :=
  match curr with
  | None => Ok temporaryList
  | Some c =>
    match fuel with
    | O => Fault NonTermination
    | S fuel' =>
      it ← deref h c;
      _ ← assert (negb (bool_decide (Some c = mNext it)));
      collect_chain fuel' h (mNext it) (temporaryList ++ [c])
    end
  end.

(** [for( unsigned int i = 0; i < mSize; ++i )], [count] iterations left. *)
Fixpoint collect_buckets (count : nat) (i : N) (m : HashMap)
    (temporaryList : list Item_ptr) : result (list Item_ptr) :=
  match count with
  | O => Ok temporaryList
  | S count' =>
    curr ← vector_at (mBuckets m) i;
    temporaryList' ← collect_chain (size (store m)) (store m) curr temporaryList;
    collect_buckets count' (i + 1)%N m temporaryList'
  end.

(** [use_count()] of the shared pointers to the item at [p]: one owner per
    successor link, bucket slot and temporary-list slot that holds it. *)
Definition use_count (h : gmap N Item) (buckets : list (option Item_ptr))
    (temporaryList : list Item_ptr) (p : Item_ptr) : nat :=
  size (filter (fun e : N * Item => mNext e.2 = Some p) h)
  + length (filter (fun b => b = Some p) buckets)
  + length (filter (fun t => t = p) temporaryList).

(** [shared_ptr::unique()]: [use_count() == 1]; an empty pointer has use
    count zero. *)
Definition unique (h : gmap N Item) (buckets : list (option Item_ptr))
    (temporaryList : list Item_ptr) (p : option Item_ptr) : bool :=
  match p with
  | None => false
  | Some a => bool_decide (use_count h buckets temporaryList a = 1)
  end.

(** [while( curr->mNext.get() )]: walk to the last item of a chain. *)
Fixpoint last_of_chain (fuel : nat) (h : gmap N Item) (curr : Item_ptr)
    : result Item_ptr :=
  match fuel with
  | O => Fault NonTermination
  | S fuel' =>
    it ← deref h curr;
    match mNext it with
    | None => Ok curr
    | Some n =>
      _ ← assert (negb (bool_decide (curr = n)));
      last_of_chain fuel' h n
    end
  end.

(** One iteration of the loop that adds the collected items back: the body
    for [temporaryList[ i ] = t].  The list only holds pointers that were
    non-null when pushed, so [assert( temporaryList[ i ].get() )] holds. *)
Definition reinsert (temporaryList : list Item_ptr) (m : HashMap) (t : Item_ptr)
    : result HashMap :=
  it ← deref (store m) t;
  _ ← assert (negb (unique (store m) (mBuckets m) temporaryList (mNext it)));
  let h1 := <[t := mk_Item (mKeyValuePair it) None]> (store m) in
  bucketSpot ← modulo (mHashFunction (mKeyValuePair it).1) (mSize m);
  curr ← vector_at (mBuckets m) bucketSpot;
  match curr with
  | None =>
    buckets ← vector_set (mBuckets m) bucketSpot (Some t);
    Ok (mk_HashMap buckets (mSize m) (mNumEntries m) h1)
  | Some c =>
    last ← last_of_chain (size h1) h1 c;
    _ ← assert (negb (bool_decide (last = t)));
    lit ← deref h1 last;
    Ok (mk_HashMap (mBuckets m) (mSize m) (mNumEntries m)
          (<[last := mk_Item (mKeyValuePair lit) (Some t)]> h1))
  end.

Fixpoint reinsert_all (temporaryList rest : list Item_ptr) (m : HashMap)
    : result HashMap :=
  match rest with
  | [] => Ok m
  | t :: rest' =>
    m' ← reinsert temporaryList m t;
    reinsert_all temporaryList rest' m'
  end.

Definition HashMap_resize (m : HashMap) (aNewSize : N) : result HashMap :=
  if (aNewSize =? mSize m)%N then Ok m
  else
    temporaryList ← collect_buckets (N.to_nat (mSize m)) 0%N m [];
    _ ← assert (N.of_nat (length temporaryList) =? mNumEntries m)%N;
    let m1 := mk_HashMap (replicate (N.to_nat aNewSize) None) aNewSize
                (mNumEntries m) (store m) in
    reinsert_all temporaryList temporaryList m1.

(** *** insert *)

(** The search loop of [insert]: returns [update], [curr] and [prev] as
    the loop leaves them. *)
Fixpoint insert_loop (fuel : nat) (h : gmap N Item) (curr prev : option Item_ptr)
    (aKey : Key) : result (bool * option Item_ptr * option Item_ptr) :=
  match curr with
  | None => Ok (false, curr, prev)
  | Some c =>
    match fuel with
    | O => Fault NonTermination
    | S fuel' =>
      it ← deref h c;
      if decide ((mKeyValuePair it).1 = aKey) then Ok (true, curr, prev)
      else
        _ ← assert (negb (bool_decide (Some c = mNext it)));
        insert_loop fuel' h (mNext it) (Some c) aKey
    end
  end.

(** [const double CAPACITY_THRESHHOLD = 0.4]: the double nearest to four
    tenths, [7205759403792794 * 2^-54]. *)
Definition CAPACITY_THRESHHOLD : double :=
  S754_finite false 7205759403792794 (-54).
Definition RESIZE_MULTIPLE : N := 3.
Definition ADDITIONAL_INCREMENT : N := 5.

(** [static_cast<double>( mNumEntries ) / mSize > CAPACITY_THRESHHOLD]. *)
Definition over_threshold (numEntries size : N) : bool :=
  double_gt (double_div (double_of_size_t numEntries) (double_of_size_t size))
    CAPACITY_THRESHHOLD.

Definition HashMap_insert (this : HashMap_ptr) (m : HashMap)
    (aKeyValuePair : Key * Value) : result (iterator * bool * HashMap) :=
  bucketSpot ← modulo (mHashFunction aKeyValuePair.1) (mSize m);
  head ← vector_at (mBuckets m) bucketSpot;
  '(update, curr, prev) ←
     insert_loop (size (store m)) (store m) head None aKeyValuePair.1;
  if (update : bool) then
    match curr with
    | None => Fault NullDereference
    | Some c =>
      it ← deref (store m) c;
      let h' := <[c := mk_Item ((mKeyValuePair it).1, aKeyValuePair.2) (mNext it)]>
                  (store m) in
      Ok (mk_iterator (curr, bucketSpot) (Some this), true,
          mk_HashMap (mBuckets m) (mSize m) (mNumEntries m) h')
    end
  else
    let newValue := fresh (dom (store m)) in
    let h1 := <[newValue := mk_Item aKeyValuePair None]> (store m) in
    let numEntries := wrap (mNumEntries m + 1) in
    '(buckets, h2) ←
       match prev with
       | None =>
         buckets ← vector_set (mBuckets m) bucketSpot (Some newValue);
         Ok (buckets, h1)
       | Some p =>
         _ ← assert (negb (bool_decide (p = newValue)));
         pit ← deref h1 p;
         Ok (mBuckets m, <[p := mk_Item (mKeyValuePair pit) (Some newValue)]> h1)
       end;
    let m1 := mk_HashMap buckets (mSize m) numEntries h2 in
    m2 ← (if over_threshold numEntries (mSize m)
           then HashMap_resize m1
                  (wrap (wrap (numEntries * RESIZE_MULTIPLE) + ADDITIONAL_INCREMENT))
           else Ok m1);
    Ok (mk_iterator (Some newValue, bucketSpot) (Some this), false, m2).

(** *** begin and the traversal helpers *)

(** [for( unsigned int i = 0; i < mBuckets.size(); i++ ) if( mBuckets[ i ] )
    return ItemPair( mBuckets[ i ].get(), i )], on the slots from position
    [i] on. *)
Fixpoint first_item (buckets : list (option Item_ptr)) (i : N) : option ItemPair :=
  match buckets with
  | [] => None
  | Some p :: _ => Some (Some p, i)
  | None :: buckets' => first_item buckets' (i + 1)%N
  end.

Definition HashMap_getFirstItem (m : HashMap) : result ItemPair :=
  if HashMap_empty m then Ok (None, 0%N)
  else
    match first_item (mBuckets m) 0%N with
    | Some p => Ok p
    | None => Fault AssertionFailure
    end.

Definition HashMap_begin (this : HashMap_ptr) (m : HashMap) : result iterator :=
  itemPair ← HashMap_getFirstItem m;
  Ok (mk_iterator itemPair (Some this)).

(** [getNextItem( const ConstItemPair& ) const]. *)
Definition HashMap_getNextItem (m : HashMap) (aItemPair : ItemPair)
    : result ItemPair :=
  match aItemPair.1 with
  | None => Fault NullDereference
  | Some p =>
    it ← deref (store m) p;
    match mNext it with
    | Some n => Ok (Some n, aItemPair.2)
    | None =>
      let i := wrap (aItemPair.2 + 1) in
      match first_item (drop (N.to_nat i) (mBuckets m)) i with
      | Some q => Ok q
      | None => Ok (None, 0%N)
      end
    end
  end.

(** Modelled from the spec: [HashMap::findNext], which
    [iterator::operator++] calls and which hash_map.h neither declares nor
    defines.  "If the current Entry has a successor in its chain, advance
    to it, same bucket index.  Otherwise scan forward through bucket
    indices greater than the current one until a non-empty bucket is
    found; if none remains, become the end sentinel." *)
Definition HashMap_findNext (m : HashMap) (aItemPair : ItemPair)
    : result ItemPair :=
  match aItemPair.1 with
  | None => Fault NullDereference
  | Some p =>
    it ← deref (store m) p;
    match mNext it with
    | Some n => Ok (Some n, aItemPair.2)
    | None =>
      match list_find (fun ib : N * option Item_ptr =>
                         (aItemPair.2 < ib.1)%N ∧ is_Some ib.2)
              (imap (fun i b => (N.of_nat i, b)) (mBuckets m)) with
      | Some (_, (i, b)) => Ok (b, i)
      | None => Ok (mCurrentItem HashMap_end)
      end
    end
  end.

(** *** The cursors on a table; [m] is the table [mParent] points to *)

(** [iterator::operator*]. *)
Definition iterator_deref (m : HashMap) (it : iterator) : result (Key * Value) :=
  match (mCurrentItem it).1 with
  | None => Fault AssertionFailure
  | Some p => item ← deref (store m) p; Ok (mKeyValuePair item)
  end.

(** [const_iterator::operator*] and [operator->]. *)
Definition const_iterator_deref (m : HashMap) (it : const_iterator)
    : result (Key * Value) :=
  match (const_mCurrentItem it).1 with
  | None => Fault AssertionFailure
  | Some p => item ← deref (store m) p; Ok (mKeyValuePair item)
  end.

(** [iterator::operator++]. *)
Definition iterator_incr (m : HashMap) (it : iterator) : result iterator :=
  match mParent it with
  | None => Fault AssertionFailure
  | Some _ =>
    itemPair ← HashMap_findNext m (mCurrentItem it);
    Ok (mk_iterator itemPair (mParent it))
  end.

(** [const_iterator::operator++]. *)
Definition const_iterator_incr (m : HashMap) (it : const_iterator)
    : result const_iterator :=
  match const_mParent it with
  | None => Fault AssertionFailure
  | Some _ =>
    itemPair ← HashMap_getNextItem m (const_mCurrentItem it);
    Ok (mk_const_iterator itemPair (const_mParent it))
  end.

(** The positions [for( it = first; it != end(); ++it )] visits, in order,
    for either kind of cursor. *)
Fixpoint visit (fuel : nat) (m : HashMap) (it : iterator)
    : result (list ItemPair) :=
  if iterator_eq it HashMap_end then Ok []
  else
    match fuel with
    | O => Fault NonTermination
    | S fuel' =>
      it' ← iterator_incr m it;
      rest ← visit fuel' m it';
      Ok (mCurrentItem it :: rest)
    end.

Fixpoint const_visit (fuel : nat) (m : HashMap) (it : const_iterator)
    : result (list ItemPair) :=
  if const_iterator_eq it HashMap_end_const then Ok []
  else
    match fuel with
    | O => Fault NonTermination
    | S fuel' =>
      it' ← const_iterator_incr m it;
      rest ← const_visit fuel' m it';
      Ok (const_mCurrentItem it :: rest)
    end.

(** A sequence of [insert] calls on one table. *)
Fixpoint insert_all (this : HashMap_ptr) (m : HashMap) (kvs : list (Key * Value))
    : result HashMap :=
  match kvs with
  | [] => Ok m
  | kv :: kvs' =>
    '(_, _, m') ← HashMap_insert this m kv;
    insert_all this m' kvs'
  end.

(** ** The load factor

    The quotient of the number of entries by the number of buckets, as the
    rational number it is. *)
Definition load_factor (numEntries size : N) : Q :=
  Qdiv (inject_Z (Z.of_N numEntries)) (inject_Z (Z.of_N size)).

Definition four_tenths : Q := Qmake 4 10.

(** A positive double of mantissa [m1] and exponent [e1] that is greater
    than [CAPACITY_THRESHHOLD]. *)
Definition above_threshold (m1 e1 : Z) : Prop :=
  (-54 < e1 \/ (e1 = -54 /\ 7205759403792794 < m1))%Z.

(** ** The chains a table stores

    A table state is described by the chains of its buckets: for each
    bucket, in chain order, the address of every item with the key-value
    pair it holds. *)

Local Abbreviation entry := (N * (Key * Value))%type.

Definition chain_head (l : list entry) : option Item_ptr := fst <$> head l.

(** Every item of the chain is in the store with its pair, and its successor
    link is the next item of the chain (null at the last one). *)
Fixpoint linked (h : gmap N Item) (l : list entry) : Prop :=
  match l with
  | [] => True
  | e :: l' => h !! e.1 = Some (mk_Item e.2 (chain_head l')) ∧ linked h l'
  end.

Definition bucket_index (size : N) (e : entry) : N :=
  (mHashFunction e.2.1 mod size)%N.

Record represents (m : HashMap) (cs : list (list entry)) : Prop := {
  rep_size_pos : (0 < mSize m)%N;
  rep_size_fits : (mSize m < SIZE_T_MODULUS)%N;
  rep_length : length cs = N.to_nat (mSize m);
  rep_buckets : mBuckets m = chain_head <$> cs;
  rep_linked : Forall (linked (store m)) cs;
  rep_addresses : NoDup (mjoin cs).*1;
  rep_keys : NoDup (mjoin cs).*2.*1;
  rep_count : mNumEntries m = N.of_nat (length (mjoin cs));
  rep_hash : ∀ j l e, cs !! j = Some l → e ∈ l →
             bucket_index (mSize m) e = N.of_nat j
}.

(** The invariant of the class: the state is that of some chains. *)
Definition wf (m : HashMap) : Prop := ∃ cs, represents m cs.

(** The first entry of a chain with a given key. *)
Fixpoint chain_lookup (k : Key) (l : list entry) : option entry :=
  match l with
  | [] => None
  | e :: l' => if decide (e.2.1 = k) then Some e else chain_lookup k l'
  end.

(** An entry after the value held at address [a] is overwritten. *)
Definition set_value (a : Item_ptr) (v : Value) (e : entry) : entry :=
  if decide (e.1 = a) then (e.1, (e.2.1, v)) else e.

(** The chains after the value held at address [a] is overwritten. *)
Definition overwrite (a : Item_ptr) (v : Value) (cs : list (list entry))
    : list (list entry) :=
  fmap (M := list) (set_value a v) <$> cs.

(** The chains after entry [e] is appended to the chain of bucket [j]. *)
Definition append_entry (j : nat) (e : entry) (cs : list (list entry))
    : list (list entry) :=
  alter (fun l => l ++ [e]) j cs.

(** The chains [resize] builds from the collected entries. *)
Definition rebucket (size : N) (es : list entry) : list (list entry) :=
  (fun j => filter (fun e => bucket_index size e = N.of_nat j) es)
    <$> seq 0 (N.to_nat size).

(** The cursor positions of the entries of the chains [cs], the chains
    being those of the buckets from position [first] on: bucket by bucket
    and, within a bucket, in chain order. *)
Definition positions_from (first : nat) (cs : list (list entry)) : list ItemPair :=
  mjoin (imap (fun i l => (fun e : entry => (Some e.1, N.of_nat (first + i))) <$> l) cs).

Definition positions (cs : list (list entry)) : list ItemPair := positions_from 0 cs.

End HashMap.

Arguments Item : clear implicits.
Arguments HashMap : clear implicits.

(** ** The atom registry *)

Section AtomRegistry.

(** [boost::hash<std::string>]. *)
Variable stringHash : string -> N.

Abbreviation Atom_ptr := N (only parsing).

(** Modelled from the spec: the [Atom] class of atom.h, which is not among
    the sources.  "An identity-bearing object exposing a stable string
    identifier; the registry does not construct or validate Atom contents
    beyond the identifier." *)
Record Atom : Type := mk_Atom { getID : string }.

(** [HashMap<const std::string, boost::shared_ptr<Atom> >]. *)
Abbreviation AtomMap := (HashMap string (option Atom_ptr)) (only parsing).

(** Modelled from the spec: the members of the [AtomRegistry] class of
    atom_registry.h, which is not among the sources, as atom_registry.cpp
    uses them: [mAtoms], here with the table it points to, "a Hash Table
    keyed by string identifier mapping to shared ownership of Atoms", and
    the flag "set true only during its own teardown". *)
Record AtomRegistry : Type := mk_AtomRegistry {
  mAtoms : HashMap_ptr;
  mAtoms_target : AtomMap;
  mIsCurrentlyDeallocating : bool
}.

(** What a call can read and change: the registry, the atoms alive on the
    free store, and what has been written to [cout]. *)
Record World : Type := mk_World {
  registry : AtomRegistry;
  atoms : gmap N Atom;
  cout : list string
}.

(** [AtomRegistry::getInitialSize]: [INITIAL_MAP_SIZE]. *)
Definition getInitialSize : N := 103.

(** [AtomRegistry::AtomRegistry()], the table allocated at [p]. *)
Definition AtomRegistry_new (p : HashMap_ptr) : AtomRegistry :=
  mk_AtomRegistry p (HashMap_new getInitialSize) false.

Definition isCurrentlyDeallocating (r : AtomRegistry) : bool :=
  mIsCurrentlyDeallocating r.

(** [AtomRegistry::findAtom]: the cursor [find] returns is converted to a
    read-only one and compared with [mAtoms->end()]. *)
Definition findAtom (r : AtomRegistry) (aID : string) : result (option Atom_ptr) :=
  found ← HashMap_find stringHash (mAtoms r) (mAtoms_target r) aID;
  let iter := const_iterator_of found in
  if const_iterator_neq iter (const_iterator_of HashMap_end)
  then kv ← const_iterator_deref (mAtoms_target r) iter; Ok kv.2
  else Ok None.

Definition duplicate_atom_message : list string :=
  [ "Error: Attempting to register duplicate atom."%string;
    "This may cause undesired behavior."%string;
    String (Ascii.ascii_of_nat 10) EmptyString ].

(** [registerAtom].  The local [shared_ptr] is the only owner of the atom
    when the function returns [false], so the atom is deleted there; when
    the table holds a copy the atom stays alive. *)
Definition registerAtom (aAtom : option Atom_ptr) (w : World)
    : result (bool * World) :=
  match aAtom with
  | None => Fault AssertionFailure
  | Some a =>
    match atoms w !! a with
    | None => Fault InvalidPointer
    | Some atom =>
      found ← findAtom (registry w) (getID atom);
      if found is Some _ then
        Ok (false,
            mk_World (registry w) (delete a (atoms w))
              (cout w ++ duplicate_atom_message))
      else
        '(_, _, table) ← HashMap_insert stringHash (mAtoms (registry w))
                            (mAtoms_target (registry w)) (getID atom, Some a);
        Ok (true,
            mk_World (mk_AtomRegistry (mAtoms (registry w)) table
                        (mIsCurrentlyDeallocating (registry w)))
              (atoms w) (cout w))
    end
  end.

End AtomRegistry.

(** ** A table of integers

    [boost::hash] of an integer is the integer.  The ten keys are the
    first multiples of 23, which all hash to bucket 0 of a table of
    capacity 23. *)

Definition integer_hash (k : N) : N := wrap k.

Definition multiples_of_23 (count : nat) : list (N * N) :=
  (fun i => (N.of_nat i * 23, N.of_nat i + 100)%N) <$> seq 0 count.

(** The table of capacity 23 after the first [count] multiples of 23 are
    inserted. *)
Definition table_of_multiples (count : nat) : HashMap N N :=
  match insert_all integer_hash 1 (HashMap_new 23) (multiples_of_23 count) with
  | Ok m => m
  | Fault _ => HashMap_new 23
  end.

(** ** A registry with two atoms of one identifier

    A hash of strings, and a program state with an empty registry and two
    atoms, at addresses 1 and 2, that both have the identifier CO2. *)

Definition length_hash (s : string) : N := N.of_nat (String.length s).

Definition two_atoms : World :=
  mk_World (AtomRegistry_new 7)
    (<[2%N := mk_Atom "CO2"]> (<[1%N := mk_Atom "CO2"]> ∅)) [].

(** ** Registered atoms

    An atom is registered when [findAtom] returns it under some
    identifier.  The registry is sound when every atom it returns is alive
    and has the identifier it is returned under. *)

Definition registered (stringHash : string -> N) (w : World) (a : N) : Prop :=
  ∃ aID : string, findAtom stringHash (registry w) aID = Ok (Some a).

Definition registry_sound (stringHash : string -> N) (w : World) : Prop :=
  ∀ (aID : string) (a : N),
    findAtom stringHash (registry w) aID = Ok (Some a) ->
    ∃ atom : Atom, atoms w !! a = Some atom ∧ getID atom = aID.

(** * Facts *)

(** ** Facts about doubles

    The quotient of two integers below [2^32] that is not four tenths is
    further from four tenths than the division rounds, so that the test
    of [insert] is the test [2 * mSize < 5 * mNumEntries]. *)

Section DoubleFacts.

Local Open Scope Z_scope.

Lemma digits2_pos_bounds (p : positive) :
  2 ^ (Zpos (digits2_pos p) - 1) <= Zpos p < 2 ^ Zpos (digits2_pos p).
Proof.
  induction p as [p IH|p IH|]; cbn [digits2_pos].
  - rewrite Pos2Z.inj_succ. replace (Z.succ (Zpos (digits2_pos p)) - 1) with (Z.succ (Zpos (digits2_pos p) - 1)) by lia.
    rewrite !Z.pow_succ_r by lia. lia.
  - rewrite Pos2Z.inj_succ. replace (Z.succ (Zpos (digits2_pos p)) - 1) with (Z.succ (Zpos (digits2_pos p) - 1)) by lia.
    rewrite !Z.pow_succ_r by lia. lia.
  - cbn. lia.
Qed.

Lemma digits2_pos_unique (p : positive) (d : Z) :
  2 ^ (d - 1) <= Zpos p < 2 ^ d -> Zpos (digits2_pos p) = d.
Proof.
  intros [Hlo Hhi]. pose proof (digits2_pos_bounds p) as [Hlo' Hhi'].
  assert (0 < d).
  { destruct (Z_lt_le_dec 0 d) as [|Hd]; [done|].
    assert (2 ^ d <= 2 ^ 0) by (apply Z.pow_le_mono_r; lia). cbn in *. lia. }
  destruct (Z.lt_trichotomy (Zpos (digits2_pos p)) d) as [Hlt|[Heq|Hgt]]; [|done|].
  - assert (2 ^ Zpos (digits2_pos p) <= 2 ^ (d - 1)) by (apply Z.pow_le_mono_r; lia). lia.
  - assert (2 ^ d <= 2 ^ (Zpos (digits2_pos p) - 1)) by (apply Z.pow_le_mono_r; lia). lia.
Qed.

Lemma iter_xO_value (p k : positive) : Zpos (Pos.iter xO p k) = Zpos p * 2 ^ Zpos k.
Proof.
  induction k as [|k IH] using Pos.peano_ind.
  - cbn. lia.
  - rewrite Pos.iter_succ, Pos2Z.inj_succ, Z.pow_succ_r by lia.
    rewrite Pos2Z.inj_xO, IH. lia.
Qed.

Lemma shr_record_of_loc_m (x : Z) (l : location) : shr_m (shr_record_of_loc x l) = x.
Proof. by destruct l as [|[]]. Qed.

Lemma loc_of_shr_record_of_loc (x : Z) (l : location) :
  loc_of_shr_record (shr_record_of_loc x l) = l.
Proof. by destruct l as [|[]]. Qed.

Lemma shr_1_m (x : Z) (l : location) :
  0 < x -> shr_m (shr_1 (shr_record_of_loc x l)) = x / 2.
Proof.
  intros Hx. destruct x as [|[p|p|]|]; try lia.
  - transitivity (Zpos p); [by destruct l as [|[]]|].
    rewrite Pos2Z.inj_xI. apply Z.div_unique with 1; lia.
  - transitivity (Zpos p); [by destruct l as [|[]]|].
    rewrite Pos2Z.inj_xO. apply Z.div_unique with 0; lia.
  - by destruct l as [|[]].
Qed.

Lemma round_nearest_even_bounds (h : Z) (l : location) :
  h <= round_nearest_even h l <= h + 1.
Proof. destruct l as [|[]]; cbn; try case_match; lia. Qed.

Lemma Zdigits2_53 (x : Z) : 2 ^ 52 <= x < 2 ^ 53 -> Zdigits2 x = 53.
Proof.
  intros Hx. destruct x as [|p|p]; try lia. cbn [Zdigits2].
  by apply digits2_pos_unique.
Qed.

Lemma Zdigits2_54 (x : Z) : 2 ^ 53 <= x < 2 ^ 54 -> Zdigits2 x = 54.
Proof.
  intros Hx. destruct x as [|p|p]; try lia. cbn [Zdigits2].
  by apply digits2_pos_unique.
Qed.

Lemma shr_fexp_53 (x e : Z) (l : location) :
  2 ^ 52 <= x < 2 ^ 53 -> -1074 <= e ->
  shr_fexp 53 1024 x e l = (shr_record_of_loc x l, e).
Proof.
  intros Hx He. unfold shr_fexp. rewrite Zdigits2_53 by done.
  replace (fexp 53 1024 (53 + e) - e) with 0 by (unfold fexp, emin; lia). done.
Qed.

Lemma shr_fexp_54 (x e : Z) (l : location) :
  2 ^ 53 <= x < 2 ^ 54 -> -1075 <= e ->
  shr_fexp 53 1024 x e l = (shr_1 (shr_record_of_loc x l), e + 1).
Proof.
  intros Hx He. unfold shr_fexp. rewrite Zdigits2_54 by done.
  replace (fexp 53 1024 (54 + e) - e) with 1 by (unfold fexp, emin; lia). done.
Qed.

Lemma SFltb_threshold (m : positive) (e : Z) :
  SFltb CAPACITY_THRESHHOLD (S754_finite false m e) = true <-> above_threshold (Zpos m) e.
Proof.
  unfold SFltb, SFcompare, CAPACITY_THRESHHOLD, above_threshold.
  change (Pos.compare_cont Eq ?x ?y) with (Pos.compare x y).
  destruct (Z.compare_spec (-54) e) as [He|He|He].
  - destruct (Pos.compare_spec 7205759403792794 m) as [Hm|Hm|Hm].
    + split; [intros [=]|intros; exfalso; lia].
    + split; [lia|reflexivity].
    + apply Pos2Z.pos_lt_pos in Hm. split; [intros [=]|intros; exfalso; lia].
  - split; [lia|reflexivity].
  - split; [intros [=]|intros; exfalso; lia].
Qed.

(** The second half of [binary_round_aux]: the rounded mantissa is
    renormalised when rounding carried into the next binade. *)
Lemma round_finish (h m1 e1 : Z) :
  2 ^ 52 <= h < 2 ^ 53 -> h <= m1 <= h + 1 -> -1074 <= e1 <= 970 ->
  SFltb CAPACITY_THRESHHOLD
    (let '(mrs, e2) := shr_fexp 53 1024 m1 e1 loc_Exact in
     match shr_m mrs with
     | Z0 => S754_zero false
     | Zpos m => if Z.leb e2 (1024 - 53) then S754_finite false m e2 else S754_infinity false
     | Zneg _ => S754_nan
     end) = true <-> above_threshold m1 e1.
Proof.
  intros Hh Hm He. destruct (Z_lt_le_dec m1 (2 ^ 53)) as [Hlt|Hge].
  - rewrite shr_fexp_53 by lia. cbn [shr_record_of_loc shr_m].
    destruct m1 as [|p|p]; try lia.
    replace (e1 <=? 1024 - 53) with true by lia. apply SFltb_threshold.
  - assert (m1 = 2 ^ 53) as -> by lia.
    rewrite shr_fexp_54 by lia.
    change (shr_m (shr_1 (shr_record_of_loc (2 ^ 53) loc_Exact))) with (2 ^ 52).
    change (2 ^ 52) with (Zpos 4503599627370496).
    cbv iota beta.
    replace (e1 + 1 <=? 1024 - 53) with true by lia. rewrite SFltb_threshold.
    unfold above_threshold. lia.
Qed.

Lemma round_aux_53 (q e : Z) (l : location) :
  2 ^ 52 <= q < 2 ^ 53 -> -1074 <= e <= 970 ->
  SFltb CAPACITY_THRESHHOLD (binary_round_aux 53 1024 false q e l) = true <->
  above_threshold (round_nearest_even q l) e.
Proof.
  intros Hq He. unfold binary_round_aux. rewrite shr_fexp_53 by lia.
  rewrite shr_record_of_loc_m, loc_of_shr_record_of_loc.
  apply (round_finish q); [done| |done]. apply round_nearest_even_bounds.
Qed.

Lemma round_aux_54 (q e : Z) (l : location) :
  2 ^ 53 <= q < 2 ^ 54 -> -1075 <= e <= 969 ->
  exists l', SFltb CAPACITY_THRESHHOLD (binary_round_aux 53 1024 false q e l) = true <->
  above_threshold (round_nearest_even (q / 2) l') (e + 1).
Proof.
  intros Hq He. unfold binary_round_aux. rewrite shr_fexp_54 by lia.
  rewrite shr_1_m by lia. eexists.
  apply (round_finish (q / 2)); [|apply round_nearest_even_bounds|lia].
  split; [apply Z.div_le_lower_bound|apply Z.div_lt_upper_bound]; lia.
Qed.

Lemma binary_round_aux_exact (m : positive) (e : Z) :
  2 ^ 52 <= Zpos m < 2 ^ 53 -> -1074 <= e <= 970 ->
  binary_round_aux 53 1024 false (Zpos m) e loc_Exact = S754_finite false m e.
Proof.
  intros Hm He. unfold binary_round_aux. rewrite shr_fexp_53 by lia.
  cbn [shr_record_of_loc shr_m loc_of_shr_record round_nearest_even].
  rewrite shr_fexp_53 by lia. cbn [shr_record_of_loc shr_m].
  by replace (e <=? 1024 - 53) with true by lia.
Qed.

(** Conversion of a positive 32-bit integer is exact: the integer is
    shifted left until its leading bit is bit 52. *)
Lemma double_of_positive (p : positive) :
  Zpos p < 2 ^ 32 ->
  exists m : positive,
    binary_normalize 53 1024 (Zpos p) 0 false
      = S754_finite false m (Zpos (digits2_pos p) - 53) /\
    Zpos m = Zpos p * 2 ^ (53 - Zpos (digits2_pos p)) /\
    2 ^ 52 <= Zpos m < 2 ^ 53 /\
    1 <= Zpos (digits2_pos p) <= 32.
Proof.
  intros Hp. pose proof (digits2_pos_bounds p) as [Hlo Hhi].
  set (d := Zpos (digits2_pos p)) in *.
  assert (1 <= d <= 32) as Hd.
  { split; [lia|]. destruct (Z_le_gt_dec d 32) as [|Hgt]; [lia|].
    assert (2 ^ 32 <= 2 ^ (d - 1)) by (apply Z.pow_le_mono_r; lia). lia. }
  set (k := Z.to_pos (53 - d)).
  assert (Zpos k = 53 - d) as Hk by (unfold k; lia).
  clearbody k.
  exists (Pos.iter xO p k).
  assert (Zpos (Pos.iter xO p k) = Zpos p * 2 ^ (53 - d)) as Hval
    by (rewrite iter_xO_value, Hk; done).
  assert (2 ^ 52 <= Zpos (Pos.iter xO p k) < 2 ^ 53) as Hrange.
  { rewrite Hval.
    replace (2 ^ 52) with (2 ^ (d - 1) * 2 ^ (53 - d))
      by (rewrite <- Z.pow_add_r by lia; f_equal; lia).
    replace (2 ^ 53) with (2 ^ d * 2 ^ (53 - d))
      by (rewrite <- Z.pow_add_r by lia; f_equal; lia).
    assert (0 < 2 ^ (53 - d)) by (apply Z.pow_pos_nonneg; lia).
    split; [apply Z.mul_le_mono_nonneg_r|apply Z.mul_lt_mono_pos_r]; lia. }
  split; [|done].
  unfold binary_normalize, binary_round, shl_align.
  replace (fexp 53 1024 (Zpos (digits2_pos p) + 0)) with (Zneg k)
    by (fold d; unfold fexp, emin; lia).
  change (Z.neg k - 0) with (Z.neg k). cbv iota beta.
  change (PosDef.Pos.iter xO p k) with (Pos.iter xO p k).
  rewrite binary_round_aux_exact by lia.
  f_equal. lia.
Qed.

Lemma SFdiv_normal (a b : positive) (ea eb : Z) :
  2 ^ 52 <= Zpos a < 2 ^ 53 -> 2 ^ 52 <= Zpos b < 2 ^ 53 -> -1021 <= ea - eb ->
  SFdiv 53 1024 (S754_finite false a ea) (S754_finite false b eb)
  = binary_round_aux 53 1024 false (Zpos a * 2 ^ 53 / Zpos b) (ea - eb - 53)
      (new_location (Zpos b) ((Zpos a * 2 ^ 53) mod Zpos b)).
Proof.
  intros Ha Hb He. unfold SFdiv, SFdiv_core_binary.
  rewrite !Zdigits2_53 by done.
  replace (Z.min (fexp 53 1024 (53 + ea - (53 + eb))) (ea - eb)) with (ea - eb - 53)
    by (unfold fexp, emin; lia).
  replace (ea - eb - (ea - eb - 53)) with 53 by lia.
  cbv iota. rewrite Z.shiftl_mul_pow2 by lia.
  unfold Z.div, Z.modulo. by destruct (Z.div_eucl _ _).
Qed.

Lemma threshold_quotient (n s : Z) :
  0 < n -> 0 < s < 2 ^ 32 ->
  (2 * s < 5 * n -> 7205759403792794 < n * 2 ^ 54 / s) /\
  (5 * n <= 2 * s -> n * 2 ^ 54 / s < 7205759403792794).
Proof.
  intros Hn Hs. split; intros H.
  - apply Z.lt_le_trans with 7205759403792795; [lia|].
    apply Z.div_le_lower_bound; lia.
  - apply Z.div_lt_upper_bound; lia.
Qed.

Lemma quotient_range (a b : Z) :
  2 ^ 52 <= a < 2 ^ 53 -> 2 ^ 52 <= b < 2 ^ 53 ->
  (a < b -> 2 ^ 52 <= a * 2 ^ 53 / b < 2 ^ 53) /\
  (b <= a -> 2 ^ 53 <= a * 2 ^ 53 / b < 2 ^ 54).
Proof.
  intros Ha Hb.
  split; intros Hab; (split; [apply Z.div_le_lower_bound|apply Z.div_lt_upper_bound]); lia.
Qed.

(** The quotient of two normalised doubles against the threshold, by
    the difference [k] of the operands' exponents. *)
Lemma SFdiv_above_threshold (a b : positive) (ea eb : Z) :
  2 ^ 52 <= Zpos a < 2 ^ 53 -> 2 ^ 52 <= Zpos b < 2 ^ 53 -> -1000 <= ea - eb <= 1000 ->
  exists l,
    SFltb CAPACITY_THRESHHOLD
      (SFdiv 53 1024 (S754_finite false a ea) (S754_finite false b eb)) = true <->
    if Z.ltb (Zpos a) (Zpos b)
    then above_threshold (round_nearest_even (Zpos a * 2 ^ 53 / Zpos b) l) (ea - eb - 53)
    else above_threshold (round_nearest_even (Zpos a * 2 ^ 53 / Zpos b / 2) l) (ea - eb - 52).
Proof.
  intros Ha Hb He. rewrite SFdiv_normal by lia.
  destruct (quotient_range (Zpos a) (Zpos b) Ha Hb) as [Hlt Hge].
  destruct (Z.ltb_spec (Zpos a) (Zpos b)) as [Hab|Hab].
  - eexists. apply round_aux_53; [by apply Hlt|lia].
  - edestruct (round_aux_54 (Zpos a * 2 ^ 53 / Zpos b) (ea - eb - 53)) as [l' Hl'];
      [by apply Hge|lia|].
    exists l'. rewrite Hl'. by replace (ea - eb - 53 + 1) with (ea - eb - 52) by lia.
Qed.

Lemma over_threshold_positive (pn ps : positive) :
  Zpos pn < 2 ^ 32 -> Zpos ps < 2 ^ 32 ->
  SFltb CAPACITY_THRESHHOLD
    (SFdiv 53 1024 (binary_normalize 53 1024 (Zpos pn) 0 false)
       (binary_normalize 53 1024 (Zpos ps) 0 false)) = true <->
  2 * Zpos ps < 5 * Zpos pn.
Proof.
  intros Hn Hs.
  destruct (double_of_positive pn Hn) as (a & -> & Ha & Har & Hdn).
  destruct (double_of_positive ps Hs) as (b & -> & Hb & Hbr & Hds).
  pose proof (digits2_pos_bounds pn) as [Hnlo Hnhi].
  pose proof (digits2_pos_bounds ps) as [Hslo Hshi].
  set (n := Zpos pn) in *. set (s := Zpos ps) in *.
  assert (0 < n) as Hn0 by done. assert (0 < s) as Hs0 by done.
  set (dn := Zpos (digits2_pos pn)) in *. set (ds := Zpos (digits2_pos ps)) in *.
  clearbody n s dn ds.
  edestruct (SFdiv_above_threshold a b (dn - 53) (ds - 53)) as [l ->]; [done|done|lia|].
  replace (dn - 53 - (ds - 53) - 53) with (dn - ds - 53) by lia.
  replace (dn - 53 - (ds - 53) - 52) with (dn - ds - 52) by lia.
  set (V := 2 ^ (53 - ds)) in *.
  assert (0 < V) as HV by (apply Z.pow_pos_nonneg; lia).
  unfold above_threshold.
  assert (0 <= dn - ds \/ dn - ds = -1 \/ dn - ds = -2 \/ dn - ds <= -3)
    as [Hk|[Hk|[Hk|Hk]]] by lia.
  - assert (2 ^ ds <= 2 ^ dn) by (apply Z.pow_le_mono_r; lia).
    assert (2 ^ dn = 2 * 2 ^ (dn - 1))
      by (rewrite <- Z.pow_succ_r by lia; f_equal; lia).
    case_match; split; intros _; lia.
  - assert (2 ^ (53 - dn) = 2 * V) as HU
      by (unfold V; rewrite <- Z.pow_succ_r by lia; f_equal; lia).
    rewrite HU in Ha.
    assert (Zpos a * 2 ^ 53 / Zpos b = n * 2 ^ 54 / s) as Hq.
    { rewrite Ha, Hb. replace (n * (2 * V) * 2 ^ 53) with (n * 2 ^ 54 * V) by lia.
      apply Z.div_mul_cancel_r; lia. }
    destruct (threshold_quotient n s) as [Hup Hdown]; [done|lia|].
    pose proof (round_nearest_even_bounds (n * 2 ^ 54 / s) l).
    destruct (Z.ltb_spec (Zpos a) (Zpos b)) as [Hab|Hab].
    + rewrite Hq. split; [|lia]. intros Habove.
      destruct (Z_lt_le_dec (2 * s) (5 * n)) as [|Hle]; [done|].
      specialize (Hdown Hle). lia.
    + assert (s <= 2 * n) by nia. split; lia.
  - assert (2 ^ (53 - dn) = 4 * V) as HU.
    { unfold V. replace (53 - dn) with (Z.succ (Z.succ (53 - ds))) by lia.
      rewrite !Z.pow_succ_r by lia. lia. }
    rewrite HU in Ha.
    assert (Zpos a * 2 ^ 53 / Zpos b / 2 = n * 2 ^ 54 / s) as Hq.
    { rewrite Ha, Hb. replace (n * (4 * V) * 2 ^ 53) with (n * 2 ^ 55 * V) by lia.
      rewrite Z.div_mul_cancel_r by lia. rewrite Z.div_div by lia.
      replace (n * 2 ^ 55) with (n * 2 ^ 54 * 2) by lia.
      apply Z.div_mul_cancel_r; lia. }
    destruct (threshold_quotient n s) as [Hup Hdown]; [done|lia|].
    pose proof (round_nearest_even_bounds (n * 2 ^ 54 / s) l).
    destruct (Z.ltb_spec (Zpos a) (Zpos b)) as [Hab|Hab].
    + assert (4 * n < s) by nia. split; lia.
    + rewrite Hq. split; [|lia]. intros Habove.
      destruct (Z_lt_le_dec (2 * s) (5 * n)) as [|Hle]; [done|].
      specialize (Hdown Hle). lia.
  - assert (2 ^ (dn + 2) <= 2 ^ (ds - 1)) by (apply Z.pow_le_mono_r; lia).
    assert (2 ^ (dn + 2) = 4 * 2 ^ dn).
    { replace (dn + 2) with (Z.succ (Z.succ dn)) by lia.
      rewrite !Z.pow_succ_r by lia. lia. }
    case_match; split; lia.
Qed.

(** [CAPACITY_THRESHHOLD] is the quotient of 4 by 10, correctly rounded. *)
Lemma CAPACITY_THRESHHOLD_rounded :
  CAPACITY_THRESHHOLD = double_div (double_of_size_t 4) (double_of_size_t 10).
Proof. vm_compute. reflexivity. Qed.

(** The test on the doubles decides as the comparison of the exact
    quotient with four tenths does. *)
Lemma over_threshold_iff (n s : N) :
  (n < SIZE_T_MODULUS)%N -> (0 < s < SIZE_T_MODULUS)%N ->
  over_threshold n s = true <-> (2 * s < 5 * n)%N.
Proof.
  unfold SIZE_T_MODULUS. intros Hn Hs.
  unfold over_threshold, double_gt, double_div, double_of_size_t.
  destruct s as [|ps]; [lia|]. destruct n as [|pn].
  - destruct (double_of_positive ps) as (b & Hb & _); [lia|].
    cbn [Z.of_N]. rewrite Hb. split; [intros [=]|lia].
  - cbn [Z.of_N]. rewrite over_threshold_positive by lia. lia.
Qed.

End DoubleFacts.

Section HashMapFacts.

Context {Key Value : Type} `{EqDecision Key}.
Variable mHashFunction : Key -> N.

Implicit Types (h : gmap N (Item Key Value)) (m : HashMap Key Value).
Local Abbreviation entry := (N * (Key * Value))%type.
Implicit Types (l es : list entry) (e : entry) (cs : list (list entry)).

Lemma modulo_Ok (a b : N) : b ≠ 0%N -> modulo a b = Ok (a mod b)%N.
Proof. intros Hb. unfold modulo. destruct (N.eqb_spec b 0); [done | done]. Qed.

Lemma vector_at_Ok {A : Type} (v : list A) (i : N) (x : A) :
  v !! N.to_nat i = Some x -> vector_at v i = Ok x.
Proof. intros Hx. unfold vector_at. by rewrite Hx. Qed.

Lemma vector_set_Ok {A : Type} (v : list A) (i : N) (x : A) :
  N.to_nat i < length v -> vector_set v i x = Ok (<[N.to_nat i := x]> v).
Proof. intros Hi. unfold vector_set. by rewrite decide_True. Qed.

Lemma wrap_small (n : N) : (n < SIZE_T_MODULUS)%N -> wrap n = n.
Proof. intros Hn. unfold wrap. by apply N.mod_small. Qed.

(** *** Chains in the store *)

Lemma chain_head_elem l p : chain_head l = Some p -> p ∈ l.*1.
Proof.
  destruct l as [|e l]; [done|]. cbn. intros [= <-]. apply list_elem_of_here.
Qed.

Lemma linked_lookup h l e :
  linked h l -> e ∈ l -> ∃ n, h !! e.1 = Some (mk_Item e.2 n).
Proof.
  induction l as [|e' l IH]; intros Hl He; [by apply elem_of_nil in He|].
  destruct Hl as [Hh Hl]. apply elem_of_cons in He as [->|He]; eauto.
Qed.

Lemma linked_app_l h l1 l2 : linked h (l1 ++ l2) -> linked h l2.
Proof.
  induction l1 as [|e l1 IH]; [done|]. intros [_ Hl]. auto.
Qed.

Lemma linked_untouched h l a x :
  a ∉ l.*1 -> linked h l -> linked (<[a := x]> h) l.
Proof.
  induction l as [|e l IH]; [done|]. cbn. intros Ha [Hh Hl].
  apply not_elem_of_cons in Ha as [Hne Ha]. split; [|auto].
  by rewrite lookup_insert_ne.
Qed.

Lemma linked_dom h l : linked h l -> list_to_set l.*1 ⊆ dom h.
Proof.
  induction l as [|e l IH]; cbn; [set_solver|]. intros [Hh Hl].
  apply union_least; [|auto]. apply singleton_subseteq_l, elem_of_dom. eauto.
Qed.

(** A chain has no more items than the store holds, so a loop with one
    unit of fuel per stored item walks any chain to its end. *)
Lemma linked_length h l : linked h l -> NoDup l.*1 -> length l ≤ size h.
Proof.
  intros Hl Hnd. rewrite <- (length_fmap fst l).
  rewrite <- (size_list_to_set (C:=gset N)) by done.
  rewrite <- size_dom. apply subseteq_size, linked_dom, Hl.
Qed.

Lemma linked_set_value h l a it v :
  h !! a = Some it ->
  linked h l ->
  linked (<[a := mk_Item ((mKeyValuePair it).1, v) (mNext it)]> h)
         (set_value a v <$> l).
Proof.
  intros Ha. induction l as [|e l IH]; [done|]. cbn. intros [Hh Hl].
  assert (chain_head (set_value a v <$> l) = chain_head l) as ->.
  { destruct l as [|e' l']; [done|]. cbn. unfold set_value. by case_decide. }
  split; [|auto]. unfold set_value. case_decide as Hea.
  - subst a. cbn. rewrite lookup_insert_eq. rewrite Hh in Ha. by injection Ha as <-.
  - by rewrite lookup_insert_ne.
Qed.

Lemma linked_snoc h l t a kv :
  linked h l -> NoDup l.*1 -> a ∉ l.*1 -> last l = Some t ->
  linked (<[t.1 := mk_Item t.2 (Some a)]> (<[a := mk_Item kv None]> h))
         (l ++ [(a, kv)]).
Proof.
  induction l as [|e l IH]; [done|]. cbn [linked fmap list_fmap app].
  intros [Hh Hl] Hnd Ha Ht. apply NoDup_cons in Hnd as [He Hnd].
  apply not_elem_of_cons in Ha as [Hae Ha].
  destruct l as [|e' l'].
  - injection Ht as <-. cbn. rewrite lookup_insert_eq.
    rewrite lookup_insert_ne, lookup_insert_eq; done.
  - rewrite last_cons_cons in Ht. split; [|by apply IH].
    assert (t ∈ e' :: l') as Hin by (by apply last_Some_elem_of).
    assert (e.1 ≠ t.1) as Hne.
    { intros Heq. apply He. rewrite Heq. by apply list_elem_of_fmap_2. }
    rewrite !lookup_insert_ne by done. done.
Qed.

Lemma linked_singleton h a kv : linked (<[a := mk_Item kv None]> h) [(a, kv)].
Proof. cbn. by rewrite lookup_insert_eq. Qed.

(** *** The loops on a chain *)

Lemma chain_lookup_Some k l e :
  chain_lookup k l = Some e -> e ∈ l ∧ e.2.1 = k.
Proof.
  induction l as [|e' l IH]; [done|]. cbn. case_decide.
  - intros [= ->]. split; [apply list_elem_of_here | done].
  - intros He. destruct (IH He). split; [by apply list_elem_of_further | done].
Qed.

Lemma chain_lookup_None k l :
  chain_lookup k l = None <-> k ∉ l.*2.*1.
Proof.
  induction l as [|e l IH]; cbn.
  - split; [intros _; apply not_elem_of_nil | done].
  - case_decide as Hk.
    + split; [done|]. intros Hn. exfalso. apply Hn. rewrite <- Hk. apply list_elem_of_here.
    + rewrite IH, not_elem_of_cons. split; [by intros ? | by intros [_ ?]].
Qed.

Lemma chain_lookup_unique k l e :
  NoDup l.*2.*1 -> e ∈ l -> e.2.1 = k -> chain_lookup k l = Some e.
Proof.
  induction l as [|e' l IH]; [by intros _ ?%elem_of_nil|]. cbn.
  intros [Hn Hnd]%NoDup_cons [->|He]%elem_of_cons Hk.
  - by rewrite decide_True.
  - rewrite decide_False; [auto|]. intros Heq. apply Hn. rewrite Heq, <- Hk.
    by apply list_elem_of_fmap_2, list_elem_of_fmap_2.
Qed.

Lemma linked_no_self_loop h l e :
  NoDup (e :: l).*1 -> Some e.1 ≠ chain_head l.
Proof.
  cbn. intros [Hn _]%NoDup_cons Heq. apply Hn. by apply chain_head_elem.
Qed.

Lemma find_loop_spec fuel h l k b this :
  linked h l -> length l ≤ fuel ->
  find_loop fuel h (chain_head l) k b this
  = Ok (match chain_lookup k l with
        | Some e => mk_iterator (Some e.1, b) (Some this)
        | None => HashMap_end
        end).
Proof.
  revert fuel. induction l as [|e l IH]; intros fuel Hl Hf.
  - by destruct fuel.
  - destruct fuel as [|fuel]; [cbn in Hf; lia|]. destruct Hl as [Hh Hl].
    cbn. unfold deref. rewrite Hh. cbn. case_decide; [done|].
    apply IH; [done | cbn in Hf; lia].
Qed.

Lemma insert_loop_found fuel h l k e prev :
  linked h l -> NoDup l.*1 -> length l ≤ fuel ->
  chain_lookup k l = Some e ->
  ∃ prev', insert_loop fuel h (chain_head l) prev k = Ok (true, Some e.1, prev').
Proof.
  revert fuel prev. induction l as [|e' l IH]; intros fuel prev Hl Hnd Hf Hk; [done|].
  destruct fuel as [|fuel]; [cbn in Hf; lia|]. destruct Hl as [Hh Hl].
  cbn in Hk |- *. unfold deref. rewrite Hh. cbn. case_decide.
  - injection Hk as <-. eauto.
  - rewrite bool_decide_eq_false_2 by (by apply linked_no_self_loop).
    cbn. apply IH; [done | by apply NoDup_cons in Hnd as [_ ?] | cbn in Hf; lia | done].
Qed.

Lemma insert_loop_not_found fuel h l k prev :
  linked h l -> NoDup l.*1 -> length l ≤ fuel ->
  chain_lookup k l = None ->
  insert_loop fuel h (chain_head l) prev k
  = Ok (false, None, match last l with Some t => Some t.1 | None => prev end).
Proof.
  revert fuel prev. induction l as [|e' l IH]; intros fuel prev Hl Hnd Hf Hk.
  - by destruct fuel.
  - destruct fuel as [|fuel]; [cbn in Hf; lia|]. destruct Hl as [Hh Hl].
    cbn in Hk |- *. unfold deref. rewrite Hh. cbn. case_decide; [done|].
    rewrite bool_decide_eq_false_2 by (by apply linked_no_self_loop).
    apply NoDup_cons in Hnd as [_ Hnd]. cbn in Hf.
    cbn. rewrite (IH fuel (Some e'.1)) by (done || lia).
    destruct l as [|e'' l']; [reflexivity|]. rewrite last_cons_cons.
    destruct (last (e'' :: l')) eqn:Hlast; [reflexivity|].
    by apply last_None in Hlast.
Qed.

Lemma collect_chain_spec fuel h l tmp :
  linked h l -> NoDup l.*1 -> length l ≤ fuel ->
  collect_chain fuel h (chain_head l) tmp = Ok (tmp ++ l.*1).
Proof.
  revert fuel tmp. induction l as [|e l IH]; intros fuel tmp Hl Hnd Hf.
  - destruct fuel; cbn; by rewrite app_nil_r.
  - destruct fuel as [|fuel]; [cbn in Hf; lia|]. destruct Hl as [Hh Hl].
    cbn. unfold deref. rewrite Hh. cbn.
    rewrite bool_decide_eq_false_2 by (by apply linked_no_self_loop).
    apply NoDup_cons in Hnd as [_ Hnd]. cbn in Hf.
    cbn. rewrite IH by (done || lia). by rewrite <- app_assoc.
Qed.

Lemma last_of_chain_spec fuel h l e t :
  linked h (e :: l) -> NoDup (e :: l).*1 -> length (e :: l) ≤ fuel ->
  last (e :: l) = Some t ->
  last_of_chain fuel h e.1 = Ok t.1.
Proof.
  revert fuel e. induction l as [|e' l IH]; intros fuel e Hl Hnd Hf Ht.
  - destruct fuel as [|fuel]; [cbn in Hf; lia|]. destruct Hl as [Hh _].
    injection Ht as <-. cbn. unfold deref. by rewrite Hh.
  - destruct fuel as [|fuel]; [cbn in Hf; lia|]. destruct Hl as [Hh Hl].
    rewrite last_cons_cons in Ht.
    cbn. unfold deref. rewrite Hh. cbn.
    rewrite bool_decide_eq_false_2.
    2:{ intros Heq. apply (linked_no_self_loop h (e' :: l) e Hnd). cbn. by rewrite Heq. }
    cbn. apply IH; [done | by apply NoDup_cons in Hnd as [_ ?] | cbn in Hf |- *; lia | done].
Qed.

(** *** Lists of chains *)

Lemma chains_split cs j l :
  cs !! j = Some l -> ∃ cs1 cs2, cs = cs1 ++ l :: cs2 ∧ length cs1 = j.
Proof.
  intros Hj. apply list_elem_of_split_length in Hj as (cs1 & cs2 & -> & ->). eauto.
Qed.

Lemma chain_in_table cs j l e : cs !! j = Some l -> e ∈ l -> e ∈ mjoin cs.
Proof.
  intros Hj He. apply list_elem_of_join. exists l. split; [done|].
  by eapply list_elem_of_lookup_2.
Qed.

Lemma chain_NoDup {B : Type} (f : entry -> B) cs j l :
  NoDup (f <$> mjoin cs) -> cs !! j = Some l -> NoDup (f <$> l).
Proof.
  intros Hnd (cs1 & cs2 & -> & _)%chains_split.
  rewrite join_app in Hnd. cbn in Hnd. rewrite !fmap_app in Hnd.
  apply NoDup_app in Hnd as (_ & _ & Hnd). by apply NoDup_app in Hnd as (Hnd & _ & _).
Qed.

Lemma append_entry_lookup cs j l e :
  cs !! j = Some l -> append_entry j e cs !! j = Some (l ++ [e]).
Proof. intros Hj. unfold append_entry. by rewrite list_lookup_alter_eq, Hj. Qed.

Lemma append_entry_lookup_ne cs j j' e :
  j ≠ j' -> append_entry j e cs !! j' = cs !! j'.
Proof. intros Hj. unfold append_entry. by rewrite list_lookup_alter_ne. Qed.

Lemma append_entry_length cs j e : length (append_entry j e cs) = length cs.
Proof. apply length_alter. Qed.

Lemma append_entry_split cs1 l cs2 e :
  append_entry (length cs1) e (cs1 ++ l :: cs2) = cs1 ++ (l ++ [e]) :: cs2.
Proof.
  unfold append_entry. induction cs1 as [|c cs1 IH]; [done|].
  cbn. f_equal. apply IH.
Qed.

Lemma append_entry_join cs j e :
  j < length cs -> mjoin (append_entry j e cs) ≡ₚ mjoin cs ++ [e].
Proof.
  intros Hj. destruct (lookup_lt_is_Some_2 cs j Hj) as [l Hl].
  apply chains_split in Hl as (cs1 & cs2 & -> & <-).
  rewrite append_entry_split, !join_app. cbn.
  rewrite <- !app_assoc. do 2 f_equiv. apply Permutation_app_comm.
Qed.

Lemma append_entry_heads cs j l e :
  cs !! j = Some l ->
  chain_head <$> append_entry j e cs
  = match l with
    | [] => <[j := Some e.1]> (chain_head <$> cs)
    | _ :: _ => chain_head <$> cs
    end.
Proof.
  intros (cs1 & cs2 & -> & <-)%chains_split.
  rewrite append_entry_split, !fmap_app. cbn.
  destruct l as [|e' l'].
  - replace (length cs1) with (length (chain_head <$> cs1) + 0)
      by (rewrite length_fmap; lia).
    by rewrite insert_app_r.
  - done.
Qed.

Lemma append_entry_linked h cs j l e :
  Forall (linked h) cs -> NoDup (mjoin cs).*1 -> e.1 ∉ (mjoin cs).*1 ->
  cs !! j = Some l ->
  Forall (linked (match last l with
                  | Some t => <[t.1 := mk_Item t.2 (Some e.1)]>
                                (<[e.1 := mk_Item e.2 None]> h)
                  | None => <[e.1 := mk_Item e.2 None]> h
                  end))
         (append_entry j e cs).
Proof.
  intros Hl Hnd He Hj. apply Forall_lookup. intros j' l' Hj'.
  rewrite Forall_lookup in Hl.
  assert (∀ i c, cs !! i = Some c -> e.1 ∉ c.*1) as Hfresh.
  { intros i c Hc Hin. apply He. apply list_elem_of_fmap in Hin as (x & -> & Hx).
    apply list_elem_of_fmap_2. by eapply chain_in_table. }
  destruct (decide (j = j')) as [<-|Hne].
  - rewrite (append_entry_lookup _ _ _ _ Hj) in Hj'. injection Hj' as <-.
    destruct (last l) as [t|] eqn:Hlast.
    + destruct e as [a kv]. apply linked_snoc; eauto using chain_NoDup.
    + apply last_None in Hlast as ->. destruct e as [a kv]. apply linked_singleton.
  - rewrite append_entry_lookup_ne in Hj' by done.
    assert (linked (<[e.1 := mk_Item e.2 None]> h) l') as Hl'.
    { apply linked_untouched; eauto. }
    destruct (last l) as [t|] eqn:Hlast; [|done].
    apply linked_untouched; [|done].
    intros Hin. apply list_elem_of_fmap in Hin as (x & Htx & Hx).
    apply last_Some_elem_of in Hlast.
    apply chains_split in Hj as (cs1 & cs2 & -> & <-).
    rewrite join_app in Hnd. cbn in Hnd. rewrite !fmap_app in Hnd.
    apply NoDup_app in Hnd as (_ & Hd1 & Hnd).
    apply NoDup_app in Hnd as (_ & Hd2 & _).
    destruct (decide (j' < length cs1)) as [Hlt|Hge].
    * rewrite lookup_app_l in Hj' by done.
      apply (Hd1 t.1).
      -- rewrite Htx. apply list_elem_of_fmap_2. by eapply chain_in_table.
      -- apply elem_of_app. left. by apply list_elem_of_fmap_2.
    * rewrite lookup_app_r in Hj' by lia.
      destruct (j' - length cs1) as [|i] eqn:Hi; [lia|]. cbn in Hj'.
      apply (Hd2 t.1); [by apply list_elem_of_fmap_2|].
      rewrite Htx. apply list_elem_of_fmap_2. by eapply chain_in_table.
Qed.

(** *** What a represented table holds *)

Lemma represents_new (aSize : N) :
  (0 < aSize)%N -> (aSize < SIZE_T_MODULUS)%N ->
  represents mHashFunction (HashMap_new aSize : HashMap Key Value)
    (replicate (N.to_nat aSize) []).
Proof.
  intros Hpos Hfit.
  assert (mjoin (replicate (N.to_nat aSize) ([] : list entry)) = []) as Hjoin.
  { induction (N.to_nat aSize) as [|n IH]; [done|]. apply IH. }
  split; cbn; rewrite ?Hjoin; try done.
  - by rewrite length_replicate.
  - by rewrite fmap_replicate.
  - apply Forall_forall. by intros l ->%elem_of_replicate_inv.
  - apply NoDup_nil_2.
  - apply NoDup_nil_2.
  - intros j l e [-> _]%lookup_replicate_1 He. by apply elem_of_nil in He.
Qed.

Section represented.

Variables (m : HashMap Key Value) (cs : list (list entry)).
Hypothesis Hrep : represents mHashFunction m cs.

Lemma rep_size_nonzero : mSize m ≠ 0%N.
Proof. pose proof (rep_size_pos _ _ _ Hrep). lia. Qed.

Lemma rep_bucket_in_range (k : Key) :
  N.to_nat (mHashFunction k mod mSize m) < length cs.
Proof.
  rewrite (rep_length _ _ _ Hrep).
  pose proof (N.mod_lt (mHashFunction k) (mSize m) rep_size_nonzero). lia.
Qed.

Lemma rep_chain_of_key (k : Key) :
  ∃ l, cs !! N.to_nat (mHashFunction k mod mSize m) = Some l.
Proof. apply lookup_lt_is_Some_2, rep_bucket_in_range. Qed.

Lemma rep_bucket j l :
  cs !! j = Some l -> mBuckets m !! j = Some (chain_head l).
Proof.
  intros Hj. rewrite (rep_buckets _ _ _ Hrep), list_lookup_fmap. by rewrite Hj.
Qed.

Lemma rep_chain_linked j l : cs !! j = Some l -> linked (store m) l.
Proof.
  intros Hj. pose proof (rep_linked _ _ _ Hrep) as Hl.
  rewrite Forall_lookup in Hl. eauto.
Qed.

Lemma rep_chain_addresses j l : cs !! j = Some l -> NoDup l.*1.
Proof. intros Hj. eapply chain_NoDup; [apply (rep_addresses _ _ _ Hrep) | done]. Qed.

Lemma rep_chain_fuel j l : cs !! j = Some l -> length l ≤ size (store m).
Proof. intros Hj. apply linked_length; eauto using rep_chain_linked, rep_chain_addresses. Qed.

Lemma rep_entry_stored e :
  e ∈ mjoin cs -> ∃ n, store m !! e.1 = Some (mk_Item e.2 n).
Proof.
  intros (l & He & (j & Hj)%list_elem_of_lookup_1)%list_elem_of_join.
  eapply linked_lookup; eauto using rep_chain_linked.
Qed.

Lemma rep_fresh : fresh (dom (store m)) ∉ (mjoin cs).*1.
Proof.
  intros (e & Heq & He)%list_elem_of_fmap. apply rep_entry_stored in He as [n Hn].
  apply (is_fresh (dom (store m))). rewrite Heq. apply elem_of_dom. eauto.
Qed.

(** The entry with key [k], if the table has one, is in the chain of the
    bucket [k] hashes to. *)
Lemma rep_lookup_bucket (k : Key) l :
  cs !! N.to_nat (mHashFunction k mod mSize m) = Some l ->
  chain_lookup k l = chain_lookup k (mjoin cs).
Proof.
  intros Hj. destruct (chain_lookup k l) as [e|] eqn:Hl.
  - apply chain_lookup_Some in Hl as [He Hk]. symmetry.
    apply chain_lookup_unique; [apply (rep_keys _ _ _ Hrep) | | done].
    by eapply chain_in_table.
  - destruct (chain_lookup k (mjoin cs)) as [e|] eqn:Hc; [|done].
    apply chain_lookup_Some in Hc as [He Hk].
    apply list_elem_of_join in He as (l' & He & (j & Hj')%list_elem_of_lookup_1).
    pose proof (rep_hash _ _ _ Hrep j l' e Hj' He) as Hb.
    unfold bucket_index in Hb. rewrite Hk in Hb.
    rewrite Hb, Nat2N.id, Hj' in Hj. injection Hj as ->.
    apply chain_lookup_None in Hl. exfalso. apply Hl. rewrite <- Hk.
    by apply list_elem_of_fmap_2, list_elem_of_fmap_2.
Qed.

Lemma find_spec (this : N) (k : Key) :
  HashMap_find mHashFunction this m k
  = Ok (match chain_lookup k (mjoin cs) with
        | Some e => mk_iterator (Some e.1, (mHashFunction k mod mSize m)%N) (Some this)
        | None => HashMap_end
        end).
Proof.
  unfold HashMap_find. rewrite (modulo_Ok _ _ rep_size_nonzero). cbn.
  destruct (rep_chain_of_key k) as [l Hl].
  rewrite (vector_at_Ok _ _ _ (rep_bucket _ _ Hl)). cbn.
  rewrite find_loop_spec by eauto using rep_chain_linked, rep_chain_fuel.
  by rewrite (rep_lookup_bucket k l Hl).
Qed.

Lemma deref_entry (this : N) e b p :
  e ∈ mjoin cs -> iterator_deref m (mk_iterator (Some e.1, b) p) = Ok e.2.
Proof.
  intros [n Hn]%rep_entry_stored. unfold iterator_deref, deref. cbn. by rewrite Hn.
Qed.

End represented.

(** *** The growth test *)

Lemma rep_over_threshold m cs (n : N) :
  represents mHashFunction m cs -> (n < SIZE_T_MODULUS)%N ->
  over_threshold n (mSize m) = true <-> (2 * mSize m < 5 * n)%N.
Proof.
  intros Hrep Hn. apply over_threshold_iff; [done|].
  split; [apply (rep_size_pos _ _ _ Hrep)|apply (rep_size_fits _ _ _ Hrep)].
Qed.

Lemma load_factor_le (n s : N) :
  (0 < s)%N ->
  Qle (load_factor n s) four_tenths <-> (5 * n <= 2 * s)%N.
Proof.
  intros Hs. unfold load_factor, four_tenths.
  destruct s as [|p]; [lia|].
  unfold Qle, Qdiv, Qmult, Qinv, inject_Z. cbn. lia.
Qed.

(** *** Use counts *)

Lemma use_count_shared h buckets tmp a it s :
  h !! a = Some it -> mNext it = Some s -> s ∈ tmp ->
  unique h buckets tmp (mNext it) = false.
Proof.
  intros Ha Hs Hin. rewrite Hs. cbn. apply bool_decide_eq_false_2.
  unfold use_count.
  assert (size (filter (fun e : N * Item Key Value => mNext e.2 = Some s) h) ≠ 0) as H1.
  { intros Hz%map_size_empty_iff.
    assert (filter (fun e : N * Item Key Value => mNext e.2 = Some s) h !! a = Some it) as Hf
      by (by apply map_lookup_filter_Some).
    rewrite Hz in Hf. by rewrite lookup_empty in Hf. }
  assert (length (filter (fun t => t = s) tmp) ≠ 0) as H2.
  { intros Hz%length_zero_iff_nil.
    by apply (filter_nil_not_elem_of (fun t => t = s) tmp s). }
  lia.
Qed.

(** *** The chains [resize] builds *)

Lemma rebucket_length size es : length (rebucket mHashFunction size es) = N.to_nat size.
Proof. unfold rebucket. by rewrite length_fmap, length_seq. Qed.

Lemma rebucket_lookup size es j :
  j < N.to_nat size ->
  rebucket mHashFunction size es !! j
  = Some (filter (fun e => bucket_index mHashFunction size e = N.of_nat j) es).
Proof.
  intros Hj. unfold rebucket. rewrite list_lookup_fmap, lookup_seq_lt by done. done.
Qed.

Lemma rebucket_nil size :
  rebucket mHashFunction size ([] : list entry) = replicate (N.to_nat size) [].
Proof.
  apply list_eq. intros j. destruct (decide (j < N.to_nat size)) as [Hj|Hj].
  - rewrite rebucket_lookup by done. by rewrite lookup_replicate_2.
  - rewrite !lookup_ge_None_2; [done | rewrite length_replicate; lia
                                | rewrite rebucket_length; lia].
Qed.

Lemma rebucket_snoc size es e :
  (0 < size)%N ->
  rebucket mHashFunction size (es ++ [e])
  = append_entry (N.to_nat (bucket_index mHashFunction size e)) e
      (rebucket mHashFunction size es).
Proof.
  intros Hs. apply list_eq. intros j.
  destruct (decide (j < N.to_nat size)) as [Hj|Hj].
  - rewrite rebucket_lookup by done. rewrite filter_app.
    destruct (decide (N.to_nat (bucket_index mHashFunction size e) = j)) as [Hb|Hb].
    + rewrite Hb. erewrite append_entry_lookup by (by apply rebucket_lookup).
      rewrite filter_cons_True by lia. done.
    + rewrite append_entry_lookup_ne by done. rewrite rebucket_lookup by done.
      rewrite filter_cons_False by lia. by rewrite app_nil_r.
  - rewrite !lookup_ge_None_2; [done | | ].
    + rewrite append_entry_length, rebucket_length. lia.
    + rewrite rebucket_length. lia.
Qed.

Lemma bucket_index_lt size e :
  (0 < size)%N -> N.to_nat (bucket_index mHashFunction size e) < N.to_nat size.
Proof.
  intros Hs. unfold bucket_index.
  pose proof (N.mod_lt (mHashFunction e.2.1) size). lia.
Qed.

Lemma rebucket_join size es :
  (0 < size)%N -> mjoin (rebucket mHashFunction size es) ≡ₚ es.
Proof.
  intros Hs. induction es as [|e es IH] using rev_ind.
  - rewrite rebucket_nil. induction (N.to_nat size) as [|n IHn]; [done|]. apply IHn.
  - rewrite rebucket_snoc by done. rewrite append_entry_join.
    + by rewrite IH.
    + rewrite rebucket_length. by apply bucket_index_lt.
Qed.

Lemma rebucket_hash size es j l e :
  rebucket mHashFunction size es !! j = Some l -> e ∈ l ->
  bucket_index mHashFunction size e = N.of_nat j.
Proof.
  intros Hj He. assert (j < N.to_nat size) as Hlt.
  { rewrite <- (rebucket_length size es). by eapply lookup_lt_Some. }
  rewrite rebucket_lookup in Hj by done. injection Hj as <-.
  by apply list_elem_of_filter in He as [? _].
Qed.

(** *** resize *)

Lemma deref_Ok h p it : h !! p = Some it -> deref h p = Ok it.
Proof. intros Hp. unfold deref. by rewrite Hp. Qed.

Lemma linked_successor h l e :
  linked h l -> e ∈ l ->
  ∃ n, h !! e.1 = Some (mk_Item e.2 n) ∧ (n = None ∨ ∃ s, n = Some s ∧ s ∈ l.*1).
Proof.
  induction l as [|e' l IH]; intros Hl He; [by apply elem_of_nil in He|].
  destruct Hl as [Hh Hl]. apply elem_of_cons in He as [->|He].
  - eexists. split; [done|]. destruct (chain_head l) as [s|] eqn:Hs; [|by left].
    right. exists s. split; [done|]. cbn. apply list_elem_of_further.
    by apply chain_head_elem.
  - destruct (IH Hl He) as (n & Hn & Hs). exists n. split; [done|].
    destruct Hs as [->|(s & -> & Hs)]; [by left|]. right. exists s.
    split; [done|]. cbn. by apply list_elem_of_further.
Qed.

Lemma collect_buckets_spec m cs1 cs2 tmp :
  mBuckets m = chain_head <$> (cs1 ++ cs2) ->
  Forall (linked (store m)) cs2 ->
  NoDup (mjoin cs2).*1 ->
  collect_buckets (length cs2) (N.of_nat (length cs1)) m tmp
  = Ok (tmp ++ (mjoin cs2).*1).
Proof.
  revert cs1 tmp. induction cs2 as [|l cs2 IH]; intros cs1 tmp Hb Hl Hnd.
  - cbn. by rewrite app_nil_r.
  - apply Forall_cons in Hl as [Hl Hls]. cbn in Hnd. rewrite fmap_app in Hnd.
    apply NoDup_app in Hnd as (Hnd1 & _ & Hnd2).
    cbn [collect_buckets length]. rewrite (vector_at_Ok _ _ (chain_head l)).
    2:{ rewrite Hb, Nat2N.id, list_lookup_fmap, lookup_app_r by lia.
        by rewrite Nat.sub_diag. }
    cbn. rewrite collect_chain_spec by eauto using linked_length. cbn.
    replace (N.of_nat (length cs1) + 1)%N with (N.of_nat (length (cs1 ++ [l])))
      by (rewrite length_app; cbn; lia).
    rewrite IH; [| by rewrite <- app_assoc | done | done].
    cbn. by rewrite fmap_app, app_assoc.
Qed.

Lemma reinsert_spec tmp m cs e nx :
  (0 < mSize m)%N ->
  length cs = N.to_nat (mSize m) ->
  mBuckets m = chain_head <$> cs ->
  Forall (linked (store m)) cs ->
  NoDup (mjoin cs).*1 ->
  e.1 ∉ (mjoin cs).*1 ->
  store m !! e.1 = Some (mk_Item e.2 nx) ->
  (nx = None ∨ ∃ s, nx = Some s ∧ s ∈ tmp) ->
  ∃ m', reinsert mHashFunction tmp m e.1 = Ok m'
    ∧ mSize m' = mSize m
    ∧ mNumEntries m' = mNumEntries m
    ∧ mBuckets m'
      = chain_head <$> append_entry (N.to_nat (bucket_index mHashFunction (mSize m) e)) e cs
    ∧ Forall (linked (store m'))
        (append_entry (N.to_nat (bucket_index mHashFunction (mSize m) e)) e cs)
    ∧ (∀ a, a ≠ e.1 -> a ∉ (mjoin cs).*1 -> store m' !! a = store m !! a)
    ∧ store m' !! e.1 = Some (mk_Item e.2 None)
    ∧ dom (store m') = dom (store m)
    ∧ (∀ a it, store m !! a = Some it ->
         ∃ n, store m' !! a = Some (mk_Item (mKeyValuePair it) n)).
Proof.
  intros Hpos Hlen Hb Hl Hnd He Hst Hnx.
  set (j := N.to_nat (bucket_index mHashFunction (mSize m) e)).
  assert (j < length cs) as Hj by (rewrite Hlen; by apply bucket_index_lt).
  destruct (lookup_lt_is_Some_2 cs j Hj) as [l Hjl].
  pose proof (append_entry_linked (store m) cs j l e Hl Hnd He Hjl) as Hlinked.
  pose proof (append_entry_heads cs j l e Hjl) as Hheads.
  assert (linked (store m) l) as Hll by (rewrite Forall_lookup in Hl; eauto).
  assert (NoDup l.*1) as Hndl by eauto using chain_NoDup.
  assert (e.1 ∉ l.*1) as Hel.
  { intros (x & Hx & Hin)%list_elem_of_fmap. apply He. rewrite Hx.
    apply list_elem_of_fmap_2. by eapply chain_in_table. }
  unfold reinsert. rewrite (deref_Ok _ _ _ Hst). cbn.
  assert (unique (store m) (mBuckets m) tmp nx = false) as ->.
  { destruct Hnx as [->|(s & -> & Hs)]; [done|].
    by apply (use_count_shared (store m) (mBuckets m) tmp e.1 (mk_Item e.2 (Some s)) s). }
  cbn. rewrite modulo_Ok by lia. cbn.
  fold (bucket_index mHashFunction (mSize m) e). 
  rewrite (vector_at_Ok _ _ (chain_head l)).
  2:{ fold j. by rewrite Hb, list_lookup_fmap, Hjl. }
  cbn. destruct l as [|e0 l0].
  - cbn. rewrite vector_set_Ok by (rewrite Hb, length_fmap; apply Hj). cbn.
    eexists. split; [done|]. cbn. fold j. rewrite Hheads, Hb.
    repeat split; try done.
    + intros a Ha _. by rewrite lookup_insert_ne.
    + by rewrite lookup_insert_eq.
    + by apply dom_insert_lookup_L.
    + intros a it Ha. destruct (decide (a = e.1)) as [->|Hne].
      * rewrite lookup_insert_eq. rewrite Hst in Ha. injection Ha as <-. eauto.
      * rewrite lookup_insert_ne by done. destruct it. eauto.
  - destruct (last (e0 :: l0)) as [t|] eqn:Hlast; [|by apply last_None in Hlast].
    assert (t ∈ e0 :: l0) as Htl by (by apply last_Some_elem_of).
    assert (t.1 ≠ e.1) as Hte.
    { intros Heq. apply Hel. rewrite <- Heq. by apply list_elem_of_fmap_2. }
    assert (linked (<[e.1 := mk_Item e.2 None]> (store m)) (e0 :: l0)) as Hl1
      by (by apply linked_untouched).
    cbn [chain_head head fmap option_fmap option_map].
    rewrite (last_of_chain_spec _ _ l0 e0 t Hl1 Hndl) by eauto using linked_length.
    cbn. rewrite bool_decide_eq_false_2 by done. cbn.
    destruct (linked_lookup _ _ t Hl1 Htl) as [n Hn].
    rewrite (deref_Ok _ _ _ Hn). cbn.
    eexists. split; [done|]. cbn. fold j. rewrite Hheads.
    repeat split; try done.
    + intros a Ha Hna. rewrite !lookup_insert_ne; [done | done |].
      intros <-. apply Hna. apply list_elem_of_fmap_2. by eapply chain_in_table.
    + rewrite lookup_insert_ne by done. by rewrite lookup_insert_eq.
    + rewrite dom_insert_lookup_L by done. by apply dom_insert_lookup_L.
    + intros a it Ha. destruct (decide (a = t.1)) as [->|Hne1].
      * rewrite lookup_insert_eq. rewrite lookup_insert_ne in Hn by done.
        rewrite Hn in Ha. injection Ha as <-. eauto.
      * rewrite lookup_insert_ne by done. destruct (decide (a = e.1)) as [->|Hne2].
        -- rewrite lookup_insert_eq. rewrite Hst in Ha. injection Ha as <-. eauto.
        -- rewrite lookup_insert_ne by done. destruct it. eauto.
Qed.

Lemma reinsert_all_spec tmp size rest placed m :
  (0 < size)%N ->
  mSize m = size ->
  mBuckets m = chain_head <$> rebucket mHashFunction size placed ->
  Forall (linked (store m)) (rebucket mHashFunction size placed) ->
  NoDup (fst <$> placed ++ rest) ->
  (∀ e, e ∈ rest ->
     ∃ nx, store m !! e.1 = Some (mk_Item e.2 nx)
           ∧ (nx = None ∨ ∃ s, nx = Some s ∧ s ∈ tmp)) ->
  ∃ m', reinsert_all mHashFunction tmp rest.*1 m = Ok m'
    ∧ mSize m' = size
    ∧ mNumEntries m' = mNumEntries m
    ∧ mBuckets m' = chain_head <$> rebucket mHashFunction size (placed ++ rest)
    ∧ Forall (linked (store m')) (rebucket mHashFunction size (placed ++ rest))
    ∧ dom (store m') = dom (store m)
    ∧ (∀ a it, store m !! a = Some it ->
         ∃ n, store m' !! a = Some (mk_Item (mKeyValuePair it) n)).
Proof.
  intros Hpos. revert placed m.
  induction rest as [|e rest IH]; intros placed m Hsize Hb Hl Hnd Hrest.
  - exists m. rewrite app_nil_r. repeat split; try done.
    intros a [kv n] Ha. eauto.
  - assert (mjoin (rebucket mHashFunction size placed) ≡ₚ placed) as Hperm
      by (by apply rebucket_join).
    assert (NoDup placed.*1 ∧ (e.1 ∉ placed.*1) ∧ (e.1 ∉ rest.*1)) as (Hnd1 & He1 & He2).
    { rewrite fmap_app in Hnd. apply NoDup_app in Hnd as (H1 & H2 & H3).
      cbn in H3. apply NoDup_cons in H3 as [H3 _]. repeat split; [done | | done].
      intros Hin. apply (H2 _ Hin). apply list_elem_of_here. }
    destruct (Hrest e) as (nx & Hst & Hnx); [apply list_elem_of_here|].
    destruct (reinsert_spec tmp m (rebucket mHashFunction size placed) e nx)
      as (m1 & Hr & Hs1 & Hn1 & Hb1 & Hl1 & Hsame & _ & Hdom & Hkv);
      rewrite ?Hsize, ?Hperm; try done.
    { by rewrite rebucket_length. }
    rewrite Hsize, <- rebucket_snoc in Hb1, Hl1 by done.
    destruct (IH (placed ++ [e]) m1) as (m' & Hr' & Hs' & Hn' & Hb' & Hl' & Hdom' & Hkv');
      try done.
    { by rewrite Hs1. }
    { by rewrite <- app_assoc. }
    { intros e' He'. destruct (Hrest e') as (nx' & Hst' & Hnx');
        [by apply list_elem_of_further|].
      exists nx'. split; [|done]. rewrite Hsame; [done | | ].
      - intros Heq. apply He2. rewrite <- Heq. by apply list_elem_of_fmap_2.
      - rewrite Hperm. rewrite fmap_app in Hnd. apply NoDup_app in Hnd as (_ & H2 & _).
        intros Hin. apply (H2 _ Hin). apply list_elem_of_further.
        by apply list_elem_of_fmap_2. }
    exists m'. cbn. rewrite Hr. cbn. rewrite <- app_assoc in Hb', Hl'.
    repeat split; try done; try congruence.
    intros a it Ha. destruct (Hkv a it Ha) as [n Hn].
    destruct (Hkv' a _ Hn) as [n' Hn2]. eauto.
Qed.

Lemma resize_spec m cs (aNewSize : N) :
  represents mHashFunction m cs ->
  (0 < aNewSize)%N -> (aNewSize < SIZE_T_MODULUS)%N -> aNewSize ≠ mSize m ->
  ∃ m', HashMap_resize mHashFunction m aNewSize = Ok m'
    ∧ represents mHashFunction m' (rebucket mHashFunction aNewSize (mjoin cs))
    ∧ mSize m' = aNewSize
    ∧ mNumEntries m' = mNumEntries m
    ∧ dom (store m') = dom (store m)
    ∧ (∀ a it, store m !! a = Some it ->
         ∃ n, store m' !! a = Some (mk_Item (mKeyValuePair it) n)).
Proof.
  intros Hrep Hpos Hfit Hne. unfold HashMap_resize.
  rewrite (proj2 (N.eqb_neq _ _)) by done.
  rewrite <- (rep_length _ _ _ Hrep).
  pose proof (collect_buckets_spec m [] cs [] (rep_buckets _ _ _ Hrep)
                (rep_linked _ _ _ Hrep) (rep_addresses _ _ _ Hrep)) as Hc.
  change (N.of_nat (length (@nil (list entry)))) with 0%N in Hc.
  rewrite Hc. cbn. rewrite length_fmap, <- (rep_count _ _ _ Hrep), N.eqb_refl. cbn.
  destruct (reinsert_all_spec (mjoin cs).*1 aNewSize (mjoin cs) []
              (mk_HashMap (replicate (N.to_nat aNewSize) None) aNewSize
                 (mNumEntries m) (store m)) Hpos)
    as (m' & Hr & Hs & Hn & Hb & Hl & Hdom & Hkv); cbn; try done.
  - by rewrite rebucket_nil, fmap_replicate.
  - rewrite rebucket_nil. apply Forall_forall. by intros l ->%elem_of_replicate_inv.
  - apply Hrep.
  - intros e (l & He & (j & Hj)%list_elem_of_lookup_1)%list_elem_of_join.
    destruct (linked_successor (store m) l e) as (nx & Hst & Hnx);
      [by eapply rep_chain_linked | done |].
    exists nx. split; [done|]. destruct Hnx as [->|(s & -> & Hs')]; [by left|].
    right. exists s. split; [done|].
    apply list_elem_of_fmap in Hs' as (x & -> & Hx).
    apply list_elem_of_fmap_2. by eapply chain_in_table.
  - exists m'. cbn in *. split; [done|]. split; [|done].
    assert (mjoin (rebucket mHashFunction aNewSize (mjoin cs)) ≡ₚ mjoin cs) as Hperm
      by (by apply rebucket_join).
    split; rewrite ?Hs, ?Hperm; try done.
    + by rewrite rebucket_length.
    + apply Hrep.
    + apply Hrep.
    + rewrite Hn. apply Hrep.
    + apply rebucket_hash.
Qed.

(** *** insert *)

Lemma join_fmap {B : Type} (f : entry -> B) cs :
  f <$> mjoin cs = mjoin (fmap f <$> cs).
Proof.
  induction cs as [|l cs IH]; [done|].
  change (f <$> l ++ mjoin cs = (f <$> l) ++ mjoin (fmap f <$> cs)).
  by rewrite fmap_app, IH.
Qed.

Lemma set_value_address a v e : (set_value a v e).1 = e.1.
Proof. unfold set_value. by case_decide. Qed.

Lemma set_value_key a v e : (set_value a v e).2.1 = e.2.1.
Proof. unfold set_value. by case_decide. Qed.

Lemma chain_head_set_value a v l : chain_head (set_value a v <$> l) = chain_head l.
Proof. destruct l as [|e l]; [done|]. cbn. by rewrite set_value_address. Qed.

Lemma represents_set_value m cs a it v :
  represents mHashFunction m cs ->
  store m !! a = Some it ->
  represents mHashFunction
    (mk_HashMap (mBuckets m) (mSize m) (mNumEntries m)
       (<[a := mk_Item ((mKeyValuePair it).1, v) (mNext it)]> (store m)))
    (overwrite a v cs).
Proof.
  intros Hrep Ha. unfold overwrite.
  assert (fst <$> mjoin (fmap (M:=list) (set_value (Key:=Key) a v) <$> cs)
          = fst <$> mjoin cs) as Haddr.
  { rewrite <- (join_fmap (set_value a v)), <- list_fmap_compose.
    apply list_fmap_ext. intros i e _. apply set_value_address. }
  assert ((mjoin (fmap (M:=list) (set_value (Key:=Key) a v) <$> cs)).*2.*1
          = (mjoin cs).*2.*1) as Hkeys.
  { rewrite <- (join_fmap (set_value a v)), <- !list_fmap_compose.
    apply list_fmap_ext. intros i e _. apply set_value_key. }
  split; cbn; try apply Hrep.
  - rewrite length_fmap. apply Hrep.
  - rewrite (rep_buckets _ _ _ Hrep), <- list_fmap_compose.
    apply list_fmap_ext. intros i l _. cbn. by rewrite chain_head_set_value.
  - apply Forall_fmap, Forall_forall. intros l Hl. cbn.
    apply linked_set_value; [done|].
    pose proof (rep_linked _ _ _ Hrep) as Hall. rewrite Forall_forall in Hall. auto.
  - rewrite Haddr. apply Hrep.
  - rewrite Hkeys. apply Hrep.
  - rewrite <- (length_fmap fst), Haddr, length_fmap. apply Hrep.
  - intros j l' e' Hj He'. rewrite list_lookup_fmap in Hj.
    destruct (cs !! j) as [l|] eqn:Hl; [|done]. injection Hj as <-.
    apply list_elem_of_fmap in He' as (e0 & -> & He0).
    unfold bucket_index. rewrite set_value_key.
    apply (rep_hash _ _ _ Hrep j l e0 Hl He0).
Qed.

Lemma represents_append m cs e l :
  represents mHashFunction m cs ->
  e.1 ∉ (mjoin cs).*1 -> e.2.1 ∉ (mjoin cs).*2.*1 ->
  (mNumEntries m + 1 < SIZE_T_MODULUS)%N ->
  cs !! N.to_nat (bucket_index mHashFunction (mSize m) e) = Some l ->
  represents mHashFunction
    (mk_HashMap
       (match l with
        | [] => <[N.to_nat (bucket_index mHashFunction (mSize m) e) := Some e.1]> (mBuckets m)
        | _ :: _ => mBuckets m
        end)
       (mSize m) (wrap (mNumEntries m + 1))
       (match last l with
        | Some t => <[t.1 := mk_Item t.2 (Some e.1)]>
                      (<[e.1 := mk_Item e.2 None]> (store m))
        | None => <[e.1 := mk_Item e.2 None]> (store m)
        end))
    (append_entry (N.to_nat (bucket_index mHashFunction (mSize m) e)) e cs).
Proof.
  intros Hrep Ha Hk Hfit Hl.
  set (j := N.to_nat (bucket_index mHashFunction (mSize m) e)) in *.
  assert (j < length cs) as Hj by (by eapply lookup_lt_Some).
  pose proof (append_entry_join cs j e Hj) as Hperm.
  split; cbn; rewrite ?Hperm; try apply Hrep.
  - rewrite append_entry_length. apply Hrep.
  - rewrite (append_entry_heads cs j l e Hl), (rep_buckets _ _ _ Hrep). by destruct l.
  - apply append_entry_linked; [apply Hrep | apply Hrep | done | done].
  - rewrite fmap_app. apply NoDup_app. split; [apply Hrep|]. split.
    + intros x Hx [->|[]%elem_of_nil]%elem_of_cons. by apply Ha.
    + apply NoDup_singleton.
  - rewrite !fmap_app. apply NoDup_app. split; [apply Hrep|]. split.
    + intros x Hx [->|[]%elem_of_nil]%elem_of_cons. by apply Hk.
    + apply NoDup_singleton.
  - rewrite wrap_small by done. rewrite length_app, (rep_count _ _ _ Hrep). cbn. lia.
  - intros j' l' e' Hj' He'. destruct (decide (j = j')) as [<-|Hne].
    + rewrite (append_entry_lookup _ _ _ _ Hl) in Hj'. injection Hj' as <-.
      apply elem_of_app in He' as [He'|[->|[]%elem_of_nil]%elem_of_cons].
      * apply (rep_hash _ _ _ Hrep j l e' Hl He').
      * unfold j. lia.
    + rewrite append_entry_lookup_ne in Hj' by done.
      apply (rep_hash _ _ _ Hrep j' l' e' Hj' He').
Qed.

Lemma insert_update_spec (this : N) m cs k v e :
  represents mHashFunction m cs ->
  chain_lookup k (mjoin cs) = Some e ->
  ∃ n, store m !! e.1 = Some (mk_Item e.2 n)
    ∧ HashMap_insert mHashFunction this m (k, v)
      = Ok (mk_iterator (Some e.1, (mHashFunction k mod mSize m)%N) (Some this), true,
            mk_HashMap (mBuckets m) (mSize m) (mNumEntries m)
              (<[e.1 := mk_Item (e.2.1, v) n]> (store m)))
    ∧ represents mHashFunction
        (mk_HashMap (mBuckets m) (mSize m) (mNumEntries m)
           (<[e.1 := mk_Item (e.2.1, v) n]> (store m)))
        (overwrite e.1 v cs).
Proof.
  intros Hrep Hk.
  destruct (chain_lookup_Some _ _ _ Hk) as [He Hek].
  destruct (rep_entry_stored m cs Hrep e He) as [n Hn].
  exists n. split; [done|]. split.
  - unfold HashMap_insert. cbn [fst snd].
    rewrite (modulo_Ok _ _ (rep_size_nonzero m cs Hrep)). cbn.
    destruct (rep_chain_of_key m cs Hrep k) as [l Hl].
    rewrite (vector_at_Ok _ _ _ (rep_bucket m cs Hrep _ _ Hl)). cbn.
    rewrite <- (rep_lookup_bucket m cs Hrep k l Hl) in Hk.
    destruct (insert_loop_found (size (store m)) (store m) l k e None) as [prev ->];
      eauto using rep_chain_linked, rep_chain_addresses, rep_chain_fuel.
    cbn. rewrite (deref_Ok _ _ _ Hn). done.
  - apply (represents_set_value m cs e.1 (mk_Item e.2 n) v Hrep Hn).
Qed.

Lemma insert_new_spec (this : N) m cs k v :
  represents mHashFunction m cs ->
  chain_lookup k (mjoin cs) = None ->
  (3 * (mNumEntries m + 1) + 5 < SIZE_T_MODULUS)%N ->
  let a := fresh (dom (store m)) in
  let j := (mHashFunction k mod mSize m)%N in
  let cs1 := append_entry (N.to_nat j) (a, (k, v)) cs in
  let grow := over_threshold (mNumEntries m + 1) (mSize m) in
  let size' := if grow then (3 * (mNumEntries m + 1) + 5)%N else mSize m in
  let cs' := if grow then rebucket mHashFunction size' (mjoin cs1) else cs1 in
  ∃ m', HashMap_insert mHashFunction this m (k, v)
        = Ok (mk_iterator (Some a, j) (Some this), false, m')
    ∧ represents mHashFunction m' cs'
    ∧ mSize m' = size'
    ∧ mNumEntries m' = (mNumEntries m + 1)%N.
Proof.
  intros Hrep Hk Hfit a j cs1 grow size' cs'.
  pose proof (rep_fresh m cs Hrep) as Ha. fold a in Ha.
  destruct (rep_chain_of_key m cs Hrep k) as [l Hl]. fold j in Hl.
  assert (mNumEntries m + 1 < SIZE_T_MODULUS)%N as Hfit1 by lia.
  pose proof (represents_append m cs (a, (k, v)) l Hrep Ha) as Hrep1.
  unfold bucket_index in Hrep1. cbn [fst snd] in Hrep1. fold j cs1 in Hrep1.
  specialize (Hrep1 (proj1 (chain_lookup_None _ _) Hk) Hfit1 Hl).
  rewrite (wrap_small _ Hfit1) in Hrep1.
  unfold HashMap_insert. cbn [fst snd].
  rewrite (modulo_Ok _ _ (rep_size_nonzero m cs Hrep)). cbn. fold j.
  rewrite (vector_at_Ok _ _ _ (rep_bucket m cs Hrep _ _ Hl)). cbn.
  rewrite insert_loop_not_found;
    eauto using rep_chain_linked, rep_chain_addresses, rep_chain_fuel.
  2:{ by rewrite (rep_lookup_bucket m cs Hrep k l Hl). }
  cbn. fold a. rewrite (wrap_small _ Hfit1). fold grow.
  set (m1 := mk_HashMap _ _ _ _) in Hrep1.
  assert (∀ r : result (HashMap Key Value),
            (grow = true -> ∃ m', r = Ok m' ∧ represents mHashFunction m' cs'
                                  ∧ mSize m' = size' ∧ mNumEntries m' = (mNumEntries m + 1)%N) ->
            (grow = false -> r = Ok m1) ->
            ∃ m', r ≫= (λ m2, Ok (mk_iterator (Some a, j) (Some this), false, m2))
                  = Ok (mk_iterator (Some a, j) (Some this), false, m')
              ∧ represents mHashFunction m' cs' ∧ mSize m' = size'
              ∧ mNumEntries m' = (mNumEntries m + 1)%N) as Hfinish.
  { intros r Hg Hng. destruct grow eqn:Hgrow.
    - destruct (Hg eq_refl) as (m' & -> & ?). by exists m'.
    - rewrite (Hng eq_refl). exists m1. done. }
  assert (grow = true ->
          ∃ m', HashMap_resize mHashFunction m1
                  (wrap (wrap ((mNumEntries m + 1) * RESIZE_MULTIPLE) + ADDITIONAL_INCREMENT))
                = Ok m'
            ∧ represents mHashFunction m' cs' ∧ mSize m' = size'
            ∧ mNumEntries m' = (mNumEntries m + 1)%N) as Hresize.
  { intros Hgrow. unfold cs', size'. rewrite Hgrow.
    unfold RESIZE_MULTIPLE, ADDITIONAL_INCREMENT.
    rewrite (wrap_small ((mNumEntries m + 1) * 3)) by lia.
    rewrite wrap_small by lia.
    replace ((mNumEntries m + 1) * 3 + 5)%N with (3 * (mNumEntries m + 1) + 5)%N by lia.
    apply (rep_over_threshold m cs _ Hrep Hfit1) in Hgrow.
    destruct (resize_spec m1 cs1 (3 * (mNumEntries m + 1) + 5)%N Hrep1)
      as (m' & Hr & Hrep' & Hs' & Hn' & _); [lia | done | cbn; lia |].
    exists m'. done. }
  destruct (last l) as [t|] eqn:Hlast.
  - assert (t ∈ l) as Htl by (by apply last_Some_elem_of).
    assert (t ∈ mjoin cs) as Ht by (by eapply chain_in_table).
    assert (t.1 ≠ a) as Hta.
    { intros Heq. apply Ha. rewrite <- Heq. by apply list_elem_of_fmap_2. }
    destruct (rep_entry_stored m cs Hrep t Ht) as [n Hn].
    rewrite bool_decide_eq_false_2 by done. cbn.
    rewrite (deref_Ok _ t.1 (mk_Item t.2 n)) by (by rewrite lookup_insert_ne).
    cbn. destruct l as [|e0 l0]; [done|].
    apply Hfinish; intros Hg; rewrite Hg; [by apply Hresize | done].
  - apply last_None in Hlast as ->.
    rewrite vector_set_Ok.
    2:{ rewrite (rep_buckets _ _ _ Hrep), length_fmap. by eapply lookup_lt_Some. }
    cbn. apply Hfinish; intros Hg; rewrite Hg; [by apply Hresize | done].
Qed.

(** *** The first non-empty bucket *)

Lemma first_item_None (buckets : list (option N)) (i0 : N) :
  first_item buckets i0 = None <-> ∀ n, n < length buckets -> buckets !! n = Some None.
Proof.
  revert i0. induction buckets as [|b buckets IH]; intros i0; cbn.
  - split; [intros _ n Hn; lia | done].
  - destruct b as [p|].
    + split; [done|]. intros Hall. specialize (Hall 0 ltac:(lia)). done.
    + rewrite IH. split.
      * intros Hall [|n] Hn; [done|]. cbn. apply Hall. lia.
      * intros Hall n Hn. apply (Hall (S n)). lia.
Qed.

Lemma first_item_Some (buckets : list (option N)) (i0 : N) (q : ItemPair) :
  first_item buckets i0 = Some q <->
  ∃ n p, q = (Some p, (i0 + N.of_nat n)%N)
         ∧ buckets !! n = Some (Some p)
         ∧ ∀ n', n' < n -> buckets !! n' = Some None.
Proof.
  revert i0. induction buckets as [|b buckets IH]; intros i0; cbn.
  - split; [done|]. by intros (n & p & _ & Hn & _).
  - destruct b as [p|].
    + split.
      * intros [= <-]. exists 0, p. rewrite N.add_0_r.
        split; [done|]. split; [done|]. intros n' Hn'. lia.
      * intros (n & p' & -> & Hn & Hbefore). destruct n as [|n].
        -- injection Hn as ->. by rewrite N.add_0_r.
        -- specialize (Hbefore 0 ltac:(lia)). done.
    + rewrite IH. split.
      * intros (n & p & -> & Hn & Hbefore). exists (S n), p.
        split; [f_equal; lia|]. split; [done|].
        intros [|n'] Hn'; [done|]. cbn. apply Hbefore. lia.
      * intros (n & p & -> & Hn & Hbefore). destruct n as [|n]; [done|].
        exists n, p. split; [f_equal; lia|]. split; [done|].
        intros n' Hn'. apply (Hbefore (S n')). lia.
Qed.

Lemma represents_nonempty_bucket m cs :
  represents mHashFunction m cs -> mNumEntries m ≠ 0%N ->
  ∃ n p, mBuckets m !! n = Some (Some p).
Proof.
  intros Hrep Hne. rewrite (rep_count _ _ _ Hrep) in Hne.
  destruct (mjoin cs) as [|e es] eqn:Hjoin; [done|].
  assert (e ∈ mjoin cs) as He by (rewrite Hjoin; apply list_elem_of_here).
  apply list_elem_of_join in He as (l & He & (n & Hn)%list_elem_of_lookup_1).
  exists n. destruct l as [|e0 l0]; [by apply elem_of_nil in He|].
  exists e0.1. by rewrite (rep_bucket m cs Hrep n _ Hn).
Qed.

(** C7: on a table that satisfies the class invariant, [empty()] holds
    exactly when [size()] is zero, [begin()] returns a cursor, and that
    cursor compares equal to [end()] exactly when [size()] is zero; on a
    non-empty table the cursor is at the chain head of the first
    non-empty bucket, counting bucket positions from zero. *)
Theorem begin_end_empty (this : N) (m : HashMap Key Value) :
  wf mHashFunction m ->
  (HashMap_empty m = true <-> HashMap_size m = 0%N)
  ∧ ∃ b, HashMap_begin this m = Ok b
      ∧ (iterator_eq b HashMap_end = true <-> HashMap_size m = 0%N)
      ∧ (HashMap_size m ≠ 0%N ->
         ∃ n p, mCurrentItem b = (Some p, N.of_nat n)
                ∧ mBuckets m !! n = Some (Some p)
                ∧ ∀ n', n' < n -> mBuckets m !! n' = Some None).
Proof.
  intros [cs Hrep]. unfold HashMap_empty, HashMap_size.
  split; [by rewrite N.eqb_eq|].
  unfold HashMap_begin, HashMap_getFirstItem, HashMap_empty.
  destruct (N.eqb_spec (mNumEntries m) 0) as [Hz|Hnz].
  - eexists. split; [reflexivity|]. cbn.
    split; [split; [intros _; exact Hz | reflexivity]|]. intros Hne. contradiction.
  - destruct (first_item (mBuckets m) 0) as [q|] eqn:Hfirst.
    + apply first_item_Some in Hfirst as (n & p & -> & Hn & Hbefore).
      eexists. split; [reflexivity|]. cbn.
      split; [split; [discriminate | intros Hz; contradiction]|].
      intros _. exists n, p. rewrite N.add_0_l. done.
    + exfalso. destruct (represents_nonempty_bucket m cs Hrep Hnz) as (n & p & Hn).
      rewrite first_item_None in Hfirst. rewrite Hfirst in Hn; [done|].
      by eapply lookup_lt_Some.
Qed.

(** *** Comparing cursors *)

Lemma ItemPair_eq_iff (p q : ItemPair) :
  ItemPair_eq p q = true <-> p.1 = q.1 ∧ p.2 = q.2.
Proof.
  unfold ItemPair_eq. rewrite andb_true_iff, !bool_decide_eq_true. done.
Qed.

(** C8: two cursors of either kind compare equal exactly when they hold
    the same item pointer and the same bucket position; the parent pointer
    takes no part, so cursors that hold the pair of the end sentinel
    compare equal whatever table they came from, and [end()] itself does
    not depend on the table. *)
Theorem cursor_equality :
  (∀ a b : iterator,
     iterator_eq a b = true
     <-> (mCurrentItem a).1 = (mCurrentItem b).1
         ∧ (mCurrentItem a).2 = (mCurrentItem b).2)
  ∧ (∀ a b : const_iterator,
       const_iterator_eq a b = true
       <-> (const_mCurrentItem a).1 = (const_mCurrentItem b).1
           ∧ (const_mCurrentItem a).2 = (const_mCurrentItem b).2)
  ∧ (∀ (item : option N) (bucket : N) (parent1 parent2 : option N),
       iterator_eq (mk_iterator (item, bucket) parent1)
                   (mk_iterator (item, bucket) parent2) = true
       ∧ const_iterator_eq (mk_const_iterator (item, bucket) parent1)
                           (mk_const_iterator (item, bucket) parent2) = true)
  ∧ (∀ parent1 parent2 : option N,
       iterator_eq (mk_iterator (mCurrentItem HashMap_end) parent1)
                   (mk_iterator (mCurrentItem HashMap_end) parent2) = true)
  ∧ iterator_eq HashMap_end HashMap_end = true
  ∧ const_iterator_eq (const_iterator_of HashMap_end) HashMap_end_const = true.
Proof.
  split; [intros a b; apply ItemPair_eq_iff|].
  split; [intros a b; apply ItemPair_eq_iff|].
  split.
  { intros item bucket parent1 parent2. unfold iterator_eq, const_iterator_eq.
    cbn. by rewrite !(proj2 (ItemPair_eq_iff _ _)). }
  split; [intros parent1 parent2; reflexivity|].
  split; reflexivity.
Qed.

(** *** The capacity the constructor is given *)

Lemma join_replicate_nil (n : nat) : mjoin (replicate n ([] : list entry)) = [].
Proof. induction n as [|n IH]; [done|]. apply IH. Qed.

(** C10: the constructor stores whatever capacity it is given, zero
    included, and checks nothing.  On a table constructed with a capacity
    of at least one, [hash( key ) % mSize] is defined and is a position of
    the bucket vector, and [find] and [insert] return; on a table
    constructed with capacity zero the first [insert] and the first [find]
    take a remainder by zero. *)
Theorem constructor_capacity (this : N) :
  (∀ aSize : N,
     mSize (HashMap_new aSize : HashMap Key Value) = aSize
     ∧ length (mBuckets (HashMap_new aSize : HashMap Key Value)) = N.to_nat aSize)
  ∧ (∀ (aSize : N) (k : Key) (v : Value),
       (1 <= aSize)%N -> (aSize < SIZE_T_MODULUS)%N ->
       modulo (mHashFunction k) (mSize (HashMap_new aSize : HashMap Key Value))
       = Ok (mHashFunction k mod aSize)%N
       ∧ (mHashFunction k mod aSize < aSize)%N
       ∧ HashMap_find mHashFunction this (HashMap_new aSize : HashMap Key Value) k
         = Ok HashMap_end
       ∧ ∃ it m', HashMap_insert mHashFunction this (HashMap_new aSize) (k, v)
                  = Ok (it, false, m'))
  ∧ (∀ kv : Key * Value,
       HashMap_insert mHashFunction this (HashMap_new 0) kv = Fault ModuloByZero)
  ∧ (∀ k : Key,
       HashMap_find mHashFunction this (HashMap_new 0 : HashMap Key Value) k
       = Fault ModuloByZero).
Proof.
  split; [intros aSize; cbn; by rewrite length_replicate|].
  split; [|split; reflexivity].
  intros aSize k v Hpos Hfit.
  assert (represents mHashFunction (HashMap_new aSize : HashMap Key Value)
            (replicate (N.to_nat aSize) [])) as Hrep
    by (apply represents_new; lia).
  assert (chain_lookup k (mjoin (replicate (N.to_nat aSize) ([] : list entry))) = None)
    as Hk.
  { by rewrite join_replicate_nil. }
  split; [cbn; apply modulo_Ok; lia|].
  split; [apply N.mod_lt; lia|].
  split; [by rewrite (find_spec _ _ Hrep), Hk|].
  destruct (insert_new_spec this _ _ k v Hrep Hk) as (m' & Hins & _).
  { cbn. unfold SIZE_T_MODULUS. lia. }
  eauto.
Qed.

(** *** Inserting a key the table has *)

Lemma chain_lookup_set_value a v k l :
  chain_lookup k (set_value (Key:=Key) a v <$> l)
  = set_value a v <$> chain_lookup k l.
Proof.
  induction l as [|e l IH]; [done|]. cbn. rewrite set_value_key.
  case_decide; [done | apply IH].
Qed.

Lemma overwrite_join a v cs :
  mjoin (overwrite a v cs) = set_value a v <$> mjoin cs.
Proof. unfold overwrite. by rewrite <- join_fmap. Qed.

Lemma overwrite_keys a v cs : (mjoin (overwrite a v cs)).*2.*1 = (mjoin cs).*2.*1.
Proof.
  rewrite overwrite_join, <- !list_fmap_compose.
  apply list_fmap_ext. intros i e _. apply set_value_key.
Qed.

Lemma find_found (this : N) m cs k it :
  represents mHashFunction m cs ->
  HashMap_find mHashFunction this m k = Ok it ->
  (mCurrentItem it).1 ≠ None ->
  ∃ e, chain_lookup k (mjoin cs) = Some e
       ∧ it = mk_iterator (Some e.1, (mHashFunction k mod mSize m)%N) (Some this).
Proof.
  intros Hrep Hfind Hit. rewrite (find_spec m cs Hrep) in Hfind.
  destruct (chain_lookup k (mjoin cs)) as [e|]; injection Hfind as <-; [eauto | done].
Qed.

(** C4: when [find] of [k] on a table that satisfies the class invariant
    returns a cursor at an item, [insert] of [(k, v')] returns that same
    cursor with the flag [true]; the table it leaves differs from the one
    before only in the value held by that item, which is [v']: the bucket
    vector, the capacity, [size()], the item's successor link and every
    other item are as before, every [find] returns what it returned
    before, and the invariant still holds. *)
Theorem insert_existing_key (this : N) (m : HashMap Key Value) (k : Key) (v' : Value)
    (it : iterator) :
  wf mHashFunction m ->
  HashMap_find mHashFunction this m k = Ok it ->
  iterator_eq it HashMap_end = false ->
  ∃ (p : N) (item : Item Key Value) (m' : HashMap Key Value),
    (mCurrentItem it).1 = Some p
    ∧ store m !! p = Some item
    ∧ (mKeyValuePair item).1 = k
    ∧ HashMap_insert mHashFunction this m (k, v') = Ok (it, true, m')
    ∧ m' = mk_HashMap (mBuckets m) (mSize m) (mNumEntries m)
             (<[p := mk_Item (k, v') (mNext item)]> (store m))
    ∧ iterator_deref m' it = Ok (k, v')
    ∧ HashMap_size m' = HashMap_size m
    ∧ (∀ k', HashMap_find mHashFunction this m' k' = HashMap_find mHashFunction this m k')
    ∧ wf mHashFunction m'.
Proof.
  intros [cs Hrep] Hfind Hne.
  destruct (find_found this m cs k it Hrep Hfind) as (e & Hk & ->).
  { intros Hnone. rewrite (find_spec m cs Hrep) in Hfind.
    destruct (chain_lookup k (mjoin cs)); injection Hfind as <-; done. }
  destruct (insert_update_spec this m cs k v' e Hrep Hk) as (n & Hst & Hins & Hrep').
  destruct (chain_lookup_Some _ _ _ Hk) as [He Hek].
  exists e.1, (mk_Item e.2 n). eexists. rewrite Hek in Hins, Hrep'.
  split; [done|]. split; [done|]. split; [done|]. split; [exact Hins|].
  split; [done|]. split.
  { unfold iterator_deref, deref. cbn. by rewrite lookup_insert_eq. }
  split; [done|]. split; [|by eexists].
  intros k'. rewrite (find_spec _ _ Hrep'), (find_spec _ _ Hrep). cbn.
  rewrite overwrite_join, chain_lookup_set_value.
  destruct (chain_lookup k' (mjoin cs)) as [e'|]; [|done].
  cbn. by rewrite set_value_address.
Qed.

(** *** Sequences of inserts *)

Lemma insert_new_contents (this : N) m cs k v :
  represents mHashFunction m cs ->
  chain_lookup k (mjoin cs) = None ->
  (3 * (mNumEntries m + 1) + 5 < SIZE_T_MODULUS)%N ->
  ∃ it m' cs',
    HashMap_insert mHashFunction this m (k, v) = Ok (it, false, m')
    ∧ represents mHashFunction m' cs'
    ∧ mjoin cs' ≡ₚ mjoin cs ++ [(fresh (dom (store m)), (k, v))]
    ∧ mNumEntries m' = (mNumEntries m + 1)%N.
Proof.
  intros Hrep Hk Hfit.
  destruct (insert_new_spec this m cs k v Hrep Hk Hfit) as (m' & Hins & Hrep' & _ & Hn).
  eexists _, m', _. split; [exact Hins|]. split; [exact Hrep'|]. split; [|done].
  assert (N.to_nat (mHashFunction k mod mSize m) < length cs) as Hj
    by apply (rep_bucket_in_range m cs Hrep).
  destruct (over_threshold (mNumEntries m + 1) (mSize m)).
  - rewrite rebucket_join by lia. by apply append_entry_join.
  - by apply append_entry_join.
Qed.

(** On a table that satisfies the invariant [insert] returns, and the table
    it leaves satisfies the invariant. *)
Lemma insert_returns (this : N) m (kv : Key * Value) :
  wf mHashFunction m ->
  (3 * (mNumEntries m + 1) + 5 < SIZE_T_MODULUS)%N ->
  ∃ it updated m',
    HashMap_insert mHashFunction this m kv = Ok (it, updated, m')
    ∧ wf mHashFunction m'.
Proof.
  intros [cs Hrep] Hfit. destruct kv as [k v].
  destruct (chain_lookup k (mjoin cs)) as [e|] eqn:Hk.
  - destruct (insert_update_spec this m cs k v e Hrep Hk) as (n & _ & Hins & Hrep').
    eexists _, _, _. split; [exact Hins|]. by eexists.
  - destruct (insert_new_contents this m cs k v Hrep Hk Hfit)
      as (it & m' & cs' & Hins & Hrep' & _).
    eexists _, _, _. split; [exact Hins|]. by eexists.
Qed.

Lemma insert_all_spec (this : N) (kvs : list (Key * Value)) m cs :
  represents mHashFunction m cs ->
  NoDup kvs.*1 ->
  (∀ k, k ∈ kvs.*1 -> k ∉ (mjoin cs).*2.*1) ->
  (3 * (mNumEntries m + N.of_nat (length kvs)) + 5 < SIZE_T_MODULUS)%N ->
  ∃ m' cs',
    insert_all mHashFunction this m kvs = Ok m'
    ∧ represents mHashFunction m' cs'
    ∧ (mjoin cs').*2 ≡ₚ (mjoin cs).*2 ++ kvs
    ∧ mNumEntries m' = (mNumEntries m + N.of_nat (length kvs))%N.
Proof.
  revert m cs. induction kvs as [|[k v] kvs IH]; intros m cs Hrep Hnd Hnew Hfit.
  - exists m, cs. rewrite app_nil_r. cbn. split; [done|]. split; [done|].
    split; [done | lia].
  - cbn in Hnd. apply NoDup_cons in Hnd as [Hk Hnd]. cbn [length] in Hfit.
    destruct (insert_new_contents this m cs k v Hrep)
      as (it & m1 & cs1 & Hins & Hrep1 & Hperm & Hn1).
    { apply chain_lookup_None, Hnew. apply list_elem_of_here. }
    { lia. }
    destruct (IH m1 cs1 Hrep1 Hnd) as (m' & cs' & Hall & Hrep' & Hperm' & Hn').
    { intros k' Hk'. rewrite Hperm, !fmap_app. cbn.
      intros [Hin|[->|[]%elem_of_nil]%elem_of_cons]%elem_of_app; [|done].
      revert Hin. apply Hnew. by apply list_elem_of_further. }
    { rewrite Hn1. lia. }
    exists m', cs'. cbn. rewrite Hins. cbn. split; [done|]. split; [done|].
    split; [|rewrite Hn', Hn1; lia].
    rewrite Hperm', Hperm, fmap_app. cbn. by rewrite <- app_assoc.
Qed.

Lemma find_stored (this : N) m cs k v :
  represents mHashFunction m cs ->
  (k, v) ∈ (mjoin cs).*2 ->
  ∃ it, HashMap_find mHashFunction this m k = Ok it
        ∧ iterator_deref m it = Ok (k, v)
        ∧ iterator_eq it HashMap_end = false.
Proof.
  intros Hrep (e & Hkv & He)%list_elem_of_fmap.
  rewrite (find_spec m cs Hrep).
  rewrite (chain_lookup_unique k (mjoin cs) e (rep_keys _ _ _ Hrep) He)
    by (by rewrite <- Hkv).
  eexists. split; [done|]. split; [|done].
  rewrite (deref_entry m cs Hrep this e _ _ He). by rewrite Hkv.
Qed.

Lemma find_absent (this : N) m cs k :
  represents mHashFunction m cs ->
  k ∉ (mjoin cs).*2.*1 ->
  HashMap_find mHashFunction this m k = Ok HashMap_end.
Proof.
  intros Hrep Hk. rewrite (find_spec m cs Hrep).
  by rewrite (proj2 (chain_lookup_None k (mjoin cs)) Hk).
Qed.

(** C1: a sequence of [insert] calls with pairwise distinct keys on a
    table constructed with a capacity of at least one returns; afterwards
    [find] of each inserted key returns a cursor that dereferences to the
    pair inserted with that key, and [find] of any other key returns
    [end()].  The number of inserts is such that [3 * count + 5] is a
    [size_t]. *)
Theorem insert_find_round_trip (this : N) (aSize : N) (kvs : list (Key * Value)) :
  (1 <= aSize)%N -> (aSize < SIZE_T_MODULUS)%N ->
  NoDup kvs.*1 ->
  (3 * N.of_nat (length kvs) + 5 < SIZE_T_MODULUS)%N ->
  ∃ m : HashMap Key Value,
    insert_all mHashFunction this (HashMap_new aSize) kvs = Ok m
    ∧ (∀ k v, (k, v) ∈ kvs ->
         ∃ it, HashMap_find mHashFunction this m k = Ok it
               ∧ iterator_deref m it = Ok (k, v))
    ∧ (∀ k, k ∉ kvs.*1 -> HashMap_find mHashFunction this m k = Ok HashMap_end).
Proof.
  intros Hpos Hfit Hnd Hcount.
  destruct (insert_all_spec this kvs (HashMap_new aSize) (replicate (N.to_nat aSize) []))
    as (m & cs & Hall & Hrep & Hperm & _).
  { apply represents_new; lia. }
  { done. }
  { intros k _. rewrite join_replicate_nil. apply not_elem_of_nil. }
  { cbn. lia. }
  rewrite join_replicate_nil in Hperm. cbn in Hperm.
  exists m. split; [done|]. split.
  - intros k v Hkv. destruct (find_stored this m cs k v Hrep) as (it & ? & ? & _).
    + by rewrite Hperm.
    + eauto.
  - intros k Hk. apply (find_absent this m cs k Hrep). by rewrite Hperm.
Qed.

(** *** The load factor *)

Lemma load_factor_gt (n s : N) :
  (0 < s)%N ->
  Qlt four_tenths (load_factor n s) <-> (2 * s < 5 * n)%N.
Proof.
  intros Hs. unfold load_factor, four_tenths.
  destruct s as [|p]; [lia|].
  unfold Qlt, Qdiv, Qmult, Qinv, inject_Z. cbn. lia.
Qed.

Lemma insert_all_app (this : N) (kvs1 kvs2 : list (Key * Value)) m :
  insert_all mHashFunction this m (kvs1 ++ kvs2)
  = insert_all mHashFunction this m kvs1
    ≫= λ m1, insert_all mHashFunction this m1 kvs2.
Proof.
  revert m. induction kvs1 as [|kv kvs1 IH]; intros m; [done|].
  cbn. destruct (HashMap_insert mHashFunction this m kv) as [[[it fl] m1]|f]; [|done].
  cbn. apply IH.
Qed.

Lemma insert_all_same_capacity (this : N) (kvs : list (Key * Value)) m cs :
  represents mHashFunction m cs ->
  NoDup kvs.*1 ->
  (∀ k, k ∈ kvs.*1 -> k ∉ (mjoin cs).*2.*1) ->
  (3 * (mNumEntries m + N.of_nat (length kvs)) + 5 < SIZE_T_MODULUS)%N ->
  (5 * (mNumEntries m + N.of_nat (length kvs)) <= 2 * mSize m)%N ->
  ∃ m' cs',
    insert_all mHashFunction this m kvs = Ok m'
    ∧ represents mHashFunction m' cs'
    ∧ (mjoin cs').*2 ≡ₚ (mjoin cs).*2 ++ kvs
    ∧ mNumEntries m' = (mNumEntries m + N.of_nat (length kvs))%N
    ∧ mSize m' = mSize m.
Proof.
  revert m cs. induction kvs as [|[k v] kvs IH]; intros m cs Hrep Hnd Hnew Hfit Hload.
  - exists m, cs. rewrite app_nil_r. cbn. split; [done|]. split; [done|].
    split; [done|]. split; [lia | done].
  - cbn in Hnd. apply NoDup_cons in Hnd as [Hk Hnd]. cbn [length] in Hfit, Hload.
    assert (chain_lookup k (mjoin cs) = None) as Hnone.
    { apply chain_lookup_None, Hnew. apply list_elem_of_here. }
    destruct (insert_new_spec this m cs k v Hrep Hnone) as (m1 & Hins & Hrep1 & Hs1 & Hn1);
      [lia|].
    assert (over_threshold (mNumEntries m + 1) (mSize m) = false) as Hno.
    { apply not_true_iff_false. rewrite (rep_over_threshold m cs _ Hrep) by lia. lia. }
    rewrite Hno in Hrep1, Hs1.
    assert (N.to_nat (mHashFunction k mod mSize m) < length cs) as Hj
      by apply (rep_bucket_in_range m cs Hrep).
    pose proof (append_entry_join cs _ (fresh (dom (store m)), (k, v)) Hj) as Hperm.
    destruct (IH m1 _ Hrep1 Hnd) as (m' & cs' & Hall & Hrep' & Hperm' & Hn' & Hs').
    { intros k' Hk'. rewrite Hperm, !fmap_app. cbn.
      intros [Hin|[->|[]%elem_of_nil]%elem_of_cons]%elem_of_app; [|done].
      revert Hin. apply Hnew. by apply list_elem_of_further. }
    { rewrite Hn1. lia. }
    { rewrite Hn1, Hs1. lia. }
    exists m', cs'. cbn. rewrite Hins. cbn. split; [done|]. split; [done|].
    split; [|split; [rewrite Hn', Hn1; lia | congruence]].
    rewrite Hperm', Hperm, fmap_app. cbn. by rewrite <- app_assoc.
Qed.

Lemma find_end_absent (this : N) m cs k :
  represents mHashFunction m cs ->
  HashMap_find mHashFunction this m k = Ok HashMap_end ->
  chain_lookup k (mjoin cs) = None.
Proof.
  intros Hrep Hfind. rewrite (find_spec m cs Hrep) in Hfind.
  by destruct (chain_lookup k (mjoin cs)).
Qed.

(** C2: on a table that satisfies the class invariant, [insert] of a key
    that [find] does not find returns with the flag [false], one entry
    more and a load factor [mNumEntries / mSize] of at most four tenths.
    When the quotient with the incremented count exceeds four tenths, the
    test on the doubles succeeds and the capacity is [3 * mNumEntries + 5]
    when [insert] returns; otherwise the test fails and the capacity is as
    before.  Of any sequence of inserts with distinct keys into a table
    constructed with capacity 23, the first nine leave the capacity at 23
    and the tenth leaves it at 35.  The count is such that
    [3 * (mNumEntries + 1) + 5] is a [size_t]. *)
Theorem load_factor_after_insert (this : N) (m : HashMap Key Value) (kv : Key * Value) :
  wf mHashFunction m ->
  (3 * (mNumEntries m + 1) + 5 < SIZE_T_MODULUS)%N ->
  HashMap_find mHashFunction this m kv.1 = Ok HashMap_end ->
  (∃ (it : iterator) (m' : HashMap Key Value),
     HashMap_insert mHashFunction this m kv = Ok (it, false, m')
     ∧ wf mHashFunction m'
     ∧ mNumEntries m' = (mNumEntries m + 1)%N
     ∧ Qle (load_factor (mNumEntries m') (mSize m')) four_tenths
     ∧ (Qlt four_tenths (load_factor (mNumEntries m + 1) (mSize m)) ->
        over_threshold (mNumEntries m + 1) (mSize m) = true
        ∧ mSize m' = (mNumEntries m' * 3 + 5)%N)
     ∧ (Qle (load_factor (mNumEntries m + 1) (mSize m)) four_tenths ->
        over_threshold (mNumEntries m + 1) (mSize m) = false
        ∧ mSize m' = mSize m))
  ∧ (∀ kvs : list (Key * Value),
       NoDup kvs.*1 ->
       (length kvs ≤ 9 ->
        ∃ m9 : HashMap Key Value,
          insert_all mHashFunction this (HashMap_new 23) kvs = Ok m9
          ∧ mSize m9 = 23%N)
       ∧ (length kvs = 10 ->
          ∃ m9 m10 : HashMap Key Value,
            insert_all mHashFunction this (HashMap_new 23) (take 9 kvs) = Ok m9
            ∧ mSize m9 = 23%N
            ∧ insert_all mHashFunction this (HashMap_new 23) kvs = Ok m10
            ∧ mSize m10 = 35%N)).
Proof.
  intros [cs Hrep] Hfit Hfind.
  pose proof (find_end_absent this m cs kv.1 Hrep Hfind) as Hnone.
  destruct kv as [k v]. cbn in Hnone.
  destruct (insert_new_spec this m cs k v Hrep Hnone Hfit) as (m' & Hins & Hrep1 & Hs1 & Hn1).
  pose proof (rep_size_pos _ _ _ Hrep) as Hpos.
  pose proof (rep_size_pos _ _ _ Hrep1) as Hpos'.
  split.
  { eexists _, m'. split; [exact Hins|]. split; [by eexists|].
    split; [done|]. split.
    { rewrite load_factor_le by done. rewrite Hs1, Hn1.
      destruct (over_threshold (mNumEntries m + 1) (mSize m)) eqn:Hover; [lia|].
      apply not_true_iff_false in Hover.
      rewrite (rep_over_threshold m cs _ Hrep) in Hover by lia. lia. }
    split.
    { rewrite load_factor_gt by done. intros Hgt.
      rewrite Hs1, Hn1, (proj2 (rep_over_threshold m cs (mNumEntries m + 1) Hrep ltac:(lia)) Hgt).
      split; [done|lia]. }
    rewrite load_factor_le by done. intros Hle. rewrite Hs1.
    destruct (over_threshold (mNumEntries m + 1) (mSize m)) eqn:Hover; [|done].
    rewrite (rep_over_threshold m cs _ Hrep) in Hover by lia. lia. }
  intros kvs Hnd.
  assert (represents mHashFunction (HashMap_new 23 : HashMap Key Value)
            (replicate (N.to_nat 23) [])) as Hnew
    by (apply represents_new; unfold SIZE_T_MODULUS; lia).
  assert (∀ kvs9 : list (Key * Value), NoDup kvs9.*1 -> length kvs9 ≤ 9 ->
          ∃ m9 cs9, insert_all mHashFunction this (HashMap_new 23) kvs9 = Ok m9
                    ∧ represents mHashFunction m9 cs9
                    ∧ (mjoin cs9).*2 ≡ₚ kvs9
                    ∧ mNumEntries m9 = N.of_nat (length kvs9)
                    ∧ mSize m9 = 23%N) as Hnine.
  { intros kvs9 Hnd9 Hlen9.
    destruct (insert_all_same_capacity this kvs9 _ _ Hnew Hnd9)
      as (m9 & cs9 & Hall & Hrep9 & Hperm & Hn9 & Hs9).
    - intros k' _. rewrite join_replicate_nil. apply not_elem_of_nil.
    - cbn. unfold SIZE_T_MODULUS. lia.
    - cbn. lia.
    - rewrite join_replicate_nil in Hperm. exists m9, cs9.
      split; [done|]. split; [done|]. split; [exact Hperm|].
      split; [rewrite Hn9; cbn; lia | done]. }
  split.
  - intros Hlen. destruct (Hnine kvs Hnd Hlen) as (m9 & cs9 & Hall & _ & _ & _ & Hs9).
    eauto.
  - intros Hlen. pose proof (take_drop 9 kvs) as Hsplit.
    assert (length (take 9 kvs) = 9) as Hlen9 by (rewrite length_take; lia).
    remember (take 9 kvs) as kvs9 eqn:Hkvs9.
    rewrite <- Hsplit in Hnd |- *.
    rewrite fmap_app in Hnd. apply NoDup_app in Hnd as (Hnd9 & Hdisj & Hnd1).
    destruct (drop 9 kvs) as [|[k10 v10] [|]] eqn:Hdrop;
      try (apply (f_equal length) in Hdrop; rewrite length_drop in Hdrop; cbn in Hdrop; lia).
    destruct (Hnine kvs9 Hnd9) as (m9 & cs9 & Hall & Hrep9 & Hperm & Hn9 & Hs9); [lia|].
    rewrite Hlen9 in Hn9.
    destruct (insert_new_spec this m9 cs9 k10 v10 Hrep9) as (m10 & Hins10 & _ & Hs10 & _).
    { apply chain_lookup_None. rewrite Hperm. intros Hin. apply (Hdisj _ Hin).
      cbn. apply list_elem_of_here. }
    { rewrite Hn9. unfold SIZE_T_MODULUS. lia. }
    rewrite Hn9, Hs9 in Hs10.
    exists m9, m10. split; [done|]. split; [done|].
    rewrite insert_all_app, Hall. cbn. rewrite Hins10. cbn. done.
Qed.

(** *** What resize keeps *)

Lemma deref_found (this : N) m cs k it kv :
  represents mHashFunction m cs ->
  HashMap_find mHashFunction this m k = Ok it ->
  iterator_deref m it = Ok kv ->
  ∃ e, e ∈ mjoin cs ∧ e.2.1 = k ∧ e.2 = kv ∧ (mCurrentItem it).1 = Some e.1.
Proof.
  intros Hrep Hfind Hderef. rewrite (find_spec m cs Hrep) in Hfind.
  destruct (chain_lookup k (mjoin cs)) as [e|] eqn:Hk; injection Hfind as <-; [|done].
  apply chain_lookup_Some in Hk as [He Hek].
  rewrite (deref_entry m cs Hrep this e _ _ He) in Hderef. injection Hderef as <-.
  eauto.
Qed.

(** C3: [resize] to the current capacity returns the table as it is.
    [resize] of a table that satisfies the class invariant to another
    capacity of at least one returns a table of that capacity with
    [size()] unchanged and the same items at the same addresses: no item
    is allocated.  Every key [find] found is found again, at the same item
    and with the same pair, and every key [find] did not find is still not
    found.  The chain of each bucket holds, in the order the items were
    collected, the items whose key hashes to that bucket under the new
    capacity.  The loop body that puts an item back leaves the successor
    link of that item null, whatever it was, with the item at the tail of
    the chain of its bucket and with [mNumEntries] untouched. *)
Theorem resize_rehashes (this : N) (m : HashMap Key Value) (cs : list (list entry))
    (aNewSize : N) :
  represents mHashFunction m cs ->
  (1 <= aNewSize)%N -> (aNewSize < SIZE_T_MODULUS)%N ->
  (aNewSize = mSize m -> HashMap_resize mHashFunction m aNewSize = Ok m)
  ∧ (aNewSize ≠ mSize m ->
     ∃ m' : HashMap Key Value,
       HashMap_resize mHashFunction m aNewSize = Ok m'
       ∧ mSize m' = aNewSize
       ∧ HashMap_size m' = HashMap_size m
       ∧ dom (store m') = dom (store m)
       ∧ (∀ k it kv,
            HashMap_find mHashFunction this m k = Ok it ->
            iterator_deref m it = Ok kv ->
            ∃ it', HashMap_find mHashFunction this m' k = Ok it'
                   ∧ iterator_deref m' it' = Ok kv
                   ∧ (mCurrentItem it').1 = (mCurrentItem it).1)
       ∧ (∀ k, HashMap_find mHashFunction this m k = Ok HashMap_end ->
               HashMap_find mHashFunction this m' k = Ok HashMap_end)
       ∧ represents mHashFunction m' (rebucket mHashFunction aNewSize (mjoin cs)))
  ∧ (∀ (temporaryList : list N) (m1 : HashMap Key Value) (cs1 : list (list entry))
       (e : entry) (nx : option N),
       (0 < mSize m1)%N ->
       length cs1 = N.to_nat (mSize m1) ->
       mBuckets m1 = chain_head <$> cs1 ->
       Forall (linked (store m1)) cs1 ->
       NoDup (mjoin cs1).*1 ->
       e.1 ∉ (mjoin cs1).*1 ->
       store m1 !! e.1 = Some (mk_Item e.2 nx) ->
       (nx = None ∨ ∃ s, nx = Some s ∧ s ∈ temporaryList) ->
       ∃ m2 : HashMap Key Value,
         reinsert mHashFunction temporaryList m1 e.1 = Ok m2
         ∧ store m2 !! e.1 = Some (mk_Item e.2 None)
         ∧ mNumEntries m2 = mNumEntries m1
         ∧ mBuckets m2
           = chain_head <$> append_entry
               (N.to_nat (bucket_index mHashFunction (mSize m1) e)) e cs1
         ∧ Forall (linked (store m2))
             (append_entry (N.to_nat (bucket_index mHashFunction (mSize m1) e)) e cs1)).
Proof.
  intros Hrep Hpos Hfit. split; [|split].
  - intros ->. unfold HashMap_resize. by rewrite N.eqb_refl.
  - intros Hne.
    destruct (resize_spec m cs aNewSize Hrep) as (m' & Hr & Hrep' & Hs & Hn & Hdom & _);
      [lia | done | done |].
    assert (mjoin (rebucket mHashFunction aNewSize (mjoin cs)) ≡ₚ mjoin cs) as Hperm
      by (apply rebucket_join; lia).
    exists m'. split; [done|]. split; [done|]. split; [done|]. split; [done|].
    split; [|split; [|done]].
    + intros k it kv Hfind Hderef.
      destruct (deref_found this m cs k it kv Hrep Hfind Hderef) as (e & He & Hek & <- & Hit).
      destruct (find_stored this m' _ k e.2.2 Hrep') as (it' & Hfind' & Hderef' & _).
      { rewrite Hperm, <- Hek. rewrite <- surjective_pairing. by apply list_elem_of_fmap_2. }
      exists it'. rewrite <- Hek, <- surjective_pairing in Hderef'.
      split; [done|]. split; [done|].
      destruct (deref_found this m' _ k it' e.2 Hrep' Hfind' Hderef')
        as (e' & He' & Hek' & Hkv' & ->).
      rewrite Hit. f_equal. rewrite Hperm in He'.
      pose proof (rep_keys _ _ _ Hrep) as Hkeys.
      assert (chain_lookup k (mjoin cs) = Some e) as H1
        by (by apply chain_lookup_unique).
      assert (chain_lookup k (mjoin cs) = Some e') as H2
        by (by apply chain_lookup_unique).
      congruence.
    + intros k Hfind. rewrite (find_spec m cs Hrep) in Hfind.
      destruct (chain_lookup k (mjoin cs)) as [e|] eqn:Hk; [done|].
      apply (find_absent this m' _ k Hrep'). rewrite Hperm.
      by apply chain_lookup_None.
  - intros tmp m1 cs1 e nx H1 H2 H3 H4 H5 H6 H7 H8.
    destruct (reinsert_spec tmp m1 cs1 e nx H1 H2 H3 H4 H5 H6 H7 H8)
      as (m2 & Hr & _ & Hn & Hb & Hl & _ & Hst & _).
    exists m2. done.
Qed.

(** *** The cursor insert returns when it resizes *)

Lemma insert_new_result (this : N) m cs k v :
  represents mHashFunction m cs ->
  (3 * (mNumEntries m + 1) + 5 < SIZE_T_MODULUS)%N ->
  chain_lookup k (mjoin cs) = None ->
  ∃ m' cs',
    HashMap_insert mHashFunction this m (k, v)
    = Ok (mk_iterator (Some (fresh (dom (store m))), (mHashFunction k mod mSize m)%N)
            (Some this), false, m')
    ∧ mSize m' = (if over_threshold (mNumEntries m + 1) (mSize m)
                  then 3 * (mNumEntries m + 1) + 5 else mSize m)%N
    ∧ represents mHashFunction m' cs'
    ∧ mjoin cs' ≡ₚ mjoin cs ++ [(fresh (dom (store m)), (k, v))].
Proof.
  intros Hrep Hfit Hnone.
  destruct (insert_new_spec this m cs k v Hrep Hnone Hfit) as (m1 & Hins1 & Hrep1 & Hs1 & _).
  eexists m1, _. split; [exact Hins1|]. split; [done|]. split; [exact Hrep1|].
  assert (N.to_nat (mHashFunction k mod mSize m) < length cs) as Hj
    by apply (rep_bucket_in_range m cs Hrep).
  destruct (over_threshold (mNumEntries m + 1) (mSize m)).
  - rewrite rebucket_join by lia. by apply append_entry_join.
  - by apply append_entry_join.
Qed.

Lemma stale_cursor_example :
  ∃ (m9 m10 : HashMap N N) (it it' : iterator),
    insert_all integer_hash 1 (HashMap_new 23) (multiples_of_23 9) = Ok m9
    ∧ HashMap_insert integer_hash 1 m9 (207, 109)%N = Ok (it, false, m10)
    ∧ mSize m10 = 35%N
    ∧ HashMap_find integer_hash 1 m10 207%N = Ok it'
    ∧ mCurrentItem it = (Some 9%N, 0%N)
    ∧ mCurrentItem it' = (Some 9%N, 32%N)
    ∧ iterator_eq it it' = false.
Proof.
  eexists _, _, _, _.
  split; [vm_compute; reflexivity|].
  split; [vm_compute; reflexivity|].
  split; [vm_compute; reflexivity|].
  split; [vm_compute; reflexivity|].
  split; [vm_compute; reflexivity|].
  split; vm_compute; reflexivity.
Qed.

(** C9: on a table that satisfies the class invariant, an [insert] of a
    key that [find] does not find, with the count such that the table is
    resized, returns a cursor that holds the address of the new item, from
    which it dereferences to the inserted pair, and the bucket position
    [hash( key ) % mSize] taken with the capacity before the resize.
    [find] of the key on the resized table returns a cursor at the same
    item with the position taken with the new capacity, so the two cursors
    compare equal exactly when the two positions agree; with the tenth
    multiple of 23 inserted into a table of capacity 23 they are 0 and 32
    and the cursors compare unequal. *)
Theorem insert_cursor_keeps_old_bucket (this : N) (m : HashMap Key Value) (k : Key)
    (v : Value) :
  wf mHashFunction m ->
  (3 * (mNumEntries m + 1) + 5 < SIZE_T_MODULUS)%N ->
  HashMap_find mHashFunction this m k = Ok HashMap_end ->
  over_threshold (mNumEntries m + 1) (mSize m) = true ->
  (∃ (it : iterator) (m' : HashMap Key Value),
     HashMap_insert mHashFunction this m (k, v) = Ok (it, false, m')
     ∧ mSize m' = (3 * (mNumEntries m + 1) + 5)%N
     ∧ mCurrentItem it
       = (Some (fresh (dom (store m))), (mHashFunction k mod mSize m)%N)
     ∧ store m !! fresh (dom (store m)) = None
     ∧ iterator_deref m' it = Ok (k, v)
     ∧ ∃ it', HashMap_find mHashFunction this m' k = Ok it'
              ∧ mCurrentItem it'
                = (Some (fresh (dom (store m))), (mHashFunction k mod mSize m')%N)
              ∧ (iterator_eq it it' = true
                 <-> (mHashFunction k mod mSize m = mHashFunction k mod mSize m')%N))
  ∧ (∃ (m9 m10 : HashMap N N) (it9 it10 : iterator),
       insert_all integer_hash 1 (HashMap_new 23) (multiples_of_23 9) = Ok m9
       ∧ HashMap_insert integer_hash 1 m9 (207, 109)%N = Ok (it9, false, m10)
       ∧ mSize m10 = 35%N
       ∧ HashMap_find integer_hash 1 m10 207%N = Ok it10
       ∧ mCurrentItem it9 = (Some 9%N, 0%N)
       ∧ mCurrentItem it10 = (Some 9%N, 32%N)
       ∧ iterator_eq it9 it10 = false).
Proof.
  intros [cs Hrep] Hfit Hfind Hover.
  pose proof (find_end_absent this m cs k Hrep Hfind) as Hnone.
  destruct (insert_new_result this m cs k v Hrep Hfit Hnone)
    as (m' & cs' & Hins & Hs & Hrep' & Hperm).
  rewrite Hover in Hs.
  assert ((fresh (dom (store m)), (k, v)) ∈ mjoin cs') as He.
  { rewrite Hperm. apply elem_of_app. right. apply list_elem_of_here. }
  split; [|apply stale_cursor_example].
  eexists _, m'. split; [exact Hins|].
  split; [done|]. split; [done|].
  split; [apply not_elem_of_dom, is_fresh|].
  split; [apply (deref_entry m' cs' Hrep' this _ _ _ He)|].
  rewrite (find_spec m' cs' Hrep').
  rewrite (chain_lookup_unique k (mjoin cs') _ (rep_keys _ _ _ Hrep') He eq_refl).
  eexists. split; [done|]. cbn. split; [done|].
  unfold iterator_eq. rewrite ItemPair_eq_iff. cbn. split; [by intros [_ ?] | done].
Qed.

(** *** Advancing a cursor *)

Lemma first_item_drop_Some (buckets : list (option N)) (start n : nat) (q : N) :
  start ≤ n ->
  buckets !! n = Some (Some q) ->
  (∀ n', start ≤ n' -> n' < n -> buckets !! n' = Some None) ->
  first_item (drop start buckets) (N.of_nat start) = Some (Some q, N.of_nat n).
Proof.
  intros Hle Hn Hbefore. apply first_item_Some. exists (n - start), q.
  split; [f_equal; lia|]. split.
  - rewrite lookup_drop. by replace (start + (n - start)) with n by lia.
  - intros n' Hn'. rewrite lookup_drop. apply Hbefore; lia.
Qed.

Lemma first_item_drop_None (buckets : list (option N)) (start : nat) (i0 : N) :
  (∀ n', start ≤ n' -> n' < length buckets -> buckets !! n' = Some None) ->
  first_item (drop start buckets) i0 = None.
Proof.
  intros Hall. apply first_item_None. intros n Hn. rewrite length_drop in Hn.
  rewrite lookup_drop. apply Hall; lia.
Qed.

Lemma first_item_position (buckets : list (option N)) (i0 : N) (q : ItemPair) :
  first_item buckets i0 = Some q -> (q.2 < i0 + N.of_nat (length buckets))%N.
Proof.
  intros (n & p & -> & Hn & _)%first_item_Some. cbn.
  apply lookup_lt_Some in Hn. lia.
Qed.

(** The scan of the specification, over the positions greater than [j],
    finds the bucket the scan of the source finds from the position after
    [j]. *)
Lemma scan_beyond (buckets : list (option N)) (j : N) (o : nat) :
  N.to_nat j < o ->
  (fun x : nat * (N * option N) => (x.2.2, x.2.1))
    <$> list_find (fun ib : N * option N => (j < ib.1)%N ∧ is_Some ib.2)
          (imap (fun i b => (N.of_nat (o + i), b)) buckets)
  = first_item buckets (N.of_nat o).
Proof.
  revert o. induction buckets as [|b buckets IH]; intros o Ho; [done|].
  rewrite imap_cons. cbn [list_find]. rewrite Nat.add_0_r. cbn [fst snd].
  destruct b as [p|]; cbn [first_item].
  - by rewrite decide_True by (split; [lia | by eexists]).
  - rewrite decide_False by (by intros [_ [? ?]]).
    rewrite <- option_fmap_compose.
    rewrite (imap_ext _ (fun i b0 => (N.of_nat (S o + i), b0))).
    2:{ intros i x _. cbn. do 2 f_equal. lia. }
    replace (N.of_nat o + 1)%N with (N.of_nat (S o)) by lia.
    rewrite <- IH by lia. by destruct (list_find _ _) as [[? [? ?]]|].
Qed.

Lemma scan_agrees (buckets : list (option N)) (j : N) (o : nat) :
  o ≤ N.to_nat j + 1 ->
  (fun x : nat * (N * option N) => (x.2.2, x.2.1))
    <$> list_find (fun ib : N * option N => (j < ib.1)%N ∧ is_Some ib.2)
          (imap (fun i b => (N.of_nat (o + i), b)) buckets)
  = first_item (drop (N.to_nat j + 1 - o) buckets) (j + 1)%N.
Proof.
  revert o. induction buckets as [|b buckets IH]; intros o Ho.
  - by rewrite drop_nil.
  - destruct (decide (o = N.to_nat j + 1)) as [->|Hne].
    + rewrite Nat.sub_diag. cbn [drop]. rewrite scan_beyond by lia.
      f_equal. lia.
    + rewrite imap_cons. cbn [list_find]. rewrite Nat.add_0_r. cbn [fst snd].
      rewrite decide_False by (intros [? _]; lia).
      rewrite <- option_fmap_compose.
      rewrite (imap_ext _ (fun i b0 => (N.of_nat (S o + i), b0))).
      2:{ intros i x _. cbn. do 2 f_equal. lia. }
      replace (N.to_nat j + 1 - o) with (S (N.to_nat j + 1 - S o)) by lia.
      cbn [drop]. rewrite <- IH by lia. by destruct (list_find _ _) as [[? [? ?]]|].
Qed.

Lemma findNext_getNextItem (m : HashMap Key Value) (aItemPair : ItemPair) :
  (aItemPair.2 + 1 < SIZE_T_MODULUS)%N ->
  HashMap_findNext m aItemPair = HashMap_getNextItem m aItemPair.
Proof.
  intros Hfit. unfold HashMap_findNext, HashMap_getNextItem.
  destruct aItemPair.1 as [p|]; [|done].
  destruct (deref (store m) p) as [it|f]; [|done]. cbn.
  destruct (mNext it) as [n|]; [done|].
  rewrite (wrap_small _ Hfit).
  pose proof (scan_agrees (mBuckets m) aItemPair.2 0 ltac:(lia)) as Hscan.
  rewrite Nat.sub_0_r in Hscan. cbn [Nat.add] in Hscan.
  replace (N.to_nat (aItemPair.2 + 1)) with (N.to_nat aItemPair.2 + 1) by lia.
  rewrite <- Hscan. by destruct (list_find _ _) as [[? [? ?]]|].
Qed.

Lemma getNextItem_position (m : HashMap Key Value) (aItemPair q : ItemPair) :
  (aItemPair.2 + 1 < SIZE_T_MODULUS)%N ->
  (N.of_nat (length (mBuckets m)) < SIZE_T_MODULUS)%N ->
  HashMap_getNextItem m aItemPair = Ok q ->
  (q.2 + 1 < SIZE_T_MODULUS)%N.
Proof.
  intros Hfit Hlen. unfold HashMap_getNextItem.
  destruct aItemPair.1 as [p|]; [|done].
  destruct (deref (store m) p) as [it|f]; [|done]. cbn.
  destruct (mNext it) as [n|]; [by intros [= <-]|].
  rewrite (wrap_small _ Hfit).
  destruct (first_item _ _) as [q'|] eqn:Hfirst; intros [= <-]; [|done].
  apply first_item_Some in Hfirst as (n & p' & -> & Hn & _). cbn.
  apply lookup_lt_Some in Hn. rewrite length_drop in Hn. lia.
Qed.

Lemma visit_agrees (m : HashMap Key Value) (fuel : nat) (it : iterator) :
  (N.of_nat (length (mBuckets m)) < SIZE_T_MODULUS)%N ->
  ((mCurrentItem it).2 + 1 < SIZE_T_MODULUS)%N ->
  visit fuel m it = const_visit fuel m (const_iterator_of it).
Proof.
  intros Hlen. revert it. induction fuel as [|fuel IH]; intros it Hfit.
  - done.
  - cbn [visit const_visit].
    change (const_iterator_eq (const_iterator_of it) HashMap_end_const)
      with (iterator_eq it HashMap_end).
    destruct (iterator_eq it HashMap_end); [done|].
    unfold iterator_incr, const_iterator_incr. cbn [const_iterator_of const_mParent
      const_mCurrentItem].
    destruct (mParent it) as [parent|]; [|done].
    rewrite (findNext_getNextItem m _ Hfit).
    destruct (HashMap_getNextItem m (mCurrentItem it)) as [q|f] eqn:Hnext; [|done].
    cbn. rewrite (IH (mk_iterator q (Some parent)))
      by (by apply (getNextItem_position m (mCurrentItem it))).
    done.
Qed.

(** *** A loop over the whole table *)

Lemma linked_middle h l1 e l2 :
  linked h (l1 ++ e :: l2) -> h !! e.1 = Some (mk_Item e.2 (chain_head l2)).
Proof. intros Hl. apply linked_app_l in Hl. by destruct Hl. Qed.

Lemma positions_from_cons (first : nat) l cs :
  positions_from first (l :: cs)
  = ((fun e : entry => (Some e.1, N.of_nat first)) <$> l) ++ positions_from (S first) cs.
Proof.
  unfold positions_from. rewrite imap_cons. cbn. rewrite Nat.add_0_r. f_equal.
  f_equal. apply imap_ext. intros i x _. cbn.
  by replace (first + S i) with (S (first + i)) by lia.
Qed.

Lemma positions_from_length (first : nat) cs :
  length (positions_from first cs) = length (mjoin cs).
Proof.
  revert first. induction cs as [|l cs IH]; intros first; [done|].
  rewrite positions_from_cons. cbn. by rewrite !length_app, length_fmap, IH.
Qed.

(** The scan over the heads of the chains [cs], which are those of the
    buckets from position [first] on. *)
Lemma first_item_heads (first : nat) cs :
  match first_item (chain_head <$> cs) (N.of_nat first) with
  | Some q =>
    ∃ k e l cs', cs = replicate k [] ++ (e :: l) :: cs'
                 ∧ q = (Some e.1, N.of_nat (first + k))
  | None => cs = replicate (length cs) []
  end.
Proof.
  revert first. induction cs as [|c cs IH]; intros first; [done|].
  destruct c as [|e l]; cbn.
  - replace (N.of_nat first + 1)%N with (N.of_nat (S first)) by lia.
    specialize (IH (S first)).
    destruct (first_item (chain_head <$> cs) (N.of_nat (S first))) as [q|].
    + destruct IH as (k & e & l & cs' & -> & ->).
      exists (S k), e, l, cs'. split; [done|]. do 2 f_equal. lia.
    + by rewrite <- IH.
  - exists 0, e, l, cs. rewrite Nat.add_0_r. done.
Qed.

Lemma positions_from_empty (first k : nat) cs :
  positions_from first (replicate k [] ++ cs) = positions_from (first + k) cs.
Proof.
  revert first. induction k as [|k IH]; intros first.
  - by rewrite Nat.add_0_r.
  - cbn [replicate app]. rewrite positions_from_cons. cbn. rewrite IH.
    f_equal. lia.
Qed.

Lemma drop_after_middle {A : Type} (l1 : list A) (x : A) (l2 : list A) :
  drop (S (length l1)) (l1 ++ x :: l2) = l2.
Proof. induction l1 as [|y l1 IH]; [done | apply IH]. Qed.

Lemma visit_step (this : N) m (fuel : nat) cs1 l1 e l2 cs2 :
  represents mHashFunction m (cs1 ++ (l1 ++ e :: l2) :: cs2) ->
  visit (S fuel) m (mk_iterator (Some e.1, N.of_nat (length cs1)) (Some this))
  = visit fuel m
      (mk_iterator
         (match l2 with
          | e' :: _ => (Some e'.1, N.of_nat (length cs1))
          | [] =>
            match first_item (chain_head <$> cs2) (N.of_nat (S (length cs1))) with
            | Some q => q
            | None => (None, 0%N)
            end
          end) (Some this))
    ≫= λ rest, Ok ((Some e.1, N.of_nat (length cs1)) :: rest).
Proof.
  intros Hrep.
  pose proof (rep_length _ _ _ Hrep) as Hlen.
  pose proof (rep_size_fits _ _ _ Hrep) as Hfits.
  rewrite length_app in Hlen. cbn [length] in Hlen.
  assert ((cs1 ++ (l1 ++ e :: l2) :: cs2) !! length cs1 = Some (l1 ++ e :: l2)) as Hj
    by (by rewrite list_lookup_middle).
  pose proof (linked_middle _ _ _ _ (rep_chain_linked m _ Hrep _ _ Hj)) as Hst.
  cbn [visit]. unfold iterator_eq at 1. cbn [mCurrentItem HashMap_end]. unfold ItemPair_eq.
  cbn [fst snd]. rewrite bool_decide_eq_false_2 by done. cbn [andb].
  unfold iterator_incr. cbn [mParent mCurrentItem].
  rewrite findNext_getNextItem by (cbn; lia).
  unfold HashMap_getNextItem. cbn [fst snd].
  rewrite (deref_Ok _ _ _ Hst). cbn [mbind result_bind mNext].
  destruct l2 as [|e' l2]; [|done].
  cbn [chain_head head fmap option_fmap option_map].
  rewrite wrap_small by lia.
  replace (N.to_nat (N.of_nat (length cs1) + 1)) with (S (length cs1)) by lia.
  replace (N.of_nat (length cs1) + 1)%N with (N.of_nat (S (length cs1))) by lia.
  rewrite (rep_buckets _ _ _ Hrep), <- fmap_drop, drop_after_middle.
  by destruct (first_item (chain_head <$> cs2) (N.of_nat (S (length cs1)))).
Qed.

Lemma visit_end m (fuel : nat) (parent : option N) :
  visit fuel m (mk_iterator (None, 0%N) parent) = Ok [].
Proof. by destruct fuel. Qed.

Lemma visit_from_entry (this : N) m (fuel : nat) cs1 l1 e l2 cs2 :
  represents mHashFunction m (cs1 ++ (l1 ++ e :: l2) :: cs2) ->
  length l2 + length (mjoin cs2) < fuel ->
  visit fuel m (mk_iterator (Some e.1, N.of_nat (length cs1)) (Some this))
  = Ok ((Some e.1, N.of_nat (length cs1))
        :: ((fun e' : entry => (Some e'.1, N.of_nat (length cs1))) <$> l2)
        ++ positions_from (S (length cs1)) cs2).
Proof.
  remember (length cs2) as n eqn:Hn. assert (length cs2 ≤ n) as Hle by lia. clear Hn.
  revert cs2 Hle fuel cs1 l1 e l2.
  induction n as [|n IHn]; intros cs2 Hle fuel cs1 l1 e l2; revert fuel l1 e;
    (induction l2 as [|e' l2 IHl]; intros fuel l1 e Hrep Hfuel;
     (destruct fuel as [|fuel]; [lia|]); rewrite (visit_step this m fuel _ _ _ _ _ Hrep)).
  - destruct cs2; [|cbn in Hle; lia]. cbn. by rewrite visit_end.
  - rewrite (IHl fuel (l1 ++ [e]) e'); [done | by rewrite <- app_assoc | cbn in Hfuel; lia].
  - pose proof (first_item_heads (S (length cs1)) cs2) as Hscan.
    destruct (first_item (chain_head <$> cs2) (N.of_nat (S (length cs1)))) as [q|].
    + destruct Hscan as (k & e0 & l0 & cs3 & -> & ->).
      rewrite positions_from_empty, positions_from_cons.
      rewrite length_app, length_replicate in Hle. cbn in Hle.
      specialize (IHn cs3 ltac:(lia) fuel
                    (cs1 ++ (l1 ++ [e]) :: replicate k []) [] e0 l0).
      rewrite length_app in IHn. cbn [length] in IHn. rewrite length_replicate in IHn.
      replace (length cs1 + S k) with (S (length cs1) + k) in IHn by lia.
      rewrite IHn; [done | | ].
      * by rewrite <- app_assoc.
      * rewrite join_app, join_replicate_nil in Hfuel.
        change (mjoin ((e0 :: l0) :: cs3)) with ((e0 :: l0) ++ mjoin cs3) in Hfuel.
        cbn in Hfuel. rewrite length_app in Hfuel. lia.
    + rewrite Hscan, visit_end. cbn.
      rewrite <- (app_nil_r (replicate _ _)), positions_from_empty. done.
  - rewrite (IHl fuel (l1 ++ [e]) e'); [done | by rewrite <- app_assoc | cbn in Hfuel; lia].
Qed.

Lemma visit_all (this : N) m cs (fuel : nat) :
  represents mHashFunction m cs ->
  length (mjoin cs) ≤ fuel ->
  HashMap_begin this m ≫= visit fuel m = Ok (positions cs).
Proof.
  intros Hrep Hfuel. unfold HashMap_begin, HashMap_getFirstItem, HashMap_empty, positions.
  pose proof (rep_count _ _ _ Hrep) as Hcount.
  destruct (N.eqb_spec (mNumEntries m) 0) as [Hz|Hnz].
  - cbn. rewrite visit_end. f_equal. symmetry. apply nil_length_inv.
    rewrite positions_from_length. lia.
  - rewrite (rep_buckets _ _ _ Hrep).
    pose proof (first_item_heads 0 cs) as Hscan.
    change (N.of_nat 0) with 0%N in Hscan.
    destruct (first_item (chain_head <$> cs) 0) as [q|].
    + destruct Hscan as (k & e & l & cs' & -> & ->). cbn [mbind result_bind Nat.add].
      rewrite positions_from_empty, positions_from_cons. cbn [Nat.add].
      pose proof (visit_from_entry this m fuel (replicate k []) [] e l cs') as Hvisit.
      rewrite length_replicate in Hvisit. cbn [app] in Hvisit.
      rewrite Hvisit; [done | done |].
      rewrite join_app, join_replicate_nil in Hfuel.
      change (mjoin ((e :: l) :: cs')) with ((e :: l) ++ mjoin cs') in Hfuel.
      cbn in Hfuel. rewrite length_app in Hfuel. lia.
    + exfalso. apply Hnz. rewrite Hcount, Hscan, join_replicate_nil. done.
Qed.

(** C6: on a cursor that has a parent table, is at an item of that table
    and holds a bucket position below the largest [size_t], the increment
    of the mutable cursor and the increment of the read-only cursor move
    to the same position and keep the parent.  If the item has a successor
    the new position is the successor with the bucket position unchanged;
    otherwise it is the chain head of the first non-empty bucket among
    the positions greater than the current one, in increasing order; if
    there is no such bucket it is the position of [end()], and the cursor
    compares equal to [end()].  A loop from [begin()] to [end()] visits
    the same positions in the same order with either kind of cursor. *)
Theorem increments_agree (m : HashMap Key Value) (it : iterator) (parent p : N)
    (item : Item Key Value) :
  mParent it = Some parent ->
  (mCurrentItem it).1 = Some p ->
  store m !! p = Some item ->
  ((mCurrentItem it).2 + 1 < SIZE_T_MODULUS)%N ->
  (∃ it' : iterator,
     iterator_incr m it = Ok it'
     ∧ const_iterator_incr m (const_iterator_of it) = Ok (const_iterator_of it')
     ∧ mParent it' = mParent it
     ∧ (∀ n, mNext item = Some n ->
             mCurrentItem it' = (Some n, (mCurrentItem it).2))
     ∧ (mNext item = None ->
        ∀ (i : nat) (q : N),
          (N.to_nat (mCurrentItem it).2 < i) ->
          mBuckets m !! i = Some (Some q) ->
          (∀ i', N.to_nat (mCurrentItem it).2 < i' -> i' < i ->
                 mBuckets m !! i' = Some None) ->
          mCurrentItem it' = (Some q, N.of_nat i))
     ∧ (mNext item = None ->
        (∀ i', N.to_nat (mCurrentItem it).2 < i' -> i' < length (mBuckets m) ->
               mBuckets m !! i' = Some None) ->
        mCurrentItem it' = mCurrentItem HashMap_end
        ∧ iterator_eq it' HashMap_end = true
        ∧ const_iterator_eq (const_iterator_of it') HashMap_end_const = true))
  ∧ (∀ (this : N) (fuel : nat),
       (N.of_nat (length (mBuckets m)) < SIZE_T_MODULUS)%N ->
       (HashMap_begin this m ≫= visit fuel m)
       = (HashMap_begin this m ≫= λ b, const_visit fuel m (const_iterator_of b)))
  ∧ (∀ (cs : list (list entry)) (this : N) (fuel : nat),
       represents mHashFunction m cs ->
       length (mjoin cs) ≤ fuel ->
       HashMap_begin this m ≫= visit fuel m = Ok (positions cs)
       ∧ (HashMap_begin this m ≫= λ b, const_visit fuel m (const_iterator_of b))
         = Ok (positions cs)
       ∧ N.of_nat (length (positions cs)) = HashMap_size m).
Proof.
  intros Hparent Hp Hitem Hfit.
  assert (∀ (this : N) (fuel : nat),
            (N.of_nat (length (mBuckets m)) < SIZE_T_MODULUS)%N ->
            (HashMap_begin this m ≫= visit fuel m)
            = (HashMap_begin this m ≫= λ b, const_visit fuel m (const_iterator_of b)))
    as Hsame; [|split; [|split; [exact Hsame|]]].
  3:{ intros cs this fuel Hrep Hfuel.
      pose proof (visit_all this m cs fuel Hrep Hfuel) as Hall.
      split; [exact Hall|]. split.
      - rewrite <- Hsame; [exact Hall|].
        rewrite (rep_buckets _ _ _ Hrep), length_fmap, (rep_length _ _ _ Hrep).
        pose proof (rep_size_fits _ _ _ Hrep). lia.
      - unfold positions, HashMap_size.
        by rewrite positions_from_length, (rep_count _ _ _ Hrep). }
  2:{
    unfold iterator_incr, const_iterator_incr.
    cbn [const_iterator_of const_mParent const_mCurrentItem].
    rewrite Hparent, (findNext_getNextItem m _ Hfit).
    unfold HashMap_getNextItem. rewrite Hp, (deref_Ok _ _ _ Hitem). cbn.
    rewrite (wrap_small _ Hfit).
    replace (N.to_nat ((mCurrentItem it).2 + 1)) with (S (N.to_nat (mCurrentItem it).2))
      by lia.
    replace ((mCurrentItem it).2 + 1)%N with (N.of_nat (S (N.to_nat (mCurrentItem it).2)))
      by lia.
    destruct (mNext item) as [n|] eqn:Hnext.
    + eexists. split; [done|]. split; [done|]. split; [done|].
      split; [by intros n' [= <-]|]. split; done.
    + destruct (first_item _ _) as [q'|] eqn:Hfirst.
      * eexists. split; [done|]. split; [done|]. split; [done|].
        split; [done|]. cbn. split.
        -- intros _ i q Hi Hq Hbefore.
           rewrite (first_item_drop_Some _ _ i q) in Hfirst; [| lia | done |].
           ++ by injection Hfirst as <-.
           ++ intros i' ? ?. apply Hbefore; lia.
        -- intros _ Hall. rewrite first_item_drop_None in Hfirst; [done|].
           intros i' ? ?. apply Hall; [lia | done].
      * eexists. split; [done|]. split; [done|]. split; [done|].
        split; [done|]. cbn. split; [|done].
        intros _ i q Hi Hq Hbefore.
        rewrite (first_item_drop_Some _ _ i q) in Hfirst; [done | lia | done |].
        intros i' ? ?. apply Hbefore; lia. }
  intros this fuel Hlen. unfold HashMap_begin.
    destruct (HashMap_getFirstItem m) as [q|f] eqn:Hq; [|done]. cbn.
    apply visit_agrees; [done|]. cbn.
    unfold HashMap_getFirstItem in Hq. destruct (HashMap_empty m).
    + injection Hq as <-. cbn. unfold SIZE_T_MODULUS. lia.
    + destruct (first_item (mBuckets m) 0) as [q'|] eqn:Hfirst; [|done].
      injection Hq as <-. apply first_item_position in Hfirst. lia.
Qed.

(** ** Further facts about the table *)

(** *** The growth test *)

(** X1: for a count and a capacity that are [size_t] values, the capacity
    not zero, the test of [insert] on the quotient of their doubles
    succeeds exactly when the quotient of the two integers exceeds four
    tenths, which is when twice the capacity is less than five times the
    count: the rounding of the conversion and of the division never
    changes the outcome. *)
Theorem growth_test_exact (numEntries size : N) :
  (numEntries < SIZE_T_MODULUS)%N ->
  (0 < size)%N -> (size < SIZE_T_MODULUS)%N ->
  (over_threshold numEntries size = true <-> (2 * size < 5 * numEntries)%N)
  ∧ (over_threshold numEntries size = true
     <-> Qlt four_tenths (load_factor numEntries size))
  ∧ (over_threshold numEntries size = false
     <-> Qle (load_factor numEntries size) four_tenths).
Proof.
  intros Hn Hpos Hs.
  pose proof (over_threshold_iff numEntries size Hn (conj Hpos Hs)) as Hiff.
  split; [exact Hiff|]. split.
  - by rewrite load_factor_gt.
  - rewrite load_factor_le by done. rewrite <- not_true_iff_false, Hiff. lia.
Qed.

(** *** The entry of a key *)

Lemma NoDup_fmap_agree {A B : Type} (f : A -> B) (l : list A) (x y : A) :
  NoDup (f <$> l) -> x ∈ l -> y ∈ l -> f x = f y -> x = y.
Proof.
  induction l as [|z l IH]; cbn; [by intros _ ?%elem_of_nil|].
  intros [Hz Hnd]%NoDup_cons [->|Hx]%elem_of_cons [->|Hy]%elem_of_cons Heq;
    [done| | |by apply IH].
  - exfalso. apply Hz. rewrite Heq. by apply list_elem_of_fmap_2.
  - exfalso. apply Hz. rewrite <- Heq. by apply list_elem_of_fmap_2.
Qed.

Lemma chain_lookup_perm k l l' :
  NoDup l.*2.*1 -> l ≡ₚ l' -> chain_lookup k l = chain_lookup k l'.
Proof.
  intros Hnd Hperm. assert (NoDup l'.*2.*1) as Hnd' by (by rewrite <- Hperm).
  destruct (chain_lookup k l) as [e|] eqn:Hl.
  - apply chain_lookup_Some in Hl as [He Hk]. symmetry.
    apply chain_lookup_unique; [done | by rewrite <- Hperm | done].
  - symmetry. apply chain_lookup_None. rewrite <- Hperm. by apply chain_lookup_None.
Qed.

Lemma chain_lookup_snoc k l e :
  chain_lookup k (l ++ [e])
  = match chain_lookup k l with
    | Some e' => Some e'
    | None => if decide (e.2.1 = k) then Some e else None
    end.
Proof.
  induction l as [|e' l IH]; cbn.
  - by destruct (decide (e.2.1 = k)).
  - destruct (decide (e'.2.1 = k)); [done | apply IH].
Qed.

(** What [insert] of [(k, v)] does to the entry of each key: the entry of
    [k] is at the item that held [k], or at a new item, with the value
    [v], and the entry of every other key is as before. *)
Lemma insert_lookup_spec (this : N) m cs k v :
  represents mHashFunction m cs ->
  (3 * (mNumEntries m + 1) + 5 < SIZE_T_MODULUS)%N ->
  ∃ (a : N) (m' : HashMap Key Value) (cs' : list (list entry)),
    let present := bool_decide (is_Some (chain_lookup k (mjoin cs))) in
    HashMap_insert mHashFunction this m (k, v)
    = Ok (mk_iterator (Some a, (mHashFunction k mod mSize m)%N) (Some this),
          present, m')
    ∧ represents mHashFunction m' cs'
    ∧ a = match chain_lookup k (mjoin cs) with
          | Some e => e.1
          | None => fresh (dom (store m))
          end
    ∧ chain_lookup k (mjoin cs') = Some (a, (k, v))
    ∧ (∀ k', k' ≠ k -> chain_lookup k' (mjoin cs') = chain_lookup k' (mjoin cs))
    ∧ mNumEntries m' = (mNumEntries m + if present then 0 else 1)%N
    ∧ mSize m' = (if negb present && over_threshold (mNumEntries m + 1) (mSize m)
                  then 3 * (mNumEntries m + 1) + 5 else mSize m)%N.
Proof.
  intros Hrep Hfit.
  destruct (chain_lookup k (mjoin cs)) as [e|] eqn:Hk.
  - destruct (insert_update_spec this m cs k v e Hrep Hk) as (n & Hst & Hins & Hrep').
    destruct (chain_lookup_Some _ _ _ Hk) as [He Hek].
    eexists e.1, _, _. cbn zeta. rewrite bool_decide_true by eauto.
    split; [exact Hins|]. split; [exact Hrep'|]. split; [done|].
    rewrite overwrite_join. split; [|split; [|split; [cbn; lia | done]]].
    + rewrite chain_lookup_set_value, Hk. cbn. unfold set_value.
      by rewrite decide_True, Hek.
    + intros k' Hne. rewrite chain_lookup_set_value.
      destruct (chain_lookup k' (mjoin cs)) as [e'|] eqn:Hk'; [|done].
      destruct (chain_lookup_Some _ _ _ Hk') as [He' Hek']. cbn. f_equal.
      unfold set_value. rewrite decide_False; [done|]. intros Heq.
      apply Hne. rewrite <- Hek, <- Hek'. f_equal. f_equal.
      by apply (NoDup_fmap_agree fst (mjoin cs) e' e (rep_addresses _ _ _ Hrep)).
  - destruct (insert_new_spec this m cs k v Hrep Hk Hfit) as (m' & Hins & Hrep' & Hs & Hn).
    assert (N.to_nat (mHashFunction k mod mSize m) < length cs) as Hj
      by apply (rep_bucket_in_range m cs Hrep).
    pose proof (append_entry_join cs _ (fresh (dom (store m)), (k, v)) Hj) as Hperm1.
    assert (∀ cs', represents mHashFunction m' cs' ->
              mjoin cs' ≡ₚ mjoin cs ++ [(fresh (dom (store m)), (k, v))] ->
              chain_lookup k (mjoin cs') = Some (fresh (dom (store m)), (k, v))
              ∧ ∀ k', k' ≠ k -> chain_lookup k' (mjoin cs') = chain_lookup k' (mjoin cs))
      as Hlook.
    { intros cs' Hrep1 Hperm.
      assert (∀ k', chain_lookup k' (mjoin cs')
                    = chain_lookup k' (mjoin cs ++ [(fresh (dom (store m)), (k, v))]))
        as Heq by (intros k'; apply chain_lookup_perm;
                   [apply (rep_keys _ _ _ Hrep1) | exact Hperm]).
      split.
      - rewrite Heq, chain_lookup_snoc, Hk. cbn. by rewrite decide_True.
      - intros k' Hne. rewrite Heq, chain_lookup_snoc.
        destruct (chain_lookup k' (mjoin cs)); [done|]. cbn. by rewrite decide_False. }
    cbn zeta in Hrep', Hs.
    eexists (fresh (dom (store m))), m', _. cbn zeta.
    rewrite bool_decide_false by (by intros [? ?]).
    split; [exact Hins|]. split; [exact Hrep'|]. split; [done|].
    destruct (Hlook _ Hrep') as [Hnew Hold].
    { destruct (over_threshold (mNumEntries m + 1) (mSize m)); [|done].
      by rewrite rebucket_join by lia. }
    split; [exact Hnew|]. split; [exact Hold|]. split; [cbn; lia | exact Hs].
Qed.

Lemma find_not_end (this : N) m cs k :
  represents mHashFunction m cs ->
  (∃ it, HashMap_find mHashFunction this m k = Ok it ∧ iterator_eq it HashMap_end = false)
  <-> is_Some (chain_lookup k (mjoin cs)).
Proof.
  intros Hrep. rewrite (find_spec m cs Hrep).
  destruct (chain_lookup k (mjoin cs)) as [e|].
  - split; [eauto|]. intros _. eexists. split; done.
  - split; [|by intros [? ?]]. intros (it & [= <-] & Hne). done.
Qed.

(** The capacity and the load factor across one [insert]. *)
Lemma insert_capacity_spec m cs (present : bool) (n' s' : N) :
  represents mHashFunction m cs ->
  (3 * (mNumEntries m + 1) + 5 < SIZE_T_MODULUS)%N ->
  n' = (mNumEntries m + if present then 0 else 1)%N ->
  s' = (if negb present && over_threshold (mNumEntries m + 1) (mSize m)
        then 3 * (mNumEntries m + 1) + 5 else mSize m)%N ->
  (mSize m <= s')%N
  ∧ ((5 * mNumEntries m <= 2 * mSize m)%N -> (5 * n' <= 2 * s')%N)
  ∧ (present = false -> (5 * n' <= 2 * s')%N).
Proof.
  intros Hrep Hfit -> ->.
  pose proof (rep_over_threshold m cs (mNumEntries m + 1) Hrep ltac:(lia)) as Hgrow.
  destruct present; cbn [negb andb]; [split; [lia|]; split; [lia|done]|].
  destruct (over_threshold (mNumEntries m + 1) (mSize m)).
  - pose proof (proj1 Hgrow eq_refl). lia.
  - assert (¬ (2 * mSize m < 5 * (mNumEntries m + 1))%N) by (intros ?%Hgrow; done). lia.
Qed.

(** X2: [insert] on a table that satisfies the class invariant returns,
    and the table it leaves satisfies the invariant.  The flag it returns
    is [true] exactly when [find] found the key before, in which case
    [size()] is as before, and otherwise [size()] is one more.  The
    capacity does not decrease.  The count is such that
    [3 * (mNumEntries + 1) + 5] is a [size_t]. *)
Theorem insert_keeps_invariant (this : N) (m : HashMap Key Value) (kv : Key * Value) :
  wf mHashFunction m ->
  (3 * (mNumEntries m + 1) + 5 < SIZE_T_MODULUS)%N ->
  ∃ (it : iterator) (updated : bool) (m' : HashMap Key Value),
    HashMap_insert mHashFunction this m kv = Ok (it, updated, m')
    ∧ wf mHashFunction m'
    ∧ (updated = true
       <-> ∃ it0, HashMap_find mHashFunction this m kv.1 = Ok it0
                  ∧ iterator_eq it0 HashMap_end = false)
    ∧ HashMap_size m' = (HashMap_size m + if updated then 0 else 1)%N
    ∧ (mSize m <= mSize m')%N.
Proof.
  intros [cs Hrep] Hfit. destruct kv as [k v].
  destruct (insert_lookup_spec this m cs k v Hrep Hfit)
    as (a & m' & cs' & Hins & Hrep' & _ & _ & _ & Hn & Hs).
  cbn zeta in Hins, Hn, Hs.
  eexists _, _, m'. split; [exact Hins|]. split; [by exists cs'|].
  split; [|split; [exact Hn|]].
  - cbn [fst]. rewrite (find_not_end this m cs k Hrep). by rewrite bool_decide_eq_true.
  - by destruct (insert_capacity_spec m cs _ _ _ Hrep Hfit Hn Hs) as [? _].
Qed.

(** X3: the cursor [insert] returns is at the item that holds the key,
    and dereferences to the pair passed in.  [find] of the key afterwards
    returns a cursor at the same item; it is the very cursor [insert]
    returned when the capacity is as before the call. *)
Theorem insert_cursor_at_key (this : N) (m : HashMap Key Value) (kv : Key * Value) :
  wf mHashFunction m ->
  (3 * (mNumEntries m + 1) + 5 < SIZE_T_MODULUS)%N ->
  ∃ (it : iterator) (updated : bool) (m' : HashMap Key Value) (it' : iterator),
    HashMap_insert mHashFunction this m kv = Ok (it, updated, m')
    ∧ iterator_deref m' it = Ok kv
    ∧ mParent it = Some this
    ∧ HashMap_find mHashFunction this m' kv.1 = Ok it'
    ∧ (mCurrentItem it').1 = (mCurrentItem it).1
    ∧ iterator_eq it' HashMap_end = false
    ∧ (mSize m' = mSize m -> it' = it).
Proof.
  intros [cs Hrep] Hfit. destruct kv as [k v].
  destruct (insert_lookup_spec this m cs k v Hrep Hfit)
    as (a & m' & cs' & Hins & Hrep' & _ & Hk & _).
  cbn zeta in Hins.
  eexists _, _, m', _. split; [exact Hins|].
  destruct (chain_lookup_Some _ _ _ Hk) as [He _].
  split; [exact (deref_entry m' cs' Hrep' this _ _ _ He)|]. split; [done|].
  cbn [fst]. rewrite (find_spec m' cs' Hrep'), Hk. cbn.
  split; [done|]. split; [done|]. split; [done|]. by intros ->.
Qed.

(** X4: [insert] of a key leaves every other key as it was: [find] of
    another key returns a cursor at the same item as before, or [end()] as
    before, and a cursor that [find] returned for it before the call
    still dereferences to the same pair, whether or not the table was
    resized.  When the capacity is as before the call, [find] returns the
    very cursor it returned before. *)
Theorem insert_keeps_other_keys (this : N) (m : HashMap Key Value) (kv : Key * Value)
    (k' : Key) (it1 : iterator) :
  wf mHashFunction m ->
  (3 * (mNumEntries m + 1) + 5 < SIZE_T_MODULUS)%N ->
  k' ≠ kv.1 ->
  HashMap_find mHashFunction this m k' = Ok it1 ->
  ∃ (it : iterator) (updated : bool) (m' : HashMap Key Value) (it2 : iterator),
    HashMap_insert mHashFunction this m kv = Ok (it, updated, m')
    ∧ HashMap_find mHashFunction this m' k' = Ok it2
    ∧ (mCurrentItem it2).1 = (mCurrentItem it1).1
    ∧ iterator_eq it2 HashMap_end = iterator_eq it1 HashMap_end
    ∧ iterator_deref m' it1 = iterator_deref m it1
    ∧ iterator_deref m' it2 = iterator_deref m it1
    ∧ (mSize m' = mSize m -> it2 = it1).
Proof.
  intros [cs Hrep] Hfit Hne Hfind. destruct kv as [k v]. cbn [fst] in Hne.
  destruct (insert_lookup_spec this m cs k v Hrep Hfit)
    as (a & m' & cs' & Hins & Hrep' & _ & _ & Hother & _).
  cbn zeta in Hins. specialize (Hother k' Hne).
  rewrite (find_spec m cs Hrep) in Hfind.
  eexists _, _, m', _. split; [exact Hins|].
  rewrite (find_spec m' cs' Hrep'), Hother.
  split; [done|].
  destruct (chain_lookup k' (mjoin cs)) as [e|] eqn:Hk'; injection Hfind as <-.
  - assert (e ∈ mjoin cs) as He by (by apply chain_lookup_Some in Hk' as [? _]).
    assert (e ∈ mjoin cs') as He' by (by apply chain_lookup_Some in Hother as [? _]).
    split; [done|]. split; [done|].
    rewrite (deref_entry m cs Hrep this _ _ _ He).
    rewrite !(deref_entry m' cs' Hrep' this _ _ _ He').
    split; [done|]. split; [done|]. by intros ->.
  - done.
Qed.

(** *** Sequences of inserts *)

(** The pair a sequence of inserts leaves under a key: the last pair of
    the sequence with that key. *)
Lemma insert_all_lookup (this : N) (kvs : list (Key * Value)) m cs :
  represents mHashFunction m cs ->
  (3 * (mNumEntries m + N.of_nat (length kvs)) + 5 < SIZE_T_MODULUS)%N ->
  ∃ m' cs',
    insert_all mHashFunction this m kvs = Ok m'
    ∧ represents mHashFunction m' cs'
    ∧ (∀ k, snd <$> chain_lookup k (mjoin cs')
            = match last (filter (fun kv => kv.1 = k) kvs) with
              | Some kv => Some kv
              | None => snd <$> chain_lookup k (mjoin cs)
              end)
    ∧ (mNumEntries m' <= mNumEntries m + N.of_nat (length kvs))%N
    ∧ (mSize m <= mSize m')%N
    ∧ ((5 * mNumEntries m <= 2 * mSize m)%N -> (5 * mNumEntries m' <= 2 * mSize m')%N).
Proof.
  revert m cs. induction kvs as [|[k0 v0] kvs IH]; intros m cs Hrep Hfit.
  - exists m, cs. cbn. split; [done|]. split; [done|]. split; [done|].
    split; [lia|]. split; [lia | done].
  - cbn [length] in Hfit.
    destruct (insert_lookup_spec this m cs k0 v0 Hrep ltac:(lia))
      as (a & m1 & cs1 & Hins & Hrep1 & _ & Hk0 & Hother & Hn & Hs).
    cbn zeta in Hins, Hn, Hs.
    destruct (insert_capacity_spec m cs _ _ _ Hrep ltac:(lia) Hn Hs) as (Hs1 & Hload1 & _).
    assert (mNumEntries m1 <= mNumEntries m + 1)%N as Hn1
      by (destruct (bool_decide _) in Hn; lia).
    destruct (IH m1 cs1 Hrep1 ltac:(lia)) as (m' & cs' & Hall & Hrep' & Hlook & Hn' & Hs' & Hload').
    exists m', cs'. cbn [insert_all]. rewrite Hins. cbn.
    split; [exact Hall|]. split; [exact Hrep'|].
    split; [|split; [lia|split; [lia|auto]]].
    intros k. rewrite Hlook.
    destruct (decide (k0 = k)) as [->|Hne].
    + rewrite last_cons, Hk0. by destruct (last _).
    + by rewrite Hother.
Qed.

Lemma last_filter_key (kvs : list (Key * Value)) (k : Key) :
  is_Some (last (filter (fun kv => kv.1 = k) kvs)) <-> k ∈ kvs.*1.
Proof.
  rewrite last_is_Some. split.
  - intros Hne. destruct (filter _ kvs) as [|kv l] eqn:Hf; [done|].
    assert (kv ∈ filter (fun kv => kv.1 = k) kvs) as Hin
      by (rewrite Hf; apply list_elem_of_here).
    apply list_elem_of_filter in Hin as [<- Hin]. by apply list_elem_of_fmap_2.
  - intros (kv & -> & Hin)%list_elem_of_fmap Hnil.
    assert (kv ∈ filter (fun kv' => kv'.1 = kv.1) kvs) as Hf
      by (by apply list_elem_of_filter).
    rewrite Hnil in Hf. by apply elem_of_nil in Hf.
Qed.

Lemma represents_new_empty (aSize : N) :
  (1 <= aSize)%N -> (aSize < SIZE_T_MODULUS)%N ->
  ∃ cs, represents mHashFunction (HashMap_new aSize : HashMap Key Value) cs
        ∧ mjoin cs = [].
Proof.
  intros Hlo Hhi. exists (replicate (N.to_nat aSize) []).
  split; [apply represents_new; [lia | done] | apply join_replicate_nil].
Qed.

(** X5: a sequence of [insert] calls, whatever keys it repeats, on a table
    constructed with a capacity of at least one returns and leaves a table
    that satisfies the class invariant.  Afterwards [find] of a key of the
    sequence returns a cursor that dereferences to the last pair of the
    sequence with that key, [find] of any other key returns [end()], and
    [size()] is the number of distinct keys of the sequence.  The length
    of the sequence is such that [3 * length + 5] is a [size_t]. *)
Theorem insert_all_last_wins (this : N) (aSize : N) (kvs : list (Key * Value)) :
  (1 <= aSize)%N -> (aSize < SIZE_T_MODULUS)%N ->
  (3 * N.of_nat (length kvs) + 5 < SIZE_T_MODULUS)%N ->
  ∃ m : HashMap Key Value,
    insert_all mHashFunction this (HashMap_new aSize) kvs = Ok m
    ∧ wf mHashFunction m
    ∧ HashMap_size m = N.of_nat (length (remove_dups kvs.*1))
    ∧ ∀ k, match last (filter (fun kv => kv.1 = k) kvs) with
           | Some kv => ∃ it, HashMap_find mHashFunction this m k = Ok it
                              ∧ iterator_deref m it = Ok kv
           | None => HashMap_find mHashFunction this m k = Ok HashMap_end
           end.
Proof.
  intros Hlo Hhi Hfit.
  destruct (represents_new_empty aSize Hlo Hhi) as (cs0 & Hrep0 & Hnil).
  destruct (insert_all_lookup this kvs _ cs0 Hrep0) as (m & cs & Hall & Hrep & Hlook & _).
  { cbn. lia. }
  rewrite Hnil in Hlook. cbn in Hlook.
  exists m. split; [exact Hall|]. split; [by exists cs|]. split.
  - unfold HashMap_size. rewrite (rep_count _ _ _ Hrep). f_equal.
    rewrite <- (length_fmap snd), <- (length_fmap fst).
    apply Permutation_length, NoDup_Permutation;
      [apply (rep_keys _ _ _ Hrep) | apply NoDup_remove_dups|].
    intros k. rewrite elem_of_remove_dups, <- (last_filter_key kvs k).
    specialize (Hlook k). split.
    + intros Hin. destruct (chain_lookup k (mjoin cs)) as [e|] eqn:Hk.
      * cbn in Hlook. by destruct (last (filter _ kvs)); [eauto|].
      * by apply chain_lookup_None in Hk.
    + intros [kv Hkv]. rewrite Hkv in Hlook.
      destruct (decide (k ∈ (mjoin cs).*2.*1)) as [|Hout]; [done|].
      apply chain_lookup_None in Hout. by rewrite Hout in Hlook.
  - intros k. specialize (Hlook k). rewrite (find_spec m cs Hrep).
    destruct (last (filter _ kvs)) as [kv|].
    + destruct (chain_lookup k (mjoin cs)) as [e|] eqn:Hk; [|done].
      injection Hlook as <-. eexists. split; [done|].
      apply (deref_entry m cs Hrep this). by apply chain_lookup_Some in Hk as [? _].
    + by destruct (chain_lookup k (mjoin cs)).
Qed.

(** X6: a sequence of [insert] calls on a table constructed with a
    capacity of at least one leaves a load factor [mNumEntries / mSize] of
    at most four tenths, whatever keys the sequence repeats, and a
    capacity that is at least the one the table was constructed with. *)
Theorem load_factor_invariant (this : N) (aSize : N) (kvs : list (Key * Value)) :
  (1 <= aSize)%N -> (aSize < SIZE_T_MODULUS)%N ->
  (3 * N.of_nat (length kvs) + 5 < SIZE_T_MODULUS)%N ->
  ∃ m : HashMap Key Value,
    insert_all mHashFunction this (HashMap_new aSize) kvs = Ok m
    ∧ Qle (load_factor (mNumEntries m) (mSize m)) four_tenths
    ∧ (aSize <= mSize m)%N.
Proof.
  intros Hlo Hhi Hfit.
  destruct (represents_new_empty aSize Hlo Hhi) as (cs0 & Hrep0 & Hnil).
  destruct (insert_all_lookup this kvs _ cs0 Hrep0)
    as (m & cs & Hall & Hrep & _ & _ & Hs & Hload).
  { cbn. lia. }
  cbn in Hs, Hload.
  exists m. split; [exact Hall|]. split; [|exact Hs].
  apply load_factor_le; [apply (rep_size_pos _ _ _ Hrep) | apply Hload; lia].
Qed.

(** *** The cursor of [find] *)

(** X7: [find] on a table that satisfies the class invariant returns.
    The cursor it returns either is [end()], and then to dereference it
    fails the assertion of [operator*], or it compares unequal to [end()],
    and then it dereferences to a pair with the key looked for, holds the
    bucket position [hash( key ) % mSize] and has the table as parent. *)
Theorem find_cursor_valid (this : N) (m : HashMap Key Value) (k : Key) :
  wf mHashFunction m ->
  ∃ it : iterator,
    HashMap_find mHashFunction this m k = Ok it
    ∧ if iterator_eq it HashMap_end
      then it = HashMap_end ∧ iterator_deref m it = Fault AssertionFailure
      else ∃ v : Value,
             iterator_deref m it = Ok (k, v)
             ∧ (mCurrentItem it).2 = (mHashFunction k mod mSize m)%N
             ∧ mParent it = Some this.
Proof.
  intros [cs Hrep]. rewrite (find_spec m cs Hrep). eexists. split; [done|].
  destruct (chain_lookup k (mjoin cs)) as [e|] eqn:Hk; [|done].
  apply chain_lookup_Some in Hk as [He Hek].
  replace (iterator_eq _ HashMap_end) with false by done.
  exists e.2.2.
  rewrite (deref_entry m cs Hrep this e (mHashFunction k mod mSize m)%N (Some this) He).
  split; [|done]. f_equal. rewrite <- Hek. by destruct e as [? [? ?]].
Qed.

(** *** The loop over a table *)

Lemma begin_position (this : N) m (b : iterator) :
  HashMap_begin this m = Ok b ->
  (mCurrentItem b).2 = 0%N ∨ ((mCurrentItem b).2 < N.of_nat (length (mBuckets m)))%N.
Proof.
  unfold HashMap_begin, HashMap_getFirstItem.
  destruct (HashMap_empty m); [intros [= <-]; by left|].
  destruct (first_item (mBuckets m) 0) as [q|] eqn:Hq; [|done].
  intros [= <-]. right. apply first_item_position in Hq. cbn. lia.
Qed.

Lemma const_visit_all (this : N) m cs (fuel : nat) :
  represents mHashFunction m cs ->
  length (mjoin cs) ≤ fuel ->
  (b ← HashMap_begin this m; const_visit fuel m (const_iterator_of b))
  = Ok (positions cs).
Proof.
  intros Hrep Hfuel. pose proof (visit_all this m cs fuel Hrep Hfuel) as Hall.
  destruct (HashMap_begin this m) as [b|f] eqn:Hb; [|done]. cbn in Hall |- *.
  assert (N.of_nat (length (mBuckets m)) < SIZE_T_MODULUS)%N as Hlen.
  { rewrite (rep_buckets _ _ _ Hrep), length_fmap, (rep_length _ _ _ Hrep).
    pose proof (rep_size_fits _ _ _ Hrep). lia. }
  rewrite <- (visit_agrees m fuel b Hlen); [done|].
  destruct (begin_position this m b Hb) as [->|?]; [by vm_compute | lia].
Qed.

Lemma positions_from_entries (first : nat) cs :
  Forall2 (fun (p : ItemPair) (e : entry) => p.1 = Some e.1)
    (positions_from first cs) (mjoin cs).
Proof.
  revert first. induction cs as [|l cs IH]; intros first; [constructor|].
  rewrite positions_from_cons. cbn. apply Forall2_app; [|apply IH].
  apply Forall2_fmap_l, Forall_Forall2_diag, Forall_forall. done.
Qed.

Lemma deref_positions m (parent : option N) (ps : list ItemPair) (es : list entry) :
  Forall2 (fun (p : ItemPair) (e : entry) => p.1 = Some e.1) ps es ->
  (∀ e, e ∈ es -> ∃ n, store m !! e.1 = Some (mk_Item e.2 n)) ->
  Forall2 (fun p kv => const_iterator_deref m (mk_const_iterator p parent) = Ok kv)
    ps es.*2.
Proof.
  induction 1 as [|p e ps es Hp _ IH]; intros Hst; [constructor|].
  cbn. constructor.
  - destruct (Hst e) as [n Hn]; [apply list_elem_of_here|].
    unfold const_iterator_deref, deref. cbn. by rewrite Hp, Hn.
  - apply IH. intros e' He'. apply Hst. by apply list_elem_of_further.
Qed.

(** X8: on a table that satisfies the class invariant, the loop of a
    read-only cursor from [begin()] until it compares equal to [end()]
    ends after [size()] increments.  It visits [size()] positions, each
    of which dereferences to a pair; the keys of these pairs are pairwise
    distinct, and the pairs are exactly those a [find] returns a cursor
    to. *)
Theorem traversal_lists_contents (this : N) (m : HashMap Key Value) :
  wf mHashFunction m ->
  ∃ (ps : list ItemPair) (kvs : list (Key * Value)),
    (b ← HashMap_begin this m;
     const_visit (N.to_nat (HashMap_size m)) m (const_iterator_of b)) = Ok ps
    ∧ Forall2 (fun p kv =>
                 const_iterator_deref m (mk_const_iterator p (Some this)) = Ok kv)
        ps kvs
    ∧ length kvs = N.to_nat (HashMap_size m)
    ∧ NoDup kvs.*1
    ∧ ∀ kv, kv ∈ kvs <-> ∃ it, HashMap_find mHashFunction this m kv.1 = Ok it
                               ∧ iterator_deref m it = Ok kv.
Proof.
  intros [cs Hrep]. exists (positions cs), (mjoin cs).*2.
  pose proof (rep_count _ _ _ Hrep) as Hcount. unfold HashMap_size.
  split; [apply (const_visit_all this m cs); [done | lia]|].
  split.
  { apply deref_positions; [apply positions_from_entries|].
    apply (rep_entry_stored m cs Hrep). }
  split; [rewrite length_fmap; lia|].
  split; [apply (rep_keys _ _ _ Hrep)|].
  intros [k v]. split.
  - intros Hkv. destruct (find_stored this m cs k v Hrep Hkv) as (it & ? & ? & _). eauto.
  - intros (it & Hfind & Hderef).
    destruct (deref_found this m cs k it (k, v) Hrep Hfind Hderef) as (e & He & _ & <- & _).
    by apply list_elem_of_fmap_2.
Qed.

(** X9: on a table without entries [begin()] returns a cursor that
    compares equal to [end()] but has the table as parent: to increment it
    passes the assertion on the parent and reads the successor link
    through a null item pointer, whereas to increment [end()] fails the
    assertion. *)
Theorem increment_of_empty_begin (this : N) (m : HashMap Key Value) :
  HashMap_empty m = true ->
  ∃ b : iterator,
    HashMap_begin this m = Ok b
    ∧ iterator_eq b HashMap_end = true
    ∧ const_iterator_incr m (const_iterator_of b) = Fault NullDereference
    ∧ const_iterator_incr m (const_iterator_of HashMap_end) = Fault AssertionFailure.
Proof.
  intros Hempty. unfold HashMap_begin, HashMap_getFirstItem. rewrite Hempty.
  eexists. split; [done|]. split; done.
Qed.

Lemma positions_from_sorted (first : nat) cs :
  StronglySorted N.le (positions_from first cs).*2
  ∧ Forall (fun p : ItemPair => (N.of_nat first <= p.2)%N) (positions_from first cs).
Proof.
  revert first. induction cs as [|l cs IH]; intros first.
  - split; constructor.
  - rewrite positions_from_cons. destruct (IH (S first)) as [Hsorted Hge].
    split.
    + rewrite fmap_app. apply StronglySorted_app_2; [| | exact Hsorted].
      * intros b1 b2 (p1 & -> & (e & -> & _)%list_elem_of_fmap)%list_elem_of_fmap
          (p2 & -> & Hp2)%list_elem_of_fmap.
        rewrite Forall_forall in Hge. specialize (Hge p2 Hp2). cbn. lia.
      * rewrite <- list_fmap_compose. induction l as [|e l IHl]; constructor; [done|].
        apply Forall_forall. intros b (e' & -> & _)%list_elem_of_fmap. done.
    + apply Forall_app. split.
      * apply Forall_forall. intros p (e & -> & _)%list_elem_of_fmap. done.
      * eapply Forall_impl; [exact Hge|]. intros p Hp. cbn in Hp. lia.
Qed.

Lemma positions_from_hash (size : N) (first : nat) cs :
  (∀ j l e, cs !! j = Some l -> e ∈ l ->
            bucket_index mHashFunction size e = N.of_nat (first + j)) ->
  Forall2 (fun (p : ItemPair) (e : entry) =>
             p = (Some e.1, bucket_index mHashFunction size e))
    (positions_from first cs) (mjoin cs).
Proof.
  revert first. induction cs as [|l cs IH]; intros first Hhash; [constructor|].
  rewrite positions_from_cons. cbn. apply Forall2_app.
  - apply Forall2_fmap_l, Forall_Forall2_diag, Forall_forall. intros e He. cbn.
    rewrite (Hhash 0 l e eq_refl He). by rewrite Nat.add_0_r.
  - apply IH. intros j l' e Hj He. rewrite (Hhash (S j) l' e Hj He). f_equal. lia.
Qed.

(** X10: on a table that satisfies the class invariant, the loop of a
    read-only cursor from [begin()] to [end()] visits the positions in
    the order of their bucket positions.  Each position visited is the one
    of the cursor that [find] returns for the key found there: it holds
    the bucket position [hash( key ) % mSize]. *)
Theorem traversal_in_bucket_order (this : N) (m : HashMap Key Value) :
  wf mHashFunction m ->
  ∃ ps : list ItemPair,
    (b ← HashMap_begin this m;
     const_visit (N.to_nat (HashMap_size m)) m (const_iterator_of b)) = Ok ps
    ∧ StronglySorted N.le ps.*2
    ∧ Forall (fun p =>
                ∃ kv : Key * Value,
                  const_iterator_deref m (mk_const_iterator p (Some this)) = Ok kv
                  ∧ p.2 = (mHashFunction kv.1 mod mSize m)%N
                  ∧ HashMap_find mHashFunction this m kv.1
                    = Ok (mk_iterator p (Some this))) ps.
Proof.
  intros [cs Hrep]. exists (positions cs).
  pose proof (rep_count _ _ _ Hrep) as Hcount. unfold HashMap_size.
  split; [apply (const_visit_all this m cs); [done | lia]|].
  split; [apply positions_from_sorted|].
  eapply Forall2_Forall_l;
    [apply (positions_from_hash (mSize m) 0 cs), (rep_hash _ _ _ Hrep)|].
  apply Forall_forall. intros e He p ->. exists e.2.
  destruct (rep_entry_stored m cs Hrep e He) as [n Hn].
  split; [unfold const_iterator_deref, deref; cbn; by rewrite Hn|].
  split; [done|].
  rewrite (find_spec m cs Hrep).
  by rewrite (chain_lookup_unique e.2.1 (mjoin cs) e (rep_keys _ _ _ Hrep) He eq_refl).
Qed.

(** X11: on a table that satisfies the class invariant, the cursors [find]
    returns for two different keys compare unequal whenever one of them is
    not [end()]: no item holds two keys. *)
Theorem find_distinct_keys (this : N) (m : HashMap Key Value) (k1 k2 : Key)
    (it1 it2 : iterator) :
  wf mHashFunction m ->
  k1 ≠ k2 ->
  HashMap_find mHashFunction this m k1 = Ok it1 ->
  HashMap_find mHashFunction this m k2 = Ok it2 ->
  iterator_eq it1 HashMap_end = false ->
  iterator_eq it1 it2 = false ∧ (mCurrentItem it1).1 ≠ (mCurrentItem it2).1.
Proof.
  intros [cs Hrep] Hne Hfind1 Hfind2 Hend.
  rewrite (find_spec m cs Hrep) in Hfind1, Hfind2.
  destruct (chain_lookup k1 (mjoin cs)) as [e1|] eqn:Hk1; injection Hfind1 as <-;
    [|done].
  apply chain_lookup_Some in Hk1 as [He1 Hek1].
  assert ((Some e1.1 : option N) ≠ (mCurrentItem it2).1) as Hitems.
  { destruct (chain_lookup k2 (mjoin cs)) as [e2|] eqn:Hk2; injection Hfind2 as <-;
      [|done].
    apply chain_lookup_Some in Hk2 as [He2 Hek2]. cbn. intros [= Heq].
    apply Hne. rewrite <- Hek1, <- Hek2. do 2 f_equal.
    by apply (NoDup_fmap_agree fst (mjoin cs) e1 e2 (rep_addresses _ _ _ Hrep)). }
  split; [|exact Hitems].
  unfold iterator_eq, ItemPair_eq. cbn. by rewrite bool_decide_false.
Qed.

Lemma positions_from_overwrite (first : nat) a v cs :
  positions_from first (overwrite a v cs) = positions_from first cs.
Proof.
  revert first. induction cs as [|l cs IH]; intros first; [done|].
  unfold overwrite in *. rewrite fmap_cons, !positions_from_cons, IH. f_equal.
  rewrite <- list_fmap_compose. apply list_fmap_ext. intros i e _. cbn.
  by rewrite set_value_address.
Qed.

(** X12: [insert] of a key that [find] finds leaves the loop over the
    table as it was: the read-only cursor visits the same positions in the
    same order after the call as before. *)
Theorem update_keeps_traversal (this : N) (m : HashMap Key Value) (k : Key) (v' : Value)
    (it : iterator) :
  wf mHashFunction m ->
  HashMap_find mHashFunction this m k = Ok it ->
  iterator_eq it HashMap_end = false ->
  ∃ (m' : HashMap Key Value) (ps : list ItemPair),
    HashMap_insert mHashFunction this m (k, v') = Ok (it, true, m')
    ∧ (b ← HashMap_begin this m;
       const_visit (N.to_nat (HashMap_size m)) m (const_iterator_of b)) = Ok ps
    ∧ (b ← HashMap_begin this m';
       const_visit (N.to_nat (HashMap_size m')) m' (const_iterator_of b)) = Ok ps.
Proof.
  intros [cs Hrep] Hfind Hne.
  destruct (find_found this m cs k it Hrep Hfind) as (e & Hk & ->).
  { intros Hnone. rewrite (find_spec m cs Hrep) in Hfind.
    destruct (chain_lookup k (mjoin cs)); injection Hfind as <-; done. }
  destruct (insert_update_spec this m cs k v' e Hrep Hk) as (n & _ & Hins & Hrep').
  pose proof (rep_count _ _ _ Hrep) as Hcount.
  eexists _, (positions cs). split; [exact Hins|]. unfold HashMap_size. split.
  - apply (const_visit_all this m cs); [done | lia].
  - unfold positions. rewrite <- (positions_from_overwrite 0 e.1 v' cs).
    apply (const_visit_all this _ _ _ Hrep').
    rewrite overwrite_join, length_fmap. cbn. lia.
Qed.
End HashMapFacts.

(** ** Facts about the atom registry *)

Section AtomRegistryFacts.

Variable stringHash : string -> N.

Local Abbreviation atom_entry := (N * (string * option N))%type.

Lemma chain_lookup_Permutation (k : string) (l l' : list atom_entry) :
  NoDup l.*2.*1 -> l ≡ₚ l' -> chain_lookup k l = chain_lookup k l'.
Proof.
  intros Hnd Hperm. assert (NoDup l'.*2.*1) as Hnd' by (by rewrite <- Hperm).
  destruct (chain_lookup k l) as [e|] eqn:Hl.
  - apply chain_lookup_Some in Hl as [He Hk]. symmetry.
    apply chain_lookup_unique; [done | by rewrite <- Hperm | done].
  - symmetry. apply chain_lookup_None. rewrite <- Hperm. by apply chain_lookup_None.
Qed.

Lemma chain_lookup_app_other (k : string) (l : list atom_entry) (e : atom_entry) :
  e.2.1 ≠ k -> chain_lookup k (l ++ [e]) = chain_lookup k l.
Proof.
  intros Hne. induction l as [|e' l IH]; cbn.
  - by rewrite decide_False.
  - case_decide; [done | apply IH].
Qed.

Lemma findAtom_spec (r : AtomRegistry) (cs : list (list atom_entry)) (aID : string) :
  represents stringHash (mAtoms_target r) cs ->
  findAtom stringHash r aID
  = Ok (match chain_lookup aID (mjoin cs) with
        | Some e => e.2.2
        | None => None
        end).
Proof.
  intros Hrep. unfold findAtom. rewrite (find_spec stringHash _ _ Hrep). cbn.
  destruct (chain_lookup aID (mjoin cs)) as [e|] eqn:Hk; [|done].
  apply chain_lookup_Some in Hk as [He _].
  destruct (rep_entry_stored stringHash _ _ Hrep e He) as [n Hn].
  cbn. unfold const_iterator_deref, deref. cbn. by rewrite Hn.
Qed.

(** C5: on a registry whose table satisfies the class invariant, with the
    atom passed in alive.  When [findAtom] finds an atom under the
    identifier of the atom passed in, [registerAtom] returns [false], the
    atom passed in is deleted, the two sentences of the diagnostic and the
    end of line are written to [cout] after what was written before, and
    the registry is the same object state as before: [findAtom] of the
    identifier still returns the atom registered first, which is still
    alive when it is not the one passed in, and the number of entries is
    unchanged.  When the table has no entry for the identifier,
    [registerAtom] returns [true], [findAtom] of the identifier returns
    the atom passed in, which stays alive, the table has one entry more,
    every other identifier is found as before and nothing is written. *)
Theorem registerAtom_rejects_duplicates (w : World) (a : N) (atom : Atom) :
  wf stringHash (mAtoms_target (registry w)) ->
  atoms w !! a = Some atom ->
  (3 * (mNumEntries (mAtoms_target (registry w)) + 1) + 5 < SIZE_T_MODULUS)%N ->
  (∀ first : N,
     findAtom stringHash (registry w) (getID atom) = Ok (Some first) ->
     ∃ w' : World,
       registerAtom stringHash (Some a) w = Ok (false, w')
       ∧ registry w' = registry w
       ∧ atoms w' = delete a (atoms w)
       ∧ atoms w' !! a = None
       ∧ (first ≠ a -> atoms w' !! first = atoms w !! first)
       ∧ cout w' = cout w ++ [ "Error: Attempting to register duplicate atom."%string;
                               "This may cause undesired behavior."%string;
                               String (Ascii.ascii_of_nat 10) EmptyString ]
       ∧ findAtom stringHash (registry w') (getID atom) = Ok (Some first)
       ∧ HashMap_size (mAtoms_target (registry w'))
         = HashMap_size (mAtoms_target (registry w)))
  ∧ (HashMap_find stringHash (mAtoms (registry w)) (mAtoms_target (registry w))
       (getID atom) = Ok HashMap_end ->
     ∃ w' : World,
       registerAtom stringHash (Some a) w = Ok (true, w')
       ∧ findAtom stringHash (registry w') (getID atom) = Ok (Some a)
       ∧ (∀ aID, aID ≠ getID atom ->
            findAtom stringHash (registry w') aID = findAtom stringHash (registry w) aID)
       ∧ HashMap_size (mAtoms_target (registry w'))
         = (HashMap_size (mAtoms_target (registry w)) + 1)%N
       ∧ wf stringHash (mAtoms_target (registry w'))
       ∧ atoms w' = atoms w
       ∧ cout w' = cout w).
Proof.
  intros [cs Hrep] Hatom Hfit. split.
  - intros first Hfound. unfold registerAtom. rewrite Hatom, Hfound. cbn.
    eexists. split; [done|]. cbn. split; [done|]. split; [done|].
    split; [apply lookup_delete_eq|]. split; [intros Hne; by apply lookup_delete_ne|].
    split; [done|]. split; done.
  - intros Habsent. rewrite (find_spec stringHash _ _ Hrep) in Habsent.
    destruct (chain_lookup (getID atom) (mjoin cs)) as [e|] eqn:Hk; [done|].
    unfold registerAtom. rewrite Hatom, (findAtom_spec _ cs _ Hrep), Hk. cbn.
    destruct (insert_new_contents stringHash (mAtoms (registry w)) _ cs (getID atom)
                (Some a) Hrep Hk Hfit) as (it & table & cs' & Hins & Hrep' & Hperm & Hn).
    rewrite Hins. cbn. eexists. split; [done|]. cbn.
    pose proof (rep_keys _ _ _ Hrep') as Hkeys.
    assert (∀ aID, chain_lookup aID (mjoin cs')
                   = chain_lookup aID (mjoin cs ++ [(fresh (dom (store (mAtoms_target
                       (registry w)))), (getID atom, Some a))])) as Hlookup.
    { intros aID. by apply chain_lookup_Permutation. }
    split.
    { rewrite (findAtom_spec (mk_AtomRegistry _ table _) cs' _ Hrep'). rewrite Hlookup.
      rewrite (chain_lookup_unique (getID atom) _
                 (fresh (dom (store (mAtoms_target (registry w)))), (getID atom, Some a)));
        [done | by rewrite <- Hperm | | done].
      apply elem_of_app. right. apply list_elem_of_here. }
    split.
    { intros aID Hne. rewrite (findAtom_spec (mk_AtomRegistry _ table _) cs' _ Hrep').
      rewrite (findAtom_spec _ cs _ Hrep), Hlookup. by rewrite chain_lookup_app_other. }
    split; [done|]. split; [by exists cs'|]. split; done.
Qed.


(** ** Further facts about the registry *)

(** [findAtom] after an [insert] into the table of the registry. *)
Lemma findAtom_insert (r : AtomRegistry) (aID : string) (a : N) :
  wf stringHash (mAtoms_target r) ->
  (3 * (mNumEntries (mAtoms_target r) + 1) + 5 < SIZE_T_MODULUS)%N ->
  ∃ (it : iterator) (updated : bool) (table : HashMap string (option N)),
    HashMap_insert stringHash (mAtoms r) (mAtoms_target r) (aID, Some a)
    = Ok (it, updated, table)
    ∧ wf stringHash table
    ∧ ∀ aID', findAtom stringHash
                (mk_AtomRegistry (mAtoms r) table (mIsCurrentlyDeallocating r)) aID'
              = if decide (aID' = aID) then Ok (Some a) else findAtom stringHash r aID'.
Proof.
  intros [cs Hrep] Hfit.
  destruct (insert_lookup_spec stringHash (mAtoms r) _ cs aID (Some a) Hrep Hfit)
    as (p & table & cs' & Hins & Hrep' & _ & Hnew & Hother & _).
  cbn zeta in Hins. eexists _, _, table. split; [exact Hins|].
  split; [by exists cs'|]. intros aID'.
  rewrite (findAtom_spec (mk_AtomRegistry (mAtoms r) table (mIsCurrentlyDeallocating r))
             cs' aID' Hrep'), (findAtom_spec r cs aID' Hrep).
  destruct (decide (aID' = aID)) as [->|Hne].
  - by rewrite Hnew.
  - by rewrite (Hother aID' Hne).
Qed.

Lemma findAtom_returns (r : AtomRegistry) (aID : string) :
  wf stringHash (mAtoms_target r) -> ∃ found, findAtom stringHash r aID = Ok found.
Proof. intros [cs Hrep]. rewrite (findAtom_spec r cs aID Hrep). eauto. Qed.

(** X13: [registerAtom] of an atom that is alive and not yet registered,
    on a sound registry whose table satisfies the class invariant, returns
    and leaves a sound registry: every atom [findAtom] returns is alive
    and has the identifier asked for.  The atoms registered afterwards are
    those registered before, and the atom passed in when the call returns
    [true]; no atom other than the one passed in is deleted. *)
Theorem registerAtom_keeps_registry_sound (w : World) (a : N) (atom : Atom) :
  wf stringHash (mAtoms_target (registry w)) ->
  (3 * (mNumEntries (mAtoms_target (registry w)) + 1) + 5 < SIZE_T_MODULUS)%N ->
  registry_sound stringHash w ->
  atoms w !! a = Some atom ->
  ¬ registered stringHash w a ->
  ∃ (added : bool) (w' : World),
    registerAtom stringHash (Some a) w = Ok (added, w')
    ∧ wf stringHash (mAtoms_target (registry w'))
    ∧ registry_sound stringHash w'
    ∧ (∀ a', registered stringHash w' a'
             <-> registered stringHash w a' ∨ (added = true ∧ a' = a))
    ∧ (∀ a', a' ≠ a -> atoms w' !! a' = atoms w !! a')
    ∧ (added = true -> atoms w' !! a = Some atom).
Proof.
  intros Hwf Hfit Hsound Hatom Hnew. unfold registerAtom. rewrite Hatom.
  destruct (findAtom_returns (registry w) (getID atom) Hwf) as [found Hfound].
  rewrite Hfound. cbn. destruct found as [first|].
  - eexists false, _. split; [done|]. cbn. split; [done|]. split; [|split; [|split]].
    + intros aID a' Ha'. destruct (Hsound aID a' Ha') as (atom' & Hatom' & Hid).
      exists atom'. split; [|done]. cbn. rewrite lookup_delete_ne; [done|].
      intros <-. apply Hnew. by exists aID.
    + intros a'. unfold registered. cbn. split; [by left|]. by intros [?|[[=] _]].
    + intros a' Hne. cbn. by rewrite lookup_delete_ne.
    + done.
  - destruct (findAtom_insert (registry w) (getID atom) a Hwf Hfit)
      as (it & updated & table & Hins & Hwf' & Hfind).
    rewrite Hins. cbn. eexists true, _. split; [done|]. cbn.
    split; [exact Hwf'|]. split; [|split; [|split; done]].
    + intros aID a'. unfold registry_sound. cbn. rewrite Hfind.
      destruct (decide (aID = getID atom)) as [->|Hne].
      * intros [= <-]. eauto.
      * apply Hsound.
    + intros a'. unfold registered. cbn. split.
      * intros [aID Ha']. rewrite Hfind in Ha'.
        destruct (decide (aID = getID atom)) as [->|Hne].
        -- injection Ha' as <-. by right.
        -- left. by exists aID.
      * intros [[aID Ha']|[_ ->]].
        -- exists aID. rewrite Hfind.
           destruct (decide (aID = getID atom)) as [->|Hne]; [|done].
           rewrite Hfound in Ha'. done.
        -- exists (getID atom). rewrite Hfind. by rewrite decide_True.
Qed.

(** X14: [registerAtom] called twice with the same atom object, the
    identifier not being registered before: the first call returns [true],
    the second finds the identifier, returns [false] and deletes the atom,
    after which [findAtom] of the identifier still returns the pointer to
    it although the atom is no longer alive. *)
Theorem registerAtom_same_object_twice (w : World) (a : N) (atom : Atom) :
  wf stringHash (mAtoms_target (registry w)) ->
  (3 * (mNumEntries (mAtoms_target (registry w)) + 1) + 5 < SIZE_T_MODULUS)%N ->
  atoms w !! a = Some atom ->
  findAtom stringHash (registry w) (getID atom) = Ok None ->
  ∃ w1 w2 : World,
    registerAtom stringHash (Some a) w = Ok (true, w1)
    ∧ registerAtom stringHash (Some a) w1 = Ok (false, w2)
    ∧ findAtom stringHash (registry w2) (getID atom) = Ok (Some a)
    ∧ atoms w2 !! a = None
    ∧ ¬ registry_sound stringHash w2.
Proof.
  intros Hwf Hfit Hatom Hfound.
  destruct (findAtom_insert (registry w) (getID atom) a Hwf Hfit)
    as (it & updated & table & Hins & Hwf' & Hfind).
  pose proof (Hfind (getID atom)) as Hid. rewrite decide_True in Hid by done.
  eexists _, _. unfold registerAtom at 1. rewrite Hatom, Hfound. cbn.
  rewrite Hins. cbn. split; [done|].
  unfold registerAtom. cbn. rewrite Hatom, Hid. cbn.
  split; [done|]. cbn. split; [exact Hid|]. split; [apply lookup_delete_eq|].
  intros Hsound. destruct (Hsound (getID atom) a Hid) as (atom' & Hatom' & _).
  cbn in Hatom'. by rewrite lookup_delete_eq in Hatom'.
Qed.

Lemma wf_new_registry (p : N) :
  wf stringHash (mAtoms_target (AtomRegistry_new p)).
Proof.
  destruct (represents_new_empty stringHash (Value := option N) getInitialSize)
    as (cs & Hrep & _); [done | done |]. by exists cs.
Qed.

Lemma findAtom_new (p : N) (aID : string) :
  findAtom stringHash (AtomRegistry_new p) aID = Ok None.
Proof.
  destruct (represents_new_empty stringHash (Value := option N) getInitialSize)
    as (cs & Hrep & Hnil); [done | done |].
  rewrite (findAtom_spec (AtomRegistry_new p) cs aID Hrep). by rewrite Hnil.
Qed.

(** X15: a registry as its constructor leaves it has a table of 103
    buckets that satisfies the class invariant, finds no atom under any
    identifier and is sound; [registerAtom] of an atom that is alive then
    returns [true], and [findAtom] of its identifier returns it. *)
Theorem new_registry_registers (p : N) (live : gmap N Atom) (out : list string)
    (a : N) (atom : Atom) :
  live !! a = Some atom ->
  let w := mk_World (AtomRegistry_new p) live out in
  wf stringHash (mAtoms_target (registry w))
  ∧ mSize (mAtoms_target (registry w)) = 103%N
  ∧ isCurrentlyDeallocating (registry w) = false
  ∧ (∀ aID, findAtom stringHash (registry w) aID = Ok None)
  ∧ registry_sound stringHash w
  ∧ ∃ w', registerAtom stringHash (Some a) w = Ok (true, w')
          ∧ findAtom stringHash (registry w') (getID atom) = Ok (Some a)
          ∧ atoms w' = live ∧ cout w' = out.
Proof.
  intros Hatom w.
  assert (∀ aID, findAtom stringHash (registry w) aID = Ok None) as Hnone
    by apply findAtom_new.
  assert (wf stringHash (mAtoms_target (registry w))) as Hwf by apply wf_new_registry.
  split; [exact Hwf|]. split; [done|]. split; [done|]. split; [exact Hnone|].
  split; [intros aID a' Ha'; by rewrite Hnone in Ha'|].
  destruct (findAtom_insert (registry w) (getID atom) a Hwf)
    as (it & updated & table & Hins & Hwf' & Hfind); [by vm_compute|].
  assert (atoms w = live) as Hlive by done.
  assert (cout w = out) as Hout by done.
  clearbody w. unfold registerAtom. rewrite Hlive, Hatom, Hnone. cbn.
  rewrite Hins. cbn. eexists. split; [done|]. cbn.
  split; [|done]. rewrite Hfind. by rewrite decide_True.
Qed.
End AtomRegistryFacts.

(** * Instances *)

Lemma wf_insert_all {Key Value : Type} `{EqDecision Key} (mHashFunction : Key -> N)
    (this aSize : N) (kvs : list (Key * Value)) :
  (1 <= aSize)%N -> (aSize < SIZE_T_MODULUS)%N ->
  NoDup kvs.*1 ->
  (3 * N.of_nat (length kvs) + 5 < SIZE_T_MODULUS)%N ->
  ∃ m cs, insert_all mHashFunction this (HashMap_new aSize) kvs = Ok m
          ∧ represents mHashFunction m cs.
Proof.
  intros Hpos Hfit Hnd Hcount.
  destruct (insert_all_spec mHashFunction this kvs (HashMap_new aSize)
              (replicate (N.to_nat aSize) []))
    as (m & cs & Hall & Hrep & _).
  - apply represents_new; lia.
  - done.
  - intros k _. rewrite join_replicate_nil. apply not_elem_of_nil.
  - cbn. lia.
  - eauto.
Qed.

Lemma multiples_of_23_NoDup (count : nat) : NoDup (multiples_of_23 count).*1.
Proof.
  unfold multiples_of_23. rewrite <- list_fmap_compose.
  apply NoDup_fmap_2; [|apply NoDup_seq].
  intros i j Hij. cbn in Hij. lia.
Qed.

Lemma table_of_multiples_represented (count : nat) :
  count ≤ 1000 ->
  ∃ cs, insert_all integer_hash 1 (HashMap_new 23) (multiples_of_23 count)
        = Ok (table_of_multiples count)
        ∧ represents integer_hash (table_of_multiples count) cs.
Proof.
  intros Hcount.
  destruct (wf_insert_all integer_hash 1 23 (multiples_of_23 count))
    as (m & cs & Hall & Hrep).
  - lia.
  - reflexivity.
  - apply multiples_of_23_NoDup.
  - unfold multiples_of_23. rewrite length_fmap, length_seq.
    unfold SIZE_T_MODULUS. lia.
  - exists cs. unfold table_of_multiples. rewrite Hall. done.
Qed.

Lemma table_of_multiples_wf (count : nat) :
  count ≤ 1000 -> wf integer_hash (table_of_multiples count).
Proof.
  intros Hcount. destruct (table_of_multiples_represented count Hcount) as (cs & _ & Hrep).
  by exists cs.
Qed.

Lemma begin_end_empty_witness :
  wf integer_hash (table_of_multiples 3)
  ∧ (HashMap_empty (table_of_multiples 3) = true
     <-> HashMap_size (table_of_multiples 3) = 0%N)
  ∧ ∃ b, HashMap_begin 1 (table_of_multiples 3) = Ok b
      ∧ (iterator_eq b HashMap_end = true <-> HashMap_size (table_of_multiples 3) = 0%N)
      ∧ (HashMap_size (table_of_multiples 3) ≠ 0%N ->
         ∃ n p, mCurrentItem b = (Some p, N.of_nat n)
                ∧ mBuckets (table_of_multiples 3) !! n = Some (Some p)
                ∧ ∀ n', n' < n -> mBuckets (table_of_multiples 3) !! n' = Some None).
Proof.
  split; [apply table_of_multiples_wf; lia|].
  apply (begin_end_empty integer_hash 1 (table_of_multiples 3)).
  apply table_of_multiples_wf. lia.
Defined.
Lemma insert_find_round_trip_witness :
  (1 <= 23)%N ∧ (23 < SIZE_T_MODULUS)%N
  ∧ NoDup (multiples_of_23 10).*1
  ∧ (3 * N.of_nat (length (multiples_of_23 10)) + 5 < SIZE_T_MODULUS)%N
  ∧ ∃ m : HashMap N N,
      insert_all integer_hash 1 (HashMap_new 23) (multiples_of_23 10) = Ok m
      ∧ (∀ k v, (k, v) ∈ multiples_of_23 10 ->
           ∃ it, HashMap_find integer_hash 1 m k = Ok it
                 ∧ iterator_deref m it = Ok (k, v))
      ∧ (∀ k, k ∉ (multiples_of_23 10).*1 ->
              HashMap_find integer_hash 1 m k = Ok HashMap_end).
Proof.
  split; [lia|]. split; [reflexivity|].
  split; [apply multiples_of_23_NoDup|]. split; [reflexivity|].
  apply (insert_find_round_trip integer_hash 1 23 (multiples_of_23 10));
    [lia | reflexivity | apply multiples_of_23_NoDup | reflexivity].
Defined.

Lemma load_factor_after_insert_witness :
  wf integer_hash (table_of_multiples 9)
  ∧ (3 * (mNumEntries (table_of_multiples 9) + 1) + 5 < SIZE_T_MODULUS)%N
  ∧ HashMap_find integer_hash 1 (table_of_multiples 9) (207, 109)%N.1 = Ok HashMap_end
  ∧ ∃ (it : iterator) (m' : HashMap N N),
      HashMap_insert integer_hash 1 (table_of_multiples 9) (207, 109)%N
      = Ok (it, false, m')
      ∧ mNumEntries m' = (mNumEntries (table_of_multiples 9) + 1)%N
      ∧ Qle (load_factor (mNumEntries m') (mSize m')) four_tenths.
Proof.
  assert (wf integer_hash (table_of_multiples 9)) as Hwf
    by (apply table_of_multiples_wf; lia).
  assert (3 * (mNumEntries (table_of_multiples 9) + 1) + 5 < SIZE_T_MODULUS)%N as Hfit
    by (vm_compute; reflexivity).
  assert (HashMap_find integer_hash 1 (table_of_multiples 9) (207, 109)%N.1
          = Ok HashMap_end) as Hfind by (vm_compute; reflexivity).
  split; [exact Hwf|]. split; [exact Hfit|]. split; [exact Hfind|].
  destruct (load_factor_after_insert integer_hash 1 (table_of_multiples 9) (207, 109)%N
              Hwf Hfit Hfind) as ((it & m' & Hins & _ & Hn & Hload & _) & _).
  exists it, m'. split; [exact Hins|]. split; [exact Hn | exact Hload].
Defined.

Lemma resize_rehashes_witness :
  ∃ cs : list (list (N * (N * N))),
    represents integer_hash (table_of_multiples 3) cs
    ∧ (1 <= 35)%N ∧ (35 < SIZE_T_MODULUS)%N
    ∧ ∃ m' : HashMap N N,
        HashMap_resize integer_hash (table_of_multiples 3) 35 = Ok m'
        ∧ mSize m' = 35%N
        ∧ HashMap_size m' = HashMap_size (table_of_multiples 3)
        ∧ represents integer_hash m' (rebucket integer_hash 35 (mjoin cs)).
Proof.
  destruct (table_of_multiples_represented 3) as (cs & _ & Hrep); [lia|].
  exists cs. split; [exact Hrep|]. split; [lia|]. split; [reflexivity|].
  destruct (resize_rehashes integer_hash 1 (table_of_multiples 3) cs 35 Hrep)
    as (_ & Hresize & _); [lia | reflexivity |].
  destruct Hresize as (m' & Hr & Hs & Hn & _ & _ & _ & Hrep'); [vm_compute; discriminate|].
  exists m'. split; [exact Hr|]. split; [exact Hs|]. split; [exact Hn | exact Hrep'].
Defined.

Lemma insert_existing_key_witness :
  wf integer_hash (table_of_multiples 3)
  ∧ HashMap_find integer_hash 1 (table_of_multiples 3) 23%N
    = Ok (mk_iterator (Some 1%N, 0%N) (Some 1%N))
  ∧ iterator_eq (mk_iterator (Some 1%N, 0%N) (Some 1%N)) HashMap_end = false
  ∧ ∃ m' : HashMap N N,
      HashMap_insert integer_hash 1 (table_of_multiples 3) (23, 7)%N
      = Ok (mk_iterator (Some 1%N, 0%N) (Some 1%N), true, m')
      ∧ iterator_deref m' (mk_iterator (Some 1%N, 0%N) (Some 1%N)) = Ok (23, 7)%N
      ∧ HashMap_size m' = HashMap_size (table_of_multiples 3).
Proof.
  assert (wf integer_hash (table_of_multiples 3)) as Hwf
    by (apply table_of_multiples_wf; lia).
  assert (HashMap_find integer_hash 1 (table_of_multiples 3) 23%N
          = Ok (mk_iterator (Some 1%N, 0%N) (Some 1%N))) as Hfind
    by (vm_compute; reflexivity).
  split; [exact Hwf|]. split; [exact Hfind|]. split; [reflexivity|].
  destruct (insert_existing_key integer_hash 1 (table_of_multiples 3) 23%N 7%N _
              Hwf Hfind eq_refl)
    as (p & item & m' & _ & _ & _ & Hins & _ & Hderef & Hsize & _).
  exists m'. split; [exact Hins|]. split; [exact Hderef | exact Hsize].
Defined.

Lemma increments_agree_witness :
  mParent (mk_iterator (Some 0%N, 0%N) (Some 1%N)) = Some 1%N
  ∧ (mCurrentItem (mk_iterator (Some 0%N, 0%N) (Some 1%N))).1 = Some 0%N
  ∧ store (table_of_multiples 3) !! 0%N = Some (mk_Item (0, 100)%N (Some 1%N))
  ∧ ((mCurrentItem (mk_iterator (Some 0%N, 0%N) (Some 1%N))).2 + 1 < SIZE_T_MODULUS)%N
  ∧ ∃ it' : iterator,
      iterator_incr (table_of_multiples 3) (mk_iterator (Some 0%N, 0%N) (Some 1%N))
      = Ok it'
      ∧ const_iterator_incr (table_of_multiples 3)
          (const_iterator_of (mk_iterator (Some 0%N, 0%N) (Some 1%N)))
        = Ok (const_iterator_of it')
      ∧ mCurrentItem it' = (Some 1%N, 0%N).
Proof.
  assert (store (table_of_multiples 3) !! 0%N = Some (mk_Item (0, 100)%N (Some 1%N)))
    as Hitem by (vm_compute; reflexivity).
  split; [reflexivity|]. split; [reflexivity|]. split; [exact Hitem|].
  split; [reflexivity|].
  destruct (increments_agree integer_hash (table_of_multiples 3)
              (mk_iterator (Some 0%N, 0%N) (Some 1%N)) 1 0 _ eq_refl eq_refl Hitem eq_refl)
    as ((it' & Hincr & Hconst & _ & Hnext & _) & _ & _).
  exists it'. split; [exact Hincr|]. split; [exact Hconst|].
  exact (Hnext 1%N eq_refl).
Defined.

Lemma insert_cursor_keeps_old_bucket_witness :
  wf integer_hash (table_of_multiples 9)
  ∧ (3 * (mNumEntries (table_of_multiples 9) + 1) + 5 < SIZE_T_MODULUS)%N
  ∧ HashMap_find integer_hash 1 (table_of_multiples 9) 207%N = Ok HashMap_end
  ∧ over_threshold (mNumEntries (table_of_multiples 9) + 1)
      (mSize (table_of_multiples 9)) = true
  ∧ ∃ (it : iterator) (m' : HashMap N N),
      HashMap_insert integer_hash 1 (table_of_multiples 9) (207, 109)%N
      = Ok (it, false, m')
      ∧ mSize m' = (3 * (mNumEntries (table_of_multiples 9) + 1) + 5)%N
      ∧ iterator_deref m' it = Ok (207, 109)%N
      ∧ ∃ it', HashMap_find integer_hash 1 m' 207%N = Ok it'
               ∧ (iterator_eq it it' = true
                  <-> (integer_hash 207 mod mSize (table_of_multiples 9)
                       = integer_hash 207 mod mSize m')%N).
Proof.
  assert (wf integer_hash (table_of_multiples 9)) as Hwf
    by (apply table_of_multiples_wf; lia).
  assert (3 * (mNumEntries (table_of_multiples 9) + 1) + 5 < SIZE_T_MODULUS)%N as Hfit
    by (vm_compute; reflexivity).
  assert (HashMap_find integer_hash 1 (table_of_multiples 9) 207%N = Ok HashMap_end)
    as Hfind by (vm_compute; reflexivity).
  assert (over_threshold (mNumEntries (table_of_multiples 9) + 1)
            (mSize (table_of_multiples 9)) = true) as Hover
    by (vm_compute; reflexivity).
  split; [exact Hwf|]. split; [exact Hfit|]. split; [exact Hfind|]. split; [exact Hover|].
  destruct (insert_cursor_keeps_old_bucket integer_hash 1 (table_of_multiples 9)
              207%N 109%N Hwf Hfit Hfind Hover)
    as ((it & m' & Hins & Hs & _ & _ & Hderef & it' & Hfind' & _ & Heq) & _).
  exists it, m'. split; [exact Hins|]. split; [exact Hs|]. split; [exact Hderef|].
  exists it'. split; [exact Hfind' | exact Heq].
Defined.

Lemma constructor_capacity_witness :
  (1 <= 23)%N ∧ (23 < SIZE_T_MODULUS)%N
  ∧ modulo (integer_hash 5) (mSize (HashMap_new 23 : HashMap N N)) = Ok 5%N
  ∧ HashMap_find integer_hash 1 (HashMap_new 23 : HashMap N N) 5%N = Ok HashMap_end
  ∧ HashMap_insert integer_hash 1 (HashMap_new 0) (5, 50)%N = Fault ModuloByZero
  ∧ HashMap_find integer_hash 1 (HashMap_new 0 : HashMap N N) 5%N = Fault ModuloByZero.
Proof.
  destruct (constructor_capacity (Value := N) integer_hash 1)
    as (_ & Hdefined & Hinsert & Hfind).
  destruct (Hdefined 23%N 5%N 50%N) as (Hmod & _ & Hfind23 & _); [lia | reflexivity |].
  split; [lia|]. split; [reflexivity|]. split; [exact Hmod|]. split; [exact Hfind23|].
  split; [exact (Hinsert (5, 50)%N) | exact (Hfind 5%N)].
Defined.

Lemma registerAtom_rejects_duplicates_witness :
  wf length_hash (mAtoms_target (registry two_atoms))
  ∧ atoms two_atoms !! 1%N = Some (mk_Atom "CO2")
  ∧ (3 * (mNumEntries (mAtoms_target (registry two_atoms)) + 1) + 5 < SIZE_T_MODULUS)%N
  ∧ ∃ w1 w2 : World,
      registerAtom length_hash (Some 1%N) two_atoms = Ok (true, w1)
      ∧ findAtom length_hash (registry w1) "CO2" = Ok (Some 1%N)
      ∧ registerAtom length_hash (Some 2%N) w1 = Ok (false, w2)
      ∧ registry w2 = registry w1
      ∧ atoms w2 !! 2%N = None
      ∧ atoms w2 !! 1%N = Some (mk_Atom "CO2")
      ∧ cout w2 = [ "Error: Attempting to register duplicate atom."%string;
                    "This may cause undesired behavior."%string;
                    String (Ascii.ascii_of_nat 10) EmptyString ]
      ∧ findAtom length_hash (registry w2) "CO2" = Ok (Some 1%N).
Proof.
  assert (wf length_hash (mAtoms_target (registry two_atoms))) as Hwf.
  { exists (replicate (N.to_nat 103) []). apply represents_new; [lia | reflexivity]. }
  assert (atoms two_atoms !! 1%N = Some (mk_Atom "CO2")) as Hatom by reflexivity.
  assert (3 * (mNumEntries (mAtoms_target (registry two_atoms)) + 1) + 5
          < SIZE_T_MODULUS)%N as Hfit by reflexivity.
  split; [exact Hwf|]. split; [exact Hatom|]. split; [exact Hfit|].
  destruct (registerAtom_rejects_duplicates length_hash two_atoms 1 _ Hwf Hatom Hfit)
    as (_ & Hfresh).
  destruct Hfresh as (w1 & Hreg1 & Hfound1 & _ & Hsize1 & Hwf1 & Hatoms1 & Hcout1);
    [reflexivity|].
  assert (atoms w1 !! 2%N = Some (mk_Atom "CO2")) as Hatom2
    by (rewrite Hatoms1; reflexivity).
  assert (3 * (mNumEntries (mAtoms_target (registry w1)) + 1) + 5 < SIZE_T_MODULUS)%N
    as Hfit1.
  { unfold HashMap_size in Hsize1. rewrite Hsize1. reflexivity. }
  destruct (registerAtom_rejects_duplicates length_hash w1 2 _ Hwf1 Hatom2 Hfit1)
    as (Hdup & _).
  destruct (Hdup 1%N Hfound1)
    as (w2 & Hreg2 & Hsame & Hatoms2 & Hgone & Halive & Hcout2 & Hfound2 & _).
  exists w1, w2. split; [exact Hreg1|]. split; [exact Hfound1|].
  split; [exact Hreg2|]. split; [exact Hsame|]. split; [exact Hgone|].
  split; [rewrite Halive by discriminate; rewrite Hatoms1; reflexivity|].
  split; [rewrite Hcout2, Hcout1; reflexivity | exact Hfound2].
Defined.

(** ** Instances of the further facts *)

Lemma two_atoms_wf : wf length_hash (mAtoms_target (registry two_atoms)).
Proof. apply wf_new_registry. Qed.

Lemma two_atoms_sound : registry_sound length_hash two_atoms.
Proof.
  intros aID a Ha. change (registry two_atoms) with (AtomRegistry_new 7) in Ha.
  by rewrite findAtom_new in Ha.
Qed.

Lemma two_atoms_unregistered (a : N) : ¬ registered length_hash two_atoms a.
Proof.
  intros [aID Ha]. change (registry two_atoms) with (AtomRegistry_new 7) in Ha.
  by rewrite findAtom_new in Ha.
Qed.

Lemma growth_test_exact_witness :
  (10 < SIZE_T_MODULUS)%N ∧ (0 < 23)%N ∧ (23 < SIZE_T_MODULUS)%N
  ∧ (over_threshold 10 23 = true <-> (2 * 23 < 5 * 10)%N)
  ∧ (over_threshold 10 23 = true <-> Qlt four_tenths (load_factor 10 23)).
Proof.
  split; [reflexivity|]. split; [lia|]. split; [reflexivity|].
  destruct (growth_test_exact 10 23) as (Hint & Hquot & _);
    [reflexivity | lia | reflexivity |].
  split; [exact Hint | exact Hquot].
Defined.

Lemma insert_keeps_invariant_witness :
  wf integer_hash (table_of_multiples 3)
  ∧ (3 * (mNumEntries (table_of_multiples 3) + 1) + 5 < SIZE_T_MODULUS)%N
  ∧ ∃ (it : iterator) (updated : bool) (m' : HashMap N N),
      HashMap_insert integer_hash 1 (table_of_multiples 3) (5, 50)%N
      = Ok (it, updated, m')
      ∧ wf integer_hash m'
      ∧ HashMap_size m'
        = (HashMap_size (table_of_multiples 3) + if updated then 0 else 1)%N.
Proof.
  assert (wf integer_hash (table_of_multiples 3)) as Hwf
    by (apply table_of_multiples_wf; lia).
  assert (3 * (mNumEntries (table_of_multiples 3) + 1) + 5 < SIZE_T_MODULUS)%N as Hfit
    by (vm_compute; reflexivity).
  split; [exact Hwf|]. split; [exact Hfit|].
  destruct (insert_keeps_invariant integer_hash 1 (table_of_multiples 3) (5, 50)%N
              Hwf Hfit) as (it & updated & m' & Hins & Hwf' & _ & Hsize & _).
  exists it, updated, m'. split; [exact Hins|]. split; [exact Hwf' | exact Hsize].
Defined.

Lemma insert_cursor_at_key_witness :
  wf integer_hash (table_of_multiples 3)
  ∧ (3 * (mNumEntries (table_of_multiples 3) + 1) + 5 < SIZE_T_MODULUS)%N
  ∧ ∃ (it : iterator) (updated : bool) (m' : HashMap N N) (it' : iterator),
      HashMap_insert integer_hash 1 (table_of_multiples 3) (5, 50)%N
      = Ok (it, updated, m')
      ∧ iterator_deref m' it = Ok (5, 50)%N
      ∧ HashMap_find integer_hash 1 m' 5%N = Ok it'
      ∧ (mCurrentItem it').1 = (mCurrentItem it).1.
Proof.
  assert (wf integer_hash (table_of_multiples 3)) as Hwf
    by (apply table_of_multiples_wf; lia).
  assert (3 * (mNumEntries (table_of_multiples 3) + 1) + 5 < SIZE_T_MODULUS)%N as Hfit
    by (vm_compute; reflexivity).
  split; [exact Hwf|]. split; [exact Hfit|].
  destruct (insert_cursor_at_key integer_hash 1 (table_of_multiples 3) (5, 50)%N
              Hwf Hfit) as (it & updated & m' & it' & Hins & Hderef & _ & Hfind & Hitem & _).
  exists it, updated, m', it'. split; [exact Hins|]. split; [exact Hderef|].
  split; [exact Hfind | exact Hitem].
Defined.

Lemma insert_keeps_other_keys_witness :
  wf integer_hash (table_of_multiples 3)
  ∧ (3 * (mNumEntries (table_of_multiples 3) + 1) + 5 < SIZE_T_MODULUS)%N
  ∧ 23%N ≠ (5, 50)%N.1
  ∧ HashMap_find integer_hash 1 (table_of_multiples 3) 23%N
    = Ok (mk_iterator (Some 1%N, 0%N) (Some 1%N))
  ∧ ∃ (it : iterator) (updated : bool) (m' : HashMap N N) (it2 : iterator),
      HashMap_insert integer_hash 1 (table_of_multiples 3) (5, 50)%N
      = Ok (it, updated, m')
      ∧ HashMap_find integer_hash 1 m' 23%N = Ok it2
      ∧ (mCurrentItem it2).1 = Some 1%N
      ∧ iterator_deref m' (mk_iterator (Some 1%N, 0%N) (Some 1%N))
        = iterator_deref (table_of_multiples 3) (mk_iterator (Some 1%N, 0%N) (Some 1%N)).
Proof.
  assert (wf integer_hash (table_of_multiples 3)) as Hwf
    by (apply table_of_multiples_wf; lia).
  assert (3 * (mNumEntries (table_of_multiples 3) + 1) + 5 < SIZE_T_MODULUS)%N as Hfit
    by (vm_compute; reflexivity).
  assert (23%N ≠ (5, 50)%N.1) as Hne by discriminate.
  assert (HashMap_find integer_hash 1 (table_of_multiples 3) 23%N
          = Ok (mk_iterator (Some 1%N, 0%N) (Some 1%N))) as Hfind
    by (vm_compute; reflexivity).
  split; [exact Hwf|]. split; [exact Hfit|]. split; [exact Hne|]. split; [exact Hfind|].
  destruct (insert_keeps_other_keys integer_hash 1 (table_of_multiples 3) (5, 50)%N
              23%N _ Hwf Hfit Hne Hfind)
    as (it & updated & m' & it2 & Hins & Hfind2 & Hitem & _ & Hderef & _).
  exists it, updated, m', it2. split; [exact Hins|]. split; [exact Hfind2|].
  split; [exact Hitem | exact Hderef].
Defined.

Lemma insert_all_last_wins_witness :
  (1 <= 23)%N ∧ (23 < SIZE_T_MODULUS)%N
  ∧ (3 * N.of_nat (length [(1, 10); (2, 20); (1, 11)]%N) + 5 < SIZE_T_MODULUS)%N
  ∧ ∃ m : HashMap N N,
      insert_all integer_hash 1 (HashMap_new 23) [(1, 10); (2, 20); (1, 11)]%N = Ok m
      ∧ HashMap_size m = 2%N
      ∧ ∃ it, HashMap_find integer_hash 1 m 1%N = Ok it
              ∧ iterator_deref m it = Ok (1, 11)%N.
Proof.
  split; [lia|]. split; [reflexivity|]. split; [reflexivity|].
  destruct (insert_all_last_wins integer_hash 1 23 [(1, 10); (2, 20); (1, 11)]%N)
    as (m & Hall & _ & Hsize & Hfind); [lia | reflexivity | reflexivity |].
  exists m. split; [exact Hall|]. split; [exact Hsize|]. exact (Hfind 1%N).
Defined.

Lemma load_factor_invariant_witness :
  (1 <= 1)%N ∧ (1 < SIZE_T_MODULUS)%N
  ∧ (3 * N.of_nat (length (multiples_of_23 10)) + 5 < SIZE_T_MODULUS)%N
  ∧ ∃ m : HashMap N N,
      insert_all integer_hash 1 (HashMap_new 1) (multiples_of_23 10) = Ok m
      ∧ Qle (load_factor (mNumEntries m) (mSize m)) four_tenths
      ∧ (1 <= mSize m)%N.
Proof.
  split; [lia|]. split; [reflexivity|]. split; [reflexivity|].
  apply (load_factor_invariant integer_hash 1 1 (multiples_of_23 10));
    [lia | reflexivity | reflexivity].
Defined.

Lemma find_cursor_valid_witness :
  wf integer_hash (table_of_multiples 3)
  ∧ ∃ it : iterator,
      HashMap_find integer_hash 1 (table_of_multiples 3) 23%N = Ok it
      ∧ if iterator_eq it HashMap_end
        then it = HashMap_end
             ∧ iterator_deref (table_of_multiples 3) it = Fault AssertionFailure
        else ∃ v : N,
               iterator_deref (table_of_multiples 3) it = Ok (23, v)%N
               ∧ (mCurrentItem it).2
                 = (integer_hash 23 mod mSize (table_of_multiples 3))%N
               ∧ mParent it = Some 1%N.
Proof.
  assert (wf integer_hash (table_of_multiples 3)) as Hwf
    by (apply table_of_multiples_wf; lia).
  split; [exact Hwf|].
  exact (find_cursor_valid integer_hash 1 (table_of_multiples 3) 23%N Hwf).
Defined.

Lemma find_distinct_keys_witness :
  wf integer_hash (table_of_multiples 3)
  ∧ 23%N ≠ 46%N
  ∧ HashMap_find integer_hash 1 (table_of_multiples 3) 23%N
    = Ok (mk_iterator (Some 1%N, 0%N) (Some 1%N))
  ∧ HashMap_find integer_hash 1 (table_of_multiples 3) 46%N
    = Ok (mk_iterator (Some 2%N, 0%N) (Some 1%N))
  ∧ iterator_eq (mk_iterator (Some 1%N, 0%N) (Some 1%N)) HashMap_end = false
  ∧ iterator_eq (mk_iterator (Some 1%N, 0%N) (Some 1%N))
      (mk_iterator (Some 2%N, 0%N) (Some 1%N)) = false.
Proof.
  assert (wf integer_hash (table_of_multiples 3)) as Hwf
    by (apply table_of_multiples_wf; lia).
  assert (23%N ≠ 46%N) as Hne by discriminate.
  assert (HashMap_find integer_hash 1 (table_of_multiples 3) 23%N
          = Ok (mk_iterator (Some 1%N, 0%N) (Some 1%N))) as Hfind1
    by (vm_compute; reflexivity).
  assert (HashMap_find integer_hash 1 (table_of_multiples 3) 46%N
          = Ok (mk_iterator (Some 2%N, 0%N) (Some 1%N))) as Hfind2
    by (vm_compute; reflexivity).
  split; [exact Hwf|]. split; [exact Hne|]. split; [exact Hfind1|].
  split; [exact Hfind2|]. split; [reflexivity|].
  exact (proj1 (find_distinct_keys integer_hash 1 (table_of_multiples 3) 23%N 46%N _ _
                  Hwf Hne Hfind1 Hfind2 eq_refl)).
Defined.

Lemma traversal_lists_contents_witness :
  wf integer_hash (table_of_multiples 3)
  ∧ ∃ (ps : list ItemPair) (kvs : list (N * N)),
      (b ← HashMap_begin 1 (table_of_multiples 3);
       const_visit (N.to_nat (HashMap_size (table_of_multiples 3)))
         (table_of_multiples 3) (const_iterator_of b)) = Ok ps
      ∧ length kvs = N.to_nat (HashMap_size (table_of_multiples 3))
      ∧ NoDup kvs.*1.
Proof.
  assert (wf integer_hash (table_of_multiples 3)) as Hwf
    by (apply table_of_multiples_wf; lia).
  split; [exact Hwf|].
  destruct (traversal_lists_contents integer_hash 1 (table_of_multiples 3) Hwf)
    as (ps & kvs & Hvisit & _ & Hlen & Hnd & _).
  exists ps, kvs. split; [exact Hvisit|]. split; [exact Hlen | exact Hnd].
Defined.

Lemma traversal_in_bucket_order_witness :
  wf integer_hash (table_of_multiples 3)
  ∧ ∃ ps : list ItemPair,
      (b ← HashMap_begin 1 (table_of_multiples 3);
       const_visit (N.to_nat (HashMap_size (table_of_multiples 3)))
         (table_of_multiples 3) (const_iterator_of b)) = Ok ps
      ∧ StronglySorted N.le ps.*2.
Proof.
  assert (wf integer_hash (table_of_multiples 3)) as Hwf
    by (apply table_of_multiples_wf; lia).
  split; [exact Hwf|].
  destruct (traversal_in_bucket_order integer_hash 1 (table_of_multiples 3) Hwf)
    as (ps & Hvisit & Hsorted & _).
  exists ps. split; [exact Hvisit | exact Hsorted].
Defined.

Lemma update_keeps_traversal_witness :
  wf integer_hash (table_of_multiples 3)
  ∧ HashMap_find integer_hash 1 (table_of_multiples 3) 23%N
    = Ok (mk_iterator (Some 1%N, 0%N) (Some 1%N))
  ∧ iterator_eq (mk_iterator (Some 1%N, 0%N) (Some 1%N)) HashMap_end = false
  ∧ ∃ (m' : HashMap N N) (ps : list ItemPair),
      HashMap_insert integer_hash 1 (table_of_multiples 3) (23, 7)%N
      = Ok (mk_iterator (Some 1%N, 0%N) (Some 1%N), true, m')
      ∧ (b ← HashMap_begin 1 (table_of_multiples 3);
         const_visit (N.to_nat (HashMap_size (table_of_multiples 3)))
           (table_of_multiples 3) (const_iterator_of b)) = Ok ps
      ∧ (b ← HashMap_begin 1 m';
         const_visit (N.to_nat (HashMap_size m')) m' (const_iterator_of b)) = Ok ps.
Proof.
  assert (wf integer_hash (table_of_multiples 3)) as Hwf
    by (apply table_of_multiples_wf; lia).
  assert (HashMap_find integer_hash 1 (table_of_multiples 3) 23%N
          = Ok (mk_iterator (Some 1%N, 0%N) (Some 1%N))) as Hfind
    by (vm_compute; reflexivity).
  split; [exact Hwf|]. split; [exact Hfind|]. split; [reflexivity|].
  exact (update_keeps_traversal integer_hash 1 (table_of_multiples 3) 23%N 7%N _
           Hwf Hfind eq_refl).
Defined.

Lemma increment_of_empty_begin_witness :
  HashMap_empty (HashMap_new 23 : HashMap N N) = true
  ∧ ∃ b : iterator,
      HashMap_begin 1 (HashMap_new 23 : HashMap N N) = Ok b
      ∧ iterator_eq b HashMap_end = true
      ∧ const_iterator_incr (HashMap_new 23 : HashMap N N) (const_iterator_of b)
        = Fault NullDereference.
Proof.
  split; [reflexivity|].
  destruct (increment_of_empty_begin 1 (HashMap_new 23 : HashMap N N) eq_refl)
    as (b & Hbegin & Heq & Hincr & _).
  exists b. split; [exact Hbegin|]. split; [exact Heq | exact Hincr].
Defined.

Lemma registerAtom_keeps_registry_sound_witness :
  wf length_hash (mAtoms_target (registry two_atoms))
  ∧ (3 * (mNumEntries (mAtoms_target (registry two_atoms)) + 1) + 5 < SIZE_T_MODULUS)%N
  ∧ registry_sound length_hash two_atoms
  ∧ atoms two_atoms !! 1%N = Some (mk_Atom "CO2")
  ∧ ¬ registered length_hash two_atoms 1
  ∧ ∃ (added : bool) (w' : World),
      registerAtom length_hash (Some 1%N) two_atoms = Ok (added, w')
      ∧ registry_sound length_hash w'.
Proof.
  assert (3 * (mNumEntries (mAtoms_target (registry two_atoms)) + 1) + 5
          < SIZE_T_MODULUS)%N as Hfit by reflexivity.
  assert (atoms two_atoms !! 1%N = Some (mk_Atom "CO2")) as Hatom by reflexivity.
  split; [exact two_atoms_wf|]. split; [exact Hfit|]. split; [exact two_atoms_sound|].
  split; [exact Hatom|]. split; [exact (two_atoms_unregistered 1)|].
  destruct (registerAtom_keeps_registry_sound length_hash two_atoms 1 _ two_atoms_wf Hfit
              two_atoms_sound Hatom (two_atoms_unregistered 1))
    as (added & w' & Hreg & _ & Hsound & _).
  exists added, w'. split; [exact Hreg | exact Hsound].
Defined.

Lemma registerAtom_same_object_twice_witness :
  wf length_hash (mAtoms_target (registry two_atoms))
  ∧ (3 * (mNumEntries (mAtoms_target (registry two_atoms)) + 1) + 5 < SIZE_T_MODULUS)%N
  ∧ atoms two_atoms !! 1%N = Some (mk_Atom "CO2")
  ∧ findAtom length_hash (registry two_atoms) (getID (mk_Atom "CO2")) = Ok None
  ∧ ∃ w1 w2 : World,
      registerAtom length_hash (Some 1%N) two_atoms = Ok (true, w1)
      ∧ registerAtom length_hash (Some 1%N) w1 = Ok (false, w2)
      ∧ findAtom length_hash (registry w2) "CO2" = Ok (Some 1%N)
      ∧ atoms w2 !! 1%N = None.
Proof.
  assert (3 * (mNumEntries (mAtoms_target (registry two_atoms)) + 1) + 5
          < SIZE_T_MODULUS)%N as Hfit by reflexivity.
  assert (atoms two_atoms !! 1%N = Some (mk_Atom "CO2")) as Hatom by reflexivity.
  assert (findAtom length_hash (registry two_atoms) (getID (mk_Atom "CO2")) = Ok None)
    as Hnone by apply findAtom_new.
  split; [exact two_atoms_wf|]. split; [exact Hfit|]. split; [exact Hatom|].
  split; [exact Hnone|].
  destruct (registerAtom_same_object_twice length_hash two_atoms 1 _ two_atoms_wf Hfit
              Hatom Hnone) as (w1 & w2 & Hreg1 & Hreg2 & Hfound & Hgone & _).
  exists w1, w2. split; [exact Hreg1|]. split; [exact Hreg2|].
  split; [exact Hfound | exact Hgone].
Defined.

Lemma new_registry_registers_witness :
  (<[1%N := mk_Atom "CO2"]> (∅ : gmap N Atom)) !! 1%N = Some (mk_Atom "CO2")
  ∧ ∃ w' : World,
      registerAtom length_hash (Some 1%N)
        (mk_World (AtomRegistry_new 7) (<[1%N := mk_Atom "CO2"]> ∅) []) = Ok (true, w')
      ∧ findAtom length_hash (registry w') "CO2" = Ok (Some 1%N).
Proof.
  assert ((<[1%N := mk_Atom "CO2"]> (∅ : gmap N Atom)) !! 1%N = Some (mk_Atom "CO2"))
    as Hlive by reflexivity.
  split; [exact Hlive|].
  destruct (new_registry_registers length_hash 7 (<[1%N := mk_Atom "CO2"]> ∅) [] 1
              (mk_Atom "CO2") Hlive)
    as (_ & _ & _ & _ & _ & w' & Hreg & Hfound & _).
  exists w'. split; [exact Hreg | exact Hfound].
Defined.
